(** * Wildcat-SLAM: the sliding-window estimator of [src/odometry/lidar_odometry.cc]

    A shallow embedding of the window manager, the predictor, the corrector
    and the residual assembly, together with the properties of the
    specification that concern them.

    Numeric model.  A C++ [double] is modelled by a canonical rational
    ([Qc]): comparisons and arithmetic are exact, equality is Leibniz
    equality.  Rounding, infinities, NaN and signed zeros are outside the
    model; a division by zero, which they would absorb, is 0 here, and the
    only divisions by a difference of stamps are between the two sides of a
    [std::lower_bound], which differ on a deque whose stamps do not
    decrease.

    Failure model.  A [CHECK] that fails, and [front()], [back()] or
    [operator[]] outside the range of a deque (the file defines
    [_GLIBCXX_ASSERTIONS], so these abort), are modelled by [None]. *)

From Stdlib Require Import QArith Qcanon Qround ZArith Lia Sorted.
From stdpp Require Import base decidable option list numbers.

Local Open Scope Qc_scope.

(** ** Scalars *)

Abbreviation double := Qc.

(** A decimal literal of the source. *)
Definition lit (q : Q) : double := Q2Qc q.

Definition Qcltb (x y : double) : bool := bool_decide (x < y).
Definition Qcleb (x y : double) : bool := bool_decide (x <= y).
Definition Qceqb (x y : double) : bool := bool_decide (x = y).

Infix "<?" := Qcltb (at level 70, no associativity) : Qc_scope.
Infix "<=?" := Qcleb (at level 70, no associativity) : Qc_scope.
Infix "=?" := Qceqb (at level 70, no associativity) : Qc_scope.

(** ** Eigen: [Vector3d], [Quaterniond], [AlignedBox3d] *)

Record Vector3d : Type := Vec3 { vx : double; vy : double; vz : double }.

Definition Zero : Vector3d := Vec3 0 0 0.

Definition vadd (a b : Vector3d) : Vector3d :=
  Vec3 (vx a + vx b) (vy a + vy b) (vz a + vz b).
Definition vsub (a b : Vector3d) : Vector3d :=
  Vec3 (vx a - vx b) (vy a - vy b) (vz a - vz b).
Definition vneg (a : Vector3d) : Vector3d :=
  Vec3 (- vx a) (- vy a) (- vz a).
(** [s * v] and [v * s] *)
Definition vscale (s : double) (a : Vector3d) : Vector3d :=
  Vec3 (s * vx a) (s * vy a) (s * vz a).
(** [v / s] *)
Definition vdiv (a : Vector3d) (s : double) : Vector3d :=
  Vec3 (vx a / s) (vy a / s) (vz a / s).
Definition cross (a b : Vector3d) : Vector3d :=
  Vec3 (vy a * vz b - vz a * vy b)
       (vz a * vx b - vx a * vz b)
       (vx a * vy b - vy a * vx b).
Definition squaredNorm (a : Vector3d) : double :=
  vx a * vx a + vy a * vy a + vz a * vz a.

Record Quaterniond : Type :=
  Quat { qw : double; qx : double; qy : double; qz : double }.

Definition Identity : Quaterniond := Quat 1 0 0 0.

Definition qvec (q : Quaterniond) : Vector3d := Vec3 (qx q) (qy q) (qz q).

(** [a * b], the Hamilton product *)
Definition qmul (a b : Quaterniond) : Quaterniond :=
  Quat (qw a * qw b - qx a * qx b - qy a * qy b - qz a * qz b)
       (qw a * qx b + qx a * qw b + qy a * qz b - qz a * qy b)
       (qw a * qy b + qy a * qw b + qz a * qx b - qx a * qz b)
       (qw a * qz b + qz a * qw b + qx a * qy b - qy a * qx b).

Definition conjugate (q : Quaterniond) : Quaterniond :=
  Quat (qw q) (- qx q) (- qy q) (- qz q).

Definition qsquaredNorm (q : Quaterniond) : double :=
  qw q * qw q + qx q * qx q + qy q * qy q + qz q * qz q.

(** [q * v]: Eigen computes [uv = 2 (u x v)] and returns
    [v + w uv + u x uv], with [u] the vector part of [q]. *)
Definition qrot (q : Quaterniond) (v : Vector3d) : Vector3d :=
  let uv := cross (qvec q) v in
  let uv := vadd uv uv in
  vadd (vadd v (vscale (qw q) uv)) (cross (qvec q) uv).

Record AlignedBox3d : Type := Box { box_min : Vector3d; box_max : Vector3d }.

Definition contains (b : AlignedBox3d) (p : Vector3d) : bool :=
  (vx (box_min b) <=? vx p) && (vy (box_min b) <=? vy p) && (vz (box_min b) <=? vz p)
  && (vx p <=? vx (box_max b)) && (vy p <=? vy (box_max b)) && (vz p <=? vz (box_max b)).

(** ** The deques of the estimator

    A [std::deque] is a list, front first. *)

Definition front {A} (l : list A) : option A := list.head l.
Definition back {A} (l : list A) : option A := list.last l.
Definition pop_front {A} (l : list A) : list A := tail l.
Definition push_back {A} (l : list A) (x : A) : list A := l ++ [x].

(** ** Messages and states *)

Module ImuData.
Record t : Type := mk {
  timestamp : double;
  angular_velocity : Vector3d;
  linear_acceleration : Vector3d }.
End ImuData.

(** [hilti_ros::Point]: the coordinates and the stamp of a lidar return. *)
Module Point.
Record t : Type := mk { getVector3fMap : Vector3d; time : double }.
End Point.

Module ImuState.
Record t : Type := mk {
  timestamp : double;
  pos : Vector3d;
  rot : Quaterniond;
  acc : Vector3d;
  gyr : Vector3d }.
Definition set_pose (p : Vector3d) (r : Quaterniond) (s : t) : t :=
  mk (timestamp s) p r (acc s) (gyr s).
End ImuState.

(** Modelled from the spec: [SampleState] is declared in
    [odometry/lidar_odometry.h], which is not among the sources.  The
    specification gives its fields and the layout of the correction block:
    [data_cor[12] = (rot_cor, pos_cor, ba_cor, bg_cor)], with [rot_cor] and
    [pos_cor] views of its entries 0..2 and 3..5. *)
Record DataCor : Type := mkDataCor {
  rot_cor : Vector3d;
  pos_cor : Vector3d;
  ba_cor : Vector3d;
  bg_cor : Vector3d }.

(** The twelve entries of the block, in memory order. *)
Definition flat (d : DataCor) : list double :=
  [ vx (rot_cor d); vy (rot_cor d); vz (rot_cor d);
    vx (pos_cor d); vy (pos_cor d); vz (pos_cor d);
    vx (ba_cor d); vy (ba_cor d); vz (ba_cor d);
    vx (bg_cor d); vy (bg_cor d); vz (bg_cor d) ].

Definition DataCorZero : DataCor := mkDataCor Zero Zero Zero Zero.

Module SampleState.
Record t : Type := mk {
  timestamp : double;
  pos : Vector3d;
  rot : Quaterniond;
  ba : Vector3d;
  bg : Vector3d;
  grav : Vector3d;
  data_cor : DataCor }.
Definition set_data_cor (d : DataCor) (s : t) : t :=
  mk (timestamp s) (pos s) (rot s) (ba s) (bg s) (grav s) d.
End SampleState.

(** Modelled from the spec: [Surfel] is declared in [surfel_extraction.h],
    which is not among the sources; these are the fields the specification
    lists. *)
Module Surfel.
Record t : Type := mk {
  timestamp : double;
  centroid : Vector3d;
  normal : Vector3d;
  local_centroid : Vector3d;
  local_normal : Vector3d;
  voxel_key : Z }.
End Surfel.

Record SurfelCorrespondence : Type := mkCorr { s1 : Surfel.t; s2 : Surfel.t }.

(** ** The least-squares problem handed to the solver

    A parameter block is the [data_cor] array of a sample state; it is
    identified by the position of that sample state in the window. *)

Inductive LossFunction : Type :=
  | CauchyLoss (a : double)
  | TrivialLoss.

(** The lidar cost function of [odometry/cost_functor.h],
    [SurfelMatchBinaryFactor<topology> (s1, sp1l, sp1r, s2, sp2l, sp2r)], by
    its template argument and constructor arguments (sample states by
    position). *)
Inductive CostFunction : Type :=
  | SurfelMatchBinaryFactor (topology : nat) (c : SurfelCorrespondence)
      (sp1l sp1r sp2l sp2r : nat).

Record ResidualBlock : Type := mkResidualBlock {
  cost_function : CostFunction;
  loss_function : LossFunction;
  parameter_blocks : list nat }.

(** [ceres::SubsetParameterization (size, constant_parameters)] *)
Record SubsetParameterization : Type := mkSubset {
  subset_size : nat;
  constant_parameters : list nat }.

Record Problem : Type := mkProblem {
  residual_blocks : list ResidualBlock;
  parameterizations : list (nat * SubsetParameterization) }.

Definition EmptyProblem : Problem := mkProblem [] [].

(** [problem.AddResidualBlock]: the identifier of the new block is its
    position in the problem. *)
Definition AddResidualBlock (problem : Problem) (f : CostFunction)
    (loss : LossFunction) (blocks : list nat) : Problem * nat :=
  (mkProblem (residual_blocks problem ++ [mkResidualBlock f loss blocks])
             (parameterizations problem),
   length (residual_blocks problem)).

Definition SetParameterization (problem : Problem) (block : nat)
    (p : SubsetParameterization) : Problem :=
  mkProblem (residual_blocks problem) (parameterizations problem ++ [(block, p)]).

(** ** What the file takes from elsewhere

    The functions below are called by [lidar_odometry.cc] and defined in
    headers that are not among the sources, or in Eigen and Ceres where they
    need square roots or trigonometry.  They are parameters of the model. *)
Class Externals : Type := {
  (** [common/utils.h]: the exponential map of SO(3) *)
  Exp : Vector3d → Quaterniond;
  (** [common/utils.h]: rigid transforms, [Rigid3d{pos, rot}], [a * b],
      [a.inverse()], [a * point] *)
  Rigid3d : Type;
  MkRigid3d : Vector3d → Quaterniond → Rigid3d;
  translation : Rigid3d → Vector3d;
  rotation : Rigid3d → Quaterniond;
  rmul : Rigid3d → Rigid3d → Rigid3d;
  inverse : Rigid3d → Rigid3d;
  rapply : Rigid3d → Vector3d → Vector3d;
  (** Eigen: [a.slerp(t, b)] and [v.norm()] *)
  slerp : Quaterniond → double → Quaterniond → Quaterniond;
  norm : Vector3d → double;
  (** [odometry/spline_interpolation.h]: the interpolator built from knots
      and control values, and its [Interp], null outside its support *)
  CubicBSplineInterpolator : Type;
  NewInterpolator : list double → list Vector3d → CubicBSplineInterpolator;
  Interp : CubicBSplineInterpolator → double → option Vector3d;
  (** [surfel_extraction.h]: [surfel->UpdatePose(pos, rot)] *)
  UpdatePose : Surfel.t → Vector3d → Quaterniond → Surfel.t;
  (** Ceres: [ceres::Solve], from the problem and the current value of
      every parameter block to their new values *)
  Solve : Problem → list DataCor → list DataCor }.

(** ** Configuration and estimator state *)

Record Config `{E : Externals} : Type := mkConfig {
  ext_lidar2imu : Rigid3d;
  min_range : double;
  max_range : double;
  blind_bounding_box : AlignedBox3d;
  sweep_duration : double;
  imu_rate : double;
  sample_dt : double;
  sliding_window_duration : double;
  gravity_norm : double;
  outer_iter_num_max : nat;
  inner_iter_num_max : nat }.

(** The members of [LidarOdometry] the file uses, and the two
    function-local statics [init_sld_win] and [sync_done]. *)
Record LidarOdometry : Type := mkLidarOdometry {
  imu_buff_ : list ImuData.t;
  points_buff_ : list Point.t;
  imu_states_sld_win_ : list ImuState.t;
  sample_states_sld_win_ : list SampleState.t;
  surfels_sld_win_ : list Surfel.t;
  init_sld_win : bool;
  sync_done : bool }.

(** ** Loops on deques, indexing and binary search *)

(** [while (d.front().key < t) d.pop_front();]  Reading the front of an
    emptied deque aborts. *)
Fixpoint pop_front_before {A} (key : A → double) (t : double) (d : list A)
  : option (list A) :=
  match d with
  | [] => None
  | x :: d' => if key x <? t then pop_front_before key t d' else Some d
  end.


(** [d[i]] for an [int] or [size_t] index. *)
Definition at_ {A} (l : list A) (i : Z) : option A :=
  if (i <? 0)%Z then None else l !! Z.to_nat i.

(** The loop of [std::lower_bound] and [std::upper_bound]: [right x] tells
    that the search continues after [x]. *)
Fixpoint bound_loop {A} (fuel : nat) (right : A → bool) (l : list A)
    (first len : nat) : nat :=
  match fuel with
  | O => first
  | S fuel' =>
      match len with
      | O => first
      | _ =>
          let half := Nat.div2 len in
          let middle := (first + half)%nat in
          match l !! middle with
          | Some x =>
              if right x
              then bound_loop fuel' right l (S middle) (len - half - 1)
              else bound_loop fuel' right l first half
          | None => first
          end
      end
  end.

(** [std::lower_bound (begin, end, value, comp) - begin] with
    [comp (a, value) = key a < value] *)
Definition lower_bound {A} (key : A → double) (l : list A) (value : double) : nat :=
  bound_loop (length l) (λ a, key a <? value) l 0 (length l).

(** [std::upper_bound (begin, end, value, comp) - begin] with
    [comp (value, a) = value < key a] *)
Definition upper_bound {A} (key : A → double) (l : list A) (value : double) : nat :=
  bound_loop (length l) (λ a, negb (value <? key a)) l 0 (length l).
(** ** Sweep builder *)

(** [BuildSweep]: reads [points_buff.front()] first, then moves points to
    the (cleared) sweep while the front is earlier than [sweep_endtime].
    The result is the sweep and what is left of the buffer. *)
Fixpoint BuildSweep_loop (points_buff : list Point.t) (sweep_endtime : double)
    (sweep : list Point.t) : list Point.t * list Point.t :=
  match points_buff with
  | [] => (sweep, [])
  | p :: rest =>
      if Point.time p <? sweep_endtime
      then BuildSweep_loop rest sweep_endtime (push_back sweep p)
      else (sweep, points_buff)
  end.

Definition BuildSweep (points_buff : list Point.t) (sweep_endtime : double)
  : option (list Point.t * list Point.t) :=
  _ ← front points_buff;
  Some (BuildSweep_loop points_buff sweep_endtime []).

Section Estimator.
Context `{E : Externals}.

(** Eigen's [v.normalized()]: [v / v.norm()], and [v] itself when its
    squared norm is not positive. *)
Definition normalized (v : Vector3d) : Vector3d :=
  if 0 <? squaredNorm v then vdiv v (norm v) else v.

(** ** Ingest *)

(** [AddImuData]: the message is copied and pushed; nothing else. *)
Definition AddImuData (st : LidarOdometry) (msg : ImuData.t) : LidarOdometry :=
  let msg_new := msg in
  mkLidarOdometry (push_back (imu_buff_ st) msg_new) (points_buff_ st)
    (imu_states_sld_win_ st) (sample_states_sld_win_ st) (surfels_sld_win_ st)
    (init_sld_win st) (sync_done st).

(** The first loop of [AddLidarScan]: every point of the scan is moved to
    the imu frame, checked against the back of the buffer, and pushed
    unless it is out of range or inside the blind box.  (The casts between
    [float] and [double] are the identity of the model.) *)
Fixpoint AddLidarScan_ingest (config : Config) (msg : list Point.t)
    (points_buff : list Point.t) : option (list Point.t) :=
  match msg with
  | [] => Some points_buff
  | pt :: msg' =>
      let pt := Point.mk (rapply (ext_lidar2imu config) (Point.getVector3fMap pt))
                         (Point.time pt) in
      if match back points_buff with
         | None => true
         | Some b => Point.time b <=? Point.time pt
         end
      then
        if (norm (Point.getVector3fMap pt) <? min_range config)
           || (max_range config <? norm (Point.getVector3fMap pt))
           || contains (blind_bounding_box config) (Point.getVector3fMap pt)
        then AddLidarScan_ingest config msg' points_buff
        else AddLidarScan_ingest config msg' (push_back points_buff pt)
      else None
  end.

(** ** Head synchronisation

    The two loops are [pop_front_before]; the check that follows each
    [pop_front] fails exactly when the next [front()] would. *)

Definition set_buffers (st : LidarOdometry) (imu_buff : list ImuData.t)
    (points_buff : list Point.t) (synced : bool) : LidarOdometry :=
  mkLidarOdometry imu_buff points_buff
    (imu_states_sld_win_ st) (sample_states_sld_win_ st) (surfels_sld_win_ st)
    (init_sld_win st) synced.

Definition SyncHeadingMsgs (st : LidarOdometry) : option (bool * LidarOdometry) :=
  if sync_done st then Some (true, st)
  else
    match back (imu_buff_ st), front (points_buff_ st) with
    | Some imu_back, Some point_front =>
        if ImuData.timestamp imu_back <? Point.time point_front
        then Some (false, st)
        else
          imu_buff ← pop_front_before ImuData.timestamp (Point.time point_front)
                       (imu_buff_ st);
          imu_front ← front imu_buff;
          points_buff ← pop_front_before Point.time (ImuData.timestamp imu_front)
                          (points_buff_ st);
          Some (true, set_buffers st imu_buff points_buff true)
    | _, _ => Some (false, st)
    end.

(** ** Predictor *)

Definition NewImuState (imu_msg : ImuData.t) (pos : Vector3d) (rot : Quaterniond)
  : ImuState.t :=
  ImuState.mk (ImuData.timestamp imu_msg) pos rot
    (ImuData.linear_acceleration imu_msg) (ImuData.angular_velocity imu_msg).

(** One round of the initialisation loop, [i] being its counter. *)
Definition Predict_init_round (dt : double) (i : nat)
    (imu_buff : list ImuData.t) (imu_states : list ImuState.t)
  : option (list ImuData.t * list ImuState.t) :=
  imu_msg ← front imu_buff;
  let imu_buff := pop_front imu_buff in
  rot ← match i with
        | O => Some Identity
        | _ => b ← back imu_states;
               Some (Exp (vscale dt
                 (vdiv (vadd (ImuState.gyr b) (ImuData.angular_velocity imu_msg)) 2)))
        end;
  Some (imu_buff, push_back imu_states (NewImuState imu_msg Zero rot)).

(** Step 1, "try to initialize imu states and sample states".  The new
    [SampleState] has a zero correction block (modelled from the spec: its
    constructor is in the missing header). *)
Definition Predict_init (config : Config) (dt : double) (st : LidarOdometry)
  : option LidarOdometry :=
  if init_sld_win st then Some st
  else
    '(imu_buff, imu_states) ←
      Predict_init_round dt 0 (imu_buff_ st) (imu_states_sld_win_ st);
    '(imu_buff, imu_states) ← Predict_init_round dt 1 imu_buff imu_states;
    f ← front imu_states;
    let ss := SampleState.mk (ImuState.timestamp f) (ImuState.pos f) (ImuState.rot f)
                Zero Zero
                (vscale (- gravity_norm config) (normalized (ImuState.acc f)))
                DataCorZero in
    Some (mkLidarOdometry imu_buff (points_buff_ st) imu_states
            (push_back (sample_states_sld_win_ st) ss) (surfels_sld_win_ st)
            true (sync_done st)).

(** The state appended for [imu_msg] by step 2. *)
Definition Predict_imu_state (dt : double) (ba bg grav : Vector3d)
    (imu_states : list ImuState.t) (imu_msg : ImuData.t) : option ImuState.t :=
  let size := Z.of_nat (length imu_states) in
  s1 ← at_ imu_states (size - 1);
  s2 ← at_ imu_states (size - 2);
  let rot :=
    qmul (ImuState.rot s1)
      (Exp (vscale dt
         (vsub (vdiv (vadd (ImuState.gyr s1) (ImuData.angular_velocity imu_msg)) 2) bg))) in
  let pos :=
    vsub (vadd (vscale dt (vscale dt
                  (vadd (qrot (ImuState.rot s2) (vsub (ImuState.acc s2) ba)) grav)))
               (vscale 2 (ImuState.pos s1)))
         (ImuState.pos s2) in
  Some (NewImuState imu_msg pos rot).

(** Step 2, "predict imu states": consume the buffer up to and including
    the first sample at or after [end_time]. *)
Fixpoint Predict_imu (dt : double) (ba bg grav : Vector3d) (end_time : double)
    (imu_buff : list ImuData.t) (imu_states : list ImuState.t)
  : option (list ImuData.t * list ImuState.t) :=
  match imu_buff with
  | [] => Some ([], imu_states)
  | imu_msg :: imu_buff' =>
      imu_state ← Predict_imu_state dt ba bg grav imu_states imu_msg;
      let imu_states := push_back imu_states imu_state in
      if end_time <=? ImuState.timestamp imu_state
      then Some (imu_buff', imu_states)
      else Predict_imu dt ba bg grav end_time imu_buff' imu_states
  end.

(** Step 3, "add more sample states".  The loop on [timestamp] ends when
    [sample_dt] is positive; [fuel] bounds its rounds, and [None] is also
    the answer when the bound is reached, which the bound computed by
    [Predict_samples_fuel] never is for a positive [sample_dt] (lemma
    [Predict_samples_fuel_enough]). *)
Fixpoint Predict_samples (fuel : nat) (config : Config) (end_time : double)
    (ba bg grav : Vector3d) (imu_states : list ImuState.t)
    (timestamp : double) (sample_states : list SampleState.t)
  : option (list SampleState.t) :=
  match fuel with
  | O => None
  | S fuel' =>
      if timestamp <? end_time then
        let idx := lower_bound ImuState.timestamp imu_states timestamp in
        if decide (idx = 0%nat) then None
        else if decide (idx = length imu_states) then None
        else
          a ← imu_states !! (idx - 1)%nat;
          b ← imu_states !! idx;
          let factor := (timestamp - ImuState.timestamp a)
                        / (ImuState.timestamp b - ImuState.timestamp a) in
          let rot := slerp (ImuState.rot a) factor (ImuState.rot b) in
          let pos := vadd (vscale (1 - factor) (ImuState.pos a))
                          (vscale factor (ImuState.pos b)) in
          if (0 <=? factor) && (factor <=? 1) then
            Predict_samples fuel' config end_time ba bg grav imu_states
              (timestamp + sample_dt config)
              (push_back sample_states
                 (SampleState.mk timestamp pos rot ba bg grav DataCorZero))
          else None
      else Some sample_states
  end.

(** Rounds of the loop of step 3 when [sample_dt] is positive, plus one
    for the test that leaves it. *)
Definition Predict_samples_fuel (config : Config) (start end_time : double) : nat :=
  S (Z.to_nat (Qceiling (this ((end_time - start) / sample_dt config)))).

Definition PredictImuStatesAndSampleStates (config : Config) (end_time : double)
    (st : LidarOdometry) : option LidarOdometry :=
  if decide (2 <= length (imu_buff_ st))%nat then
    let dt := 1 / imu_rate config in
    st ← Predict_init config dt st;
    latest ← back (sample_states_sld_win_ st);
    let ba := SampleState.ba latest in
    let bg := SampleState.bg latest in
    let grav := SampleState.grav latest in
    '(imu_buff, imu_states) ←
      Predict_imu dt ba bg grav end_time (imu_buff_ st) (imu_states_sld_win_ st);
    let sample_states_oldtime := SampleState.timestamp latest in
    sample_states ←
      Predict_samples (Predict_samples_fuel config sample_states_oldtime end_time)
        config end_time ba bg grav imu_states
        (sample_states_oldtime + sample_dt config) (sample_states_sld_win_ st);
    Some (mkLidarOdometry imu_buff (points_buff_ st) imu_states sample_states
            (surfels_sld_win_ st) (init_sld_win st) (sync_done st))
  else None.

(** The part of [AddLidarScan] that collects a sweep (steps 1 and 2 of its
    comments): wait until points and imu samples cover the sweep, predict,
    move the end of the sweep to the latest sample state, build the sweep.
    [Some None] is the silent return. *)
Definition AddLidarScan_sweep (config : Config) (st : LidarOdometry)
  : option (option (list Point.t * LidarOdometry)) :=
  point_front ← front (points_buff_ st);
  point_back ← back (points_buff_ st);
  let sweep_endtime := Point.time point_front + sweep_duration config in
  if (Point.time point_back <? sweep_endtime)
     || match back (imu_buff_ st) with
        | None => true
        | Some imu_back => ImuData.timestamp imu_back <? sweep_endtime
        end
  then Some None
  else
    st ← PredictImuStatesAndSampleStates config sweep_endtime st;
    latest ← back (sample_states_sld_win_ st);
    let sweep_endtime := SampleState.timestamp latest in
    '(sweep, points_buff) ← BuildSweep (points_buff_ st) sweep_endtime;
    Some (Some (sweep,
      mkLidarOdometry (imu_buff_ st) points_buff (imu_states_sld_win_ st)
        (sample_states_sld_win_ st) (surfels_sld_win_ st)
        (init_sld_win st) (sync_done st))).

(** ** Corrector *)

(** The pose the dense trajectory gives at [timestamp], between the states
    [idx - 1] and [idx]. *)
Definition UpdateSurfelPose (imu_states : list ImuState.t) (surfel : Surfel.t)
  : option Surfel.t :=
  let idx := lower_bound ImuState.timestamp imu_states (Surfel.timestamp surfel) in
  if decide (idx ≠ 0%nat ∧ idx ≠ length imu_states) then
    a ← imu_states !! (idx - 1)%nat;
    b ← imu_states !! idx;
    let factor := (Surfel.timestamp surfel - ImuState.timestamp a)
                  / (ImuState.timestamp b - ImuState.timestamp a) in
    let pos := vadd (vscale (1 - factor) (ImuState.pos a))
                    (vscale factor (ImuState.pos b)) in
    let rot := slerp (ImuState.rot a) factor (ImuState.rot b) in
    Some (UpdatePose surfel pos rot)
  else None.

Definition UpdateSurfelPoses (imu_states : list ImuState.t) (surfels : list Surfel.t)
  : option (list Surfel.t) :=
  mapM (UpdateSurfelPose imu_states) surfels.

(** The body of the loop of [UpdateSamplePoses]. *)
Definition UpdateSamplePose (sample_state : SampleState.t) : SampleState.t :=
  let d := SampleState.data_cor sample_state in
  let rot := qmul (Exp (rot_cor d)) (SampleState.rot sample_state) in
  let pos := vadd (pos_cor d) (SampleState.pos sample_state) in
  SampleState.mk (SampleState.timestamp sample_state) pos rot
    (SampleState.ba sample_state) (SampleState.bg sample_state)
    (SampleState.grav sample_state)
    (mkDataCor Zero Zero (ba_cor d) (bg_cor d)).

Definition UpdateSamplePoses (sample_states : list SampleState.t)
  : list SampleState.t :=
  map UpdateSamplePose sample_states.

Record CubicBSplineSampleCorrector : Type := mkCorrector {
  rot_interp_ : CubicBSplineInterpolator;
  pos_interp_ : CubicBSplineInterpolator }.

Definition NewCorrector (sample_states : list SampleState.t)
  : CubicBSplineSampleCorrector :=
  let sample_timestamps := map SampleState.timestamp sample_states in
  let sample_rot := map (λ s, rot_cor (SampleState.data_cor s)) sample_states in
  let sample_pos := map (λ s, pos_cor (SampleState.data_cor s)) sample_states in
  mkCorrector (NewInterpolator sample_timestamps sample_rot)
              (NewInterpolator sample_timestamps sample_pos).

(** [GetCorr]: [Some (Some (rot_cor, pos_cor))] for [true], [Some None] for
    [false], [None] when the check "Interpolation failed" fires. *)
Definition GetCorr (c : CubicBSplineSampleCorrector) (timestamp : double)
  : option (option (Vector3d * Vector3d)) :=
  match Interp (rot_interp_ c) timestamp, Interp (pos_interp_ c) timestamp with
  | Some rot_cor, Some pos_cor => Some (Some (rot_cor, pos_cor))
  | None, None => Some None
  | _, _ => None
  end.

(** First loop of [UpdateImuPoses], rounds [i], [i + 1], ... ([n] of them). *)
Fixpoint UpdateImuPoses_correct (n : nat) (corrector : CubicBSplineSampleCorrector)
    (i : nat) (imu_states_new : list ImuState.t)
    (corrected_first_idx corrected_last_idx : Z)
  : option (list ImuState.t * Z * Z) :=
  match n with
  | O => Some (imu_states_new, corrected_first_idx, corrected_last_idx)
  | S n' =>
      imu_state ← imu_states_new !! i;
      interp ← GetCorr corrector (ImuState.timestamp imu_state);
      match interp with
      | Some (rot_cor, pos_cor) =>
          let imu_state :=
            ImuState.set_pose (vadd pos_cor (ImuState.pos imu_state))
                              (qmul (Exp rot_cor) (ImuState.rot imu_state))
                              imu_state in
          UpdateImuPoses_correct n' corrector (S i)
            (<[i := imu_state]> imu_states_new)
            (if (corrected_first_idx =? -1)%Z then Z.of_nat i else corrected_first_idx)
            (Z.of_nat i)
      | None =>
          UpdateImuPoses_correct n' corrector (S i) imu_states_new
            corrected_first_idx corrected_last_idx
      end
  end.

(** [old_i * old_j.inverse() * new_j] written back to position [i]. *)
Definition UpdateImuPoses_relative (imu_states imu_states_new : list ImuState.t)
    (i : nat) (j : Z) : option (list ImuState.t) :=
  old_i ← imu_states !! i;
  old_j ← at_ imu_states j;
  new_j ← at_ imu_states_new j;
  new_i ← imu_states_new !! i;
  let pose_i_new :=
    rmul (rmul (MkRigid3d (ImuState.pos old_i) (ImuState.rot old_i))
               (inverse (MkRigid3d (ImuState.pos old_j) (ImuState.rot old_j))))
         (MkRigid3d (ImuState.pos new_j) (ImuState.rot new_j)) in
  Some (<[i := ImuState.set_pose (translation pose_i_new) (rotation pose_i_new) new_i]>
          imu_states_new).

(** Second loop, [i = n - 1] down to [0]. *)
Fixpoint UpdateImuPoses_heading (n : nat) (imu_states imu_states_new : list ImuState.t)
  : option (list ImuState.t) :=
  match n with
  | O => Some imu_states_new
  | S i =>
      imu_states_new ←
        UpdateImuPoses_relative imu_states imu_states_new i (Z.of_nat i + 1);
      UpdateImuPoses_heading i imu_states imu_states_new
  end.

(** Third loop, [n] rounds from [i] upwards. *)
Fixpoint UpdateImuPoses_tailing (n : nat) (i : nat)
    (imu_states imu_states_new : list ImuState.t) : option (list ImuState.t) :=
  match n with
  | O => Some imu_states_new
  | S n' =>
      imu_states_new ←
        UpdateImuPoses_relative imu_states imu_states_new i (Z.of_nat i - 1);
      UpdateImuPoses_tailing n' (S i) imu_states imu_states_new
  end.

Definition UpdateImuPoses (sample_states : list SampleState.t)
    (imu_states : list ImuState.t) : option (list ImuState.t) :=
  let imu_states_new := imu_states in
  let corrector := NewCorrector sample_states in
  '(imu_states_new, corrected_first_idx, corrected_last_idx) ←
    UpdateImuPoses_correct (length imu_states_new) corrector 0 imu_states_new (-1) (-1);
  if (corrected_first_idx =? -1)%Z then Some imu_states_new
  else
    imu_states_new ←
      UpdateImuPoses_heading (Z.to_nat corrected_first_idx) imu_states imu_states_new;
    UpdateImuPoses_tailing
      (length imu_states_new - Z.to_nat (corrected_last_idx + 1))
      (Z.to_nat (corrected_last_idx + 1)) imu_states imu_states_new.

Definition set_window (st : LidarOdometry) (sample_states : list SampleState.t)
    (imu_states : list ImuState.t) (surfels : list Surfel.t) : LidarOdometry :=
  mkLidarOdometry (imu_buff_ st) (points_buff_ st) imu_states sample_states surfels
    (init_sld_win st) (sync_done st).

(** The three calls that follow the solver in every outer iteration. *)
Definition Corrector (st : LidarOdometry) : option LidarOdometry :=
  imu_states ← UpdateImuPoses (sample_states_sld_win_ st) (imu_states_sld_win_ st);
  surfels ← UpdateSurfelPoses imu_states (surfels_sld_win_ st);
  Some (set_window st (UpdateSamplePoses (sample_states_sld_win_ st)) imu_states surfels).

(** The solver writes the parameter blocks in place. *)
Definition write_blocks (blocks : list DataCor) (sample_states : list SampleState.t)
  : list SampleState.t :=
  imap (λ i s, match blocks !! i with
               | Some d => SampleState.set_data_cor d s
               | None => s
               end) sample_states.

(** The end of an outer iteration: pin the translation of the first sample
    state, solve, correct. *)
Definition SolveAndCorrect (problem : Problem) (st : LidarOdometry)
  : option LidarOdometry :=
  _ ← at_ (sample_states_sld_win_ st) 0;
  let problem := SetParameterization problem 0 (mkSubset 12 [3; 4; 5]%nat) in
  let blocks := Solve problem (map SampleState.data_cor (sample_states_sld_win_ st)) in
  Corrector (set_window st (write_blocks blocks (sample_states_sld_win_ st))
               (imu_states_sld_win_ st) (surfels_sld_win_ st)).

(** ** Window trimmer *)

(** [while (back.timestamp - front.timestamp > window_duration) pop_front] *)
Fixpoint ShrinkToFit_samples (window_duration : double)
    (sample_states : list SampleState.t) : option (list SampleState.t) :=
  match sample_states with
  | [] => None
  | f :: rest =>
      b ← back sample_states;
      if window_duration <? SampleState.timestamp b - SampleState.timestamp f
      then ShrinkToFit_samples window_duration rest
      else Some sample_states
  end.

Definition ShrinkToFit (sample_states : list SampleState.t)
    (imu_states : list ImuState.t) (surfels : list Surfel.t)
    (window_duration : double)
  : option (list SampleState.t * list ImuState.t * list Surfel.t) :=
  match front sample_states, back sample_states with
  | Some f, Some b =>
      if SampleState.timestamp b - SampleState.timestamp f <=? window_duration
      then Some (sample_states, imu_states, surfels)
      else
        sample_states ← ShrinkToFit_samples window_duration sample_states;
        sample_front ← front sample_states;
        imu_states ← pop_front_before ImuState.timestamp
                      (SampleState.timestamp sample_front) imu_states;
        imu_front ← front imu_states;
        surfels ← pop_front_before Surfel.timestamp (ImuState.timestamp imu_front) surfels;
        Some (sample_states, imu_states, surfels)
  | _, _ => Some (sample_states, imu_states, surfels)
  end.

(** ** Residual assembly *)

(** The body of the loop of [BuildLidarResiduals]. *)
Definition BuildLidarResiduals_body (sample_states : list SampleState.t)
    (surfel_corr : SurfelCorrespondence) (problem : Problem) (residual_ids : list nat)
  : option (Problem * list nat) :=
  let t1 := Surfel.timestamp (s1 surfel_corr) in
  let t2 := Surfel.timestamp (s2 surfel_corr) in
  let n := length sample_states in
  if t1 <? t2 then
    let sp1r_it := upper_bound SampleState.timestamp sample_states t1 in
    if decide (sp1r_it = 0%nat) then None
    else if decide (sp1r_it = n) then None
    else
      sp1l ← sample_states !! (sp1r_it - 1)%nat;
      sp1r ← sample_states !! sp1r_it;
      let sp2r_it := upper_bound SampleState.timestamp sample_states t2 in
      if decide (sp2r_it = 0%nat) then None
      else if decide (sp2r_it = n) then None
      else
        sp2l ← sample_states !! (sp2r_it - 1)%nat;
        sp2r ← sample_states !! sp2r_it;
        if bool_decide (sp1r_it = 0%nat ∨ sp1r_it = n ∨ sp2r_it = 0%nat ∨ sp2r_it = n)
        then Some (problem, residual_ids)
        else
          let loss_function := CauchyLoss (lit 0.4) in
          let '(problem, residual_id) :=
            if SampleState.timestamp sp1r <? SampleState.timestamp sp2l then
              AddResidualBlock problem
                (SurfelMatchBinaryFactor 0 surfel_corr
                   (sp1r_it - 1) sp1r_it (sp2r_it - 1) sp2r_it)
                loss_function
                [(sp1r_it - 1)%nat; sp1r_it; (sp2r_it - 1)%nat; sp2r_it]
            else if SampleState.timestamp sp1r =? SampleState.timestamp sp2l then
              AddResidualBlock problem
                (SurfelMatchBinaryFactor 1 surfel_corr
                   (sp1r_it - 1) sp1r_it (sp2r_it - 1) sp2r_it)
                loss_function
                [(sp1r_it - 1)%nat; sp1r_it; sp2r_it]
            else
              AddResidualBlock problem
                (SurfelMatchBinaryFactor 2 surfel_corr
                   (sp1r_it - 1) sp1r_it (sp2r_it - 1) sp2r_it)
                loss_function
                [(sp1r_it - 1)%nat; sp1r_it]
          in
          Some (problem, push_back residual_ids residual_id)
  else None.

Fixpoint BuildLidarResiduals (sample_states : list SampleState.t)
    (surfel_corrs : list SurfelCorrespondence) (problem : Problem)
    (residual_ids : list nat) : option (Problem * list nat) :=
  match surfel_corrs with
  | [] => Some (problem, residual_ids)
  | surfel_corr :: surfel_corrs' =>
      '(problem, residual_ids) ←
        BuildLidarResiduals_body sample_states surfel_corr problem residual_ids;
      BuildLidarResiduals sample_states surfel_corrs' problem residual_ids
  end.

End Estimator.

(** ** Sweep undistortion and imu residual assembly *)

(** [DBL_MAX], the largest finite [double]: (2^53 - 1) 2^971. *)
Definition DBL_MAX : double := Q2Qc (inject_Z ((2 ^ 53 - 1) * 2 ^ 971)).

(** The fields of [config_] that only [BuildImuResiduals] reads. *)
Record ImuCostWeights : Type := mkImuCostWeights {
  gyroscope_noise_density_cost_weight : double;
  accelerometer_noise_density_cost_weight : double;
  gyroscope_random_walk_cost_weight : double;
  accelerometer_random_walk_cost_weight : double }.

(** The imu cost function of [odometry/cost_functor.h],
    [ImuFactor<topology> (i1, i2, i3, t1, t2, t3, weights, dt, grav)], by its
    template argument and constructor arguments. *)
Inductive ImuCostFunction : Type :=
  | ImuFactor (topology : nat) (i1 i2 i3 : ImuState.t) (t1 t2 t3 : double)
      (weights : ImuCostWeights) (dt : double) (grav : Vector3d).

(** A residual block that [BuildImuResiduals] adds to the problem, its
    parameter blocks by the position of their sample state in the window.
    The model keeps these blocks in a list of their own, in the order in
    which they are added; [residual_ids] receives one identifier for each. *)
Record ImuResidualBlock : Type := mkImuResidualBlock {
  imu_cost_function : ImuCostFunction;
  imu_loss_function : LossFunction;
  imu_parameter_blocks : list nat }.

Section SweepAndImuFactors.
Context `{E : Externals}.

(** The body of the loop of [UndistortSweep]: the pose of the dense
    trajectory at the stamp of the point, between the states [idx - 1] and
    [idx], applied to the point.  The casts between [float] and [double]
    are the identity here, as in the ingest loop. *)
Definition UndistortPoint (imu_states : list ImuState.t) (pt : Point.t)
  : option Point.t :=
  let idx := lower_bound ImuState.timestamp imu_states (Point.time pt) in
  if decide (1 <= idx ∧ idx < length imu_states)%nat then
    a ← imu_states !! (idx - 1)%nat;
    b ← imu_states !! idx;
    let factor := (Point.time pt - ImuState.timestamp a)
                  / (ImuState.timestamp b - ImuState.timestamp a) in
    let pos := vadd (vscale (1 - factor) (ImuState.pos a))
                    (vscale factor (ImuState.pos b)) in
    let rot := slerp (ImuState.rot a) factor (ImuState.rot b) in
    let new_pt := Point.mk (vadd (qrot rot (Point.getVector3fMap pt)) pos)
                           (Point.time pt) in
    Some new_pt
  else None.

Definition UndistortSweep (sweep_in : list Point.t) (imu_states : list ImuState.t)
  : option (list Point.t) :=
  mapM (UndistortPoint imu_states) sweep_in.

(** [AddLidarScan] up to the undistorted sweep (the ingest, the head
    synchronisation and steps 1 to 3 of its comments).  The result is the
    state and, unless the call returns early, the undistorted sweep.  The
    log line that follows [BuildSweep] reads [sweep.front()] and
    [sweep.back()]. *)
Definition AddLidarScan_undistort (config : Config) (msg : list Point.t)
    (st : LidarOdometry) : option (LidarOdometry * option (list Point.t)) :=
  points_buff ← AddLidarScan_ingest config msg (points_buff_ st);
  let st := set_buffers st (imu_buff_ st) points_buff (sync_done st) in
  '(synced, st) ← SyncHeadingMsgs st;
  if negb synced then Some (st, None)
  else
    collected ← AddLidarScan_sweep config st;
    match collected with
    | None => Some (st, None)
    | Some (sweep, st) =>
        _ ← front sweep;
        _ ← back sweep;
        sweep_undistorted ← UndistortSweep sweep (imu_states_sld_win_ st);
        Some (st, Some sweep_undistorted)
    end.

(** The loop of [BuildImuResiduals].  Its bound [imu_states.size() - 2] is
    computed on [size_t] (64 bits) and wraps around below two states.  Every
    round that goes on reads [imu_states[i + 2]], so the loop ends within
    [imu_states.size()] rounds; [fuel] is that bound, and is never used up
    (lemma [BuildImuResiduals_loop_fuel]).  The counter [i] is an [int],
    converted to [size_t] for the test; it is an integer here, which is the
    same on a deque of fewer than 2^31 states.  Reading [*(sp2_it - 1)] at the
    begin of the deque or [*sp2_it] at its end has no defined behaviour; the
    model fails there. *)
Fixpoint BuildImuResiduals_loop (fuel : nat) (config : Config)
    (weights : ImuCostWeights) (sample_states : list SampleState.t)
    (imu_states : list ImuState.t) (i : Z) (blocks : list ImuResidualBlock)
  : option (list ImuResidualBlock) :=
  match fuel with
  | O => None
  | S fuel' =>
      if (i <? (Z.of_nat (length imu_states) - 2) `mod` 2 ^ 64)%Z then
        i1 ← at_ imu_states i;
        i2 ← at_ imu_states (i + 1);
        i3 ← at_ imu_states (i + 2);
        sample_front ← front sample_states;
        if ImuState.timestamp i1 <? SampleState.timestamp sample_front then
          BuildImuResiduals_loop fuel' config weights sample_states imu_states
            (i + 1) blocks
        else
          sample_back ← back sample_states;
          if SampleState.timestamp sample_back <? ImuState.timestamp i3 then
            Some blocks
          else
            let sp2_it :=
              upper_bound SampleState.timestamp sample_states (ImuState.timestamp i1) in
            if decide (sp2_it = 0%nat) then None
            else
              sp1 ← sample_states !! (sp2_it - 1)%nat;
              sp2 ← sample_states !! sp2_it;
              if decide (sp2_it = (length sample_states - 1)%nat) then
                BuildImuResiduals_loop fuel' config weights sample_states imu_states
                  (i + 1)
                  (push_back blocks
                     (mkImuResidualBlock
                        (ImuFactor 1 i1 i2 i3
                           (SampleState.timestamp sp1) (SampleState.timestamp sp2) DBL_MAX
                           weights (1 / imu_rate config) (SampleState.grav sample_back))
                        TrivialLoss
                        [(sp2_it - 1)%nat; sp2_it]))
              else
                sp3 ← sample_states !! (sp2_it + 1)%nat;
                BuildImuResiduals_loop fuel' config weights sample_states imu_states
                  (i + 1)
                  (push_back blocks
                     (mkImuResidualBlock
                        (ImuFactor 0 i1 i2 i3
                           (SampleState.timestamp sp1) (SampleState.timestamp sp2)
                           (SampleState.timestamp sp3)
                           weights (1 / imu_rate config) (SampleState.grav sample_back))
                        TrivialLoss
                        [(sp2_it - 1)%nat; sp2_it; (sp2_it + 1)%nat]))
      else Some blocks
  end.

Definition BuildImuResiduals (config : Config) (weights : ImuCostWeights)
    (sample_states : list SampleState.t) (imu_states : list ImuState.t)
  : option (list ImuResidualBlock) :=
  BuildImuResiduals_loop (S (length imu_states)) config weights sample_states
    imu_states 0 [].

End SweepAndImuFactors.

(** ** A reference instance of the parameters

    Rational stand-ins for the functions the model takes as parameters;
    the examples at the end of the file are evaluated with them.  Rigid
    transforms are pairs (translation, rotation) with the usual composition;
    the interpolator is the uniform cubic B-spline; the exponential map is
    replaced by the Cayley map, and square roots by the 1-norm. *)
Module Ref.

Definition Exp (v : Vector3d) : Quaterniond :=
  let u := vdiv v (lit 4) in
  let s := squaredNorm u in
  Quat ((1 - s) / (1 + s)) (2 * vx u / (1 + s)) (2 * vy u / (1 + s))
       (2 * vz u / (1 + s)).

Definition Rigid3d : Type := Vector3d * Quaterniond.

Definition rmul (a b : Rigid3d) : Rigid3d :=
  (vadd (qrot (snd a) (fst b)) (fst a), qmul (snd a) (snd b)).

Definition inverse (a : Rigid3d) : Rigid3d :=
  (vneg (qrot (conjugate (snd a)) (fst a)), conjugate (snd a)).

Definition rapply (a : Rigid3d) (p : Vector3d) : Vector3d :=
  vadd (qrot (snd a) p) (fst a).

Definition slerp (a : Quaterniond) (t : double) (b : Quaterniond) : Quaterniond :=
  Quat ((1 - t) * qw a + t * qw b) ((1 - t) * qx a + t * qx b)
       ((1 - t) * qy a + t * qy b) ((1 - t) * qz a + t * qz b).

Definition abs (x : double) : double := if x <? 0 then - x else x.

Definition norm (v : Vector3d) : double := abs (vx v) + abs (vy v) + abs (vz v).

Definition CubicBSplineInterpolator : Type := list double * list Vector3d.

(** The value at [t] in the knot interval [k, k + 1], from the control
    values [k - 1 .. k + 2]. *)
Definition Interp (c : CubicBSplineInterpolator) (t : double) : option Vector3d :=
  let '(knots, values) := c in
  let i := upper_bound id knots t in
  match i with
  | S (S k') =>
      let k := S k' in
      tk ← knots !! k;
      tk1 ← knots !! S k;
      p0 ← values !! k';
      p1 ← values !! k;
      p2 ← values !! S k;
      p3 ← values !! S (S k);
      let u := (t - tk) / (tk1 - tk) in
      let b0 := (1 - u) * (1 - u) * (1 - u) / lit 6 in
      let b1 := (lit 3 * u * u * u - lit 6 * u * u + lit 4) / lit 6 in
      let b2 := (- lit 3 * u * u * u + lit 3 * u * u + lit 3 * u + 1) / lit 6 in
      let b3 := u * u * u / lit 6 in
      Some (vadd (vadd (vscale b0 p0) (vscale b1 p1))
                 (vadd (vscale b2 p2) (vscale b3 p3)))
  | _ => None
  end.

Definition UpdatePose (s : Surfel.t) (pos : Vector3d) (rot : Quaterniond) : Surfel.t :=
  Surfel.mk (Surfel.timestamp s)
    (vadd (qrot rot (Surfel.local_centroid s)) pos)
    (qrot rot (Surfel.local_normal s))
    (Surfel.local_centroid s) (Surfel.local_normal s) (Surfel.voxel_key s).

(** Entry [i] of block [k] is held constant by the problem. *)
Definition constant (problem : Problem) (k i : nat) : bool :=
  existsb (λ kp, (fst kp =? k)%nat
                 && existsb (Nat.eqb i) (constant_parameters (snd kp)))
          (parameterizations problem).

(** A solver that moves every free entry by one. *)
Definition Solve (problem : Problem) (blocks : list DataCor) : list DataCor :=
  imap (λ k d,
    let f i x := if constant problem k i then x else x + 1 in
    mkDataCor
      (Vec3 (f 0%nat (vx (rot_cor d))) (f 1%nat (vy (rot_cor d))) (f 2%nat (vz (rot_cor d))))
      (Vec3 (f 3%nat (vx (pos_cor d))) (f 4%nat (vy (pos_cor d))) (f 5%nat (vz (pos_cor d))))
      (Vec3 (f 6%nat (vx (ba_cor d))) (f 7%nat (vy (ba_cor d))) (f 8%nat (vz (ba_cor d))))
      (Vec3 (f 9%nat (vx (bg_cor d))) (f 10%nat (vy (bg_cor d))) (f 11%nat (vz (bg_cor d)))))
    blocks.

End Ref.

Definition RefExternals : Externals := {|
  Exp := Ref.Exp;
  Rigid3d := Ref.Rigid3d;
  MkRigid3d := pair;
  translation := fst;
  rotation := snd;
  rmul := Ref.rmul;
  inverse := Ref.inverse;
  rapply := Ref.rapply;
  slerp := Ref.slerp;
  norm := Ref.norm;
  CubicBSplineInterpolator := Ref.CubicBSplineInterpolator;
  NewInterpolator := pair;
  Interp := Ref.Interp;
  UpdatePose := Ref.UpdatePose;
  Solve := Ref.Solve |}.

(** ** Predicates of the specification *)

(** "For all consecutive states a, b in any deque: a.t <= b.t" *)
Definition nondecreasing (ts : list double) : Prop := Sorted Qcle ts.

(** "samples.front.t <= imus.front.t <= surfels.front.t" *)
Definition fronts_ordered (sample_states : list SampleState.t)
    (imu_states : list ImuState.t) (surfels : list Surfel.t) : Prop :=
  ∃ s i u,
    front sample_states = Some s ∧ front imu_states = Some i ∧ front surfels = Some u
    ∧ SampleState.timestamp s <= ImuState.timestamp i
    ∧ ImuState.timestamp i <= Surfel.timestamp u.

(** "samples.back.t - samples.front.t <= sliding_window_duration" *)
Definition span_fits (sample_states : list SampleState.t) (window_duration : double)
  : Prop :=
  ∃ f b,
    front sample_states = Some f ∧ back sample_states = Some b
    ∧ SampleState.timestamp b - SampleState.timestamp f <= window_duration.

(** The integrator of the specification, for three consecutive imu
    states [s2], [s1], [s]:
    [rot = rot1 * Exp ((1/2 (gyr1 + gyr) - bg) dt)] and
    [pos = 2 pos1 - pos2 + (rot2 (acc2 - ba) + grav) dt^2]. *)
Definition integrates `{E : Externals} (dt : double) (ba bg grav : Vector3d)
    (s2 s1 s : ImuState.t) : Prop :=
  ImuState.rot s
  = qmul (ImuState.rot s1)
      (Exp (vscale dt
         (vsub (vscale (1 / 2) (vadd (ImuState.gyr s1) (ImuState.gyr s))) bg)))
  ∧ ImuState.pos s
    = vadd (vsub (vscale 2 (ImuState.pos s1)) (ImuState.pos s2))
        (vscale (dt * dt)
           (vadd (qrot (ImuState.rot s2) (vsub (ImuState.acc s2) ba)) grav)).

(** An imu state carries the stamp and the readings of its sample. *)
Definition records (imu_msg : ImuData.t) (s : ImuState.t) : Prop :=
  ImuState.timestamp s = ImuData.timestamp imu_msg
  ∧ ImuState.acc s = ImuData.linear_acceleration imu_msg
  ∧ ImuState.gyr s = ImuData.angular_velocity imu_msg.

(** No correction of pose is pending: [rot_cor] and [pos_cor] of every
    sample state are zero. *)
Definition settled (sample_states : list SampleState.t) : Prop :=
  Forall (λ s, rot_cor (SampleState.data_cor s) = Zero
               ∧ pos_cor (SampleState.data_cor s) = Zero) sample_states.

(** What one pass of the Corrector does to one sample state, [s] before
    and [s'] after. *)
Definition corrected_from `{E : Externals} (s s' : SampleState.t) : Prop :=
  let d := SampleState.data_cor s in
  let d' := SampleState.data_cor s' in
  rot_cor d' = Zero ∧ pos_cor d' = Zero
  ∧ take 6 (flat d') = replicate 6 0
  ∧ SampleState.rot s' = qmul (Exp (rot_cor d)) (SampleState.rot s)
  ∧ SampleState.pos s' = vadd (pos_cor d) (SampleState.pos s)
  ∧ ba_cor d' = ba_cor d ∧ bg_cor d' = bg_cor d
  ∧ drop 6 (flat d') = drop 6 (flat d)
  ∧ SampleState.ba s' = SampleState.ba s
  ∧ SampleState.bg s' = SampleState.bg s
  ∧ SampleState.grav s' = SampleState.grav s
  ∧ SampleState.timestamp s' = SampleState.timestamp s.

(** The first two imu states and the first sample state of the
    specification, from the first two samples [m0], [m1] of the imu
    buffer. *)
Definition first_imu_state (m0 : ImuData.t) : ImuState.t :=
  ImuState.mk (ImuData.timestamp m0) Zero Identity
    (ImuData.linear_acceleration m0) (ImuData.angular_velocity m0).

Definition second_imu_state `{E : Externals} (dt : double) (m0 m1 : ImuData.t)
  : ImuState.t :=
  ImuState.mk (ImuData.timestamp m1) Zero
    (Exp (vscale dt (vscale (1 / 2)
       (vadd (ImuData.angular_velocity m0) (ImuData.angular_velocity m1)))))
    (ImuData.linear_acceleration m1) (ImuData.angular_velocity m1).

Definition first_sample_state `{E : Externals} (config : Config) (m0 : ImuData.t)
  : SampleState.t :=
  SampleState.mk (ImuData.timestamp m0) Zero Identity Zero Zero
    (vscale (- gravity_norm config) (normalized (ImuData.linear_acceleration m0)))
    DataCorZero.

(** "Quaternions are unit-norm at all observable points" *)
Definition unit_norm (q : Quaterniond) : Prop := qsquaredNorm q = 1.

(** ** What is assumed of the parameters *)

(** The exponential map sends the zero vector to the identity. *)
Definition Exp_zero `{E : Externals} : Prop := Exp Zero = Identity.

(** A B-spline is a combination of its control values: with all of them
    zero, every value it returns is zero. *)
Definition Interp_zero `{E : Externals} : Prop :=
  ∀ knots values t v,
    Forall (λ p, p = Zero) values →
    Interp (NewInterpolator knots values) t = Some v → v = Zero.

(** [Rigid3d{pos, rot}] stores its arguments, and on transforms with unit
    rotations [a * b.inverse() * b] is [a]. *)
Definition Rigid3d_laws `{E : Externals} : Prop :=
  (∀ p q, translation (MkRigid3d p q) = p ∧ rotation (MkRigid3d p q) = q)
  ∧ (∀ a b, unit_norm (rotation a) → unit_norm (rotation b) →
            rmul (rmul a (inverse b)) b = a).

(** The contract of a subset parameterization: the solver leaves the
    entries it lists as they are. *)
Definition Solve_holds_constant `{E : Externals} : Prop :=
  ∀ problem blocks k p i d d',
    (k, p) ∈ parameterizations problem →
    i ∈ constant_parameters p →
    blocks !! k = Some d →
    Solve problem blocks !! k = Some d' →
    flat d' !! i = flat d !! i.

(** ** Auxiliary definitions of the proofs *)

(** The quaternion with zero scalar part. *)
Definition pure (v : Vector3d) : Quaterniond := Quat 0 (vx v) (vy v) (vz v).

(** In [UpdateImuPoses], the indices of the first and last corrected state
    are both unset or both in range. *)
Definition corrected_range (imu_states : list ImuState.t) (first last : Z) : Prop :=
  first = (-1)%Z
  ∨ ((0 <= first < Z.of_nat (length imu_states))%Z
     ∧ (0 <= last < Z.of_nat (length imu_states))%Z).

(** A count of rounds as a scalar. *)
Definition rounds (n : nat) : double := Q2Qc (inject_Z (Z.of_nat n)).

(** ** Predicates of the added properties *)

(** The dense trajectory brackets the stamp [t]: [t] is after its first
    state and not after its last. *)
Definition brackets (imu_states : list ImuState.t) (t : double) : Prop :=
  ∃ f b,
    front imu_states = Some f ∧ back imu_states = Some b
    ∧ ImuState.timestamp f < t ∧ t <= ImuState.timestamp b.

(** [new_pt] is [pt] moved by the pose interpolated between two consecutive
    states of the dense trajectory that bracket its stamp: [slerp] for the
    rotation, a weighted mean for the position, with a weight in (0, 1]. *)
Definition undistorted_by `{E : Externals} (imu_states : list ImuState.t)
    (pt new_pt : Point.t) : Prop :=
  ∃ i a b,
    imu_states !! i = Some a ∧ imu_states !! S i = Some b
    ∧ ImuState.timestamp a < Point.time pt
    ∧ Point.time pt <= ImuState.timestamp b
    ∧ let factor := (Point.time pt - ImuState.timestamp a)
                    / (ImuState.timestamp b - ImuState.timestamp a) in
      0 < factor ∧ factor <= 1
      ∧ Point.time new_pt = Point.time pt
      ∧ Point.getVector3fMap new_pt
        = vadd (qrot (slerp (ImuState.rot a) factor (ImuState.rot b))
                     (Point.getVector3fMap pt))
               (vadd (vscale (1 - factor) (ImuState.pos a))
                     (vscale factor (ImuState.pos b))).

(** A point of a scan as [AddLidarScan] stores it: moved to the imu frame
    by [ext_lidar2imu], with its stamp. *)
Definition to_imu_frame `{E : Externals} (config : Config) (pt : Point.t) : Point.t :=
  Point.mk (rapply (ext_lidar2imu config) (Point.getVector3fMap pt)) (Point.time pt).

(** The point is kept by the ingest: its range is between [min_range] and
    [max_range] and it is outside the blind box. *)
Definition in_range `{E : Externals} (config : Config) (pt : Point.t) : bool :=
  negb ((norm (Point.getVector3fMap pt) <? min_range config)
        || (max_range config <? norm (Point.getVector3fMap pt))
        || contains (blind_bounding_box config) (Point.getVector3fMap pt)).

(** The sample window holds the stamp [t] inside: [t] is not before its
    first sample state and before its last. *)
Definition inside_window (sample_states : list SampleState.t) (t : double) : Prop :=
  ∃ f b,
    front sample_states = Some f ∧ back sample_states = Some b
    ∧ SampleState.timestamp f <= t ∧ t < SampleState.timestamp b.

(** [b] is a residual block of the lidar factor for the correspondence
    [c]: Cauchy loss of scale 0.4, and parameter blocks of sample states of
    the window. *)
Definition lidar_block_for (sample_states : list SampleState.t)
    (c : SurfelCorrespondence) (b : ResidualBlock) : Prop :=
  loss_function b = CauchyLoss (lit 0.4)
  ∧ (∃ topology l1 r1 l2 r2,
       cost_function b = SurfelMatchBinaryFactor topology c l1 r1 l2 r2)
  ∧ Forall (λ k, (k < length sample_states)%nat) (parameter_blocks b).

(** Two imu states with the same stamp and the same readings. *)
Definition same_readings (s s' : ImuState.t) : Prop :=
  ImuState.timestamp s' = ImuState.timestamp s
  ∧ ImuState.acc s' = ImuState.acc s
  ∧ ImuState.gyr s' = ImuState.gyr s.

(** The imu state [s] with the correction [(rot_cor, pos_cor)] applied as
    the first loop of [UpdateImuPoses] does. *)
Definition spline_corrected `{E : Externals} (rot_cor pos_cor : Vector3d)
    (s : ImuState.t) : ImuState.t :=
  ImuState.set_pose (vadd pos_cor (ImuState.pos s))
                    (qmul (Exp rot_cor) (ImuState.rot s)) s.

(** [GetCorr] gives a correction at the stamp of the state at position
    [k]. *)
Definition corrected_at `{E : Externals} (corrector : CubicBSplineSampleCorrector)
    (orig : list ImuState.t) (k : Z) : Prop :=
  ∃ s rot_cor pos_cor,
    orig !! Z.to_nat k = Some s
    ∧ GetCorr corrector (ImuState.timestamp s) = Some (Some (rot_cor, pos_cor)).

(** The state of the first loop of [UpdateImuPoses] before round [i], on
    the deque [orig]: the states from [i] on are untouched; a state before
    [i] carries its spline correction when [GetCorr] gave one, and then
    lies between the indices [first] and [last], which are themselves
    positions of corrected states; it is untouched when [GetCorr] gave
    none. *)
Definition corrected_upto `{E : Externals} (corrector : CubicBSplineSampleCorrector)
    (orig new : list ImuState.t) (i : nat) (first last : Z) : Prop :=
  length new = length orig
  ∧ (∀ j, (i <= j)%nat → new !! j = orig !! j)
  ∧ (∀ j s, (j < i)%nat → orig !! j = Some s →
       match GetCorr corrector (ImuState.timestamp s) with
       | Some (Some (rot_cor, pos_cor)) =>
           new !! j = Some (spline_corrected rot_cor pos_cor s)
           ∧ (0 <= first <= Z.of_nat j)%Z ∧ (Z.of_nat j <= last)%Z
       | Some None => new !! j = Some s
       | None => False
       end)
  ∧ (first = (-1)%Z
     ∨ (0 <= first <= last)%Z ∧ (last < Z.of_nat i)%Z
       ∧ corrected_at corrector orig first ∧ corrected_at corrector orig last).

(** The imu state [s_i] with the pose [old_i * old_j.inverse() * new_j],
    as the last two loops of [UpdateImuPoses] set it from the pose [old_j]
    of a neighbour before the correction and its pose [new_j] after. *)
Definition rigidly_attached `{E : Externals} (s_i old_j new_j : ImuState.t)
  : ImuState.t :=
  let pose_i_new :=
    rmul (rmul (MkRigid3d (ImuState.pos s_i) (ImuState.rot s_i))
               (inverse (MkRigid3d (ImuState.pos old_j) (ImuState.rot old_j))))
         (MkRigid3d (ImuState.pos new_j) (ImuState.rot new_j)) in
  ImuState.set_pose (translation pose_i_new) (rotation pose_i_new) s_i.

(** The sample state [s] carries the pose interpolated between two
    consecutive states of the dense trajectory that bracket its stamp. *)
Definition sample_interpolated `{E : Externals} (imu_states : list ImuState.t)
    (s : SampleState.t) : Prop :=
  ∃ i a b,
    imu_states !! i = Some a ∧ imu_states !! S i = Some b
    ∧ ImuState.timestamp a < SampleState.timestamp s
    ∧ SampleState.timestamp s <= ImuState.timestamp b
    ∧ let factor := (SampleState.timestamp s - ImuState.timestamp a)
                    / (ImuState.timestamp b - ImuState.timestamp a) in
      0 < factor ∧ factor <= 1
      ∧ SampleState.rot s = slerp (ImuState.rot a) factor (ImuState.rot b)
      ∧ SampleState.pos s
        = vadd (vscale (1 - factor) (ImuState.pos a)) (vscale factor (ImuState.pos b)).

(** The predictor can run up to [end_time]: the imu buffer holds two
    messages at least and reaches [end_time]; the stamps of the imu deque
    followed by those of the imu buffer do not decrease; and either nothing
    is initialised and the window is empty, or the window holds two imu
    states at least and a latest sample state that is not stamped before
    the first imu state. *)
Definition predictor_ready (end_time : double) (st : LidarOdometry) : Prop :=
  (2 <= length (imu_buff_ st))%nat
  ∧ (∃ m, back (imu_buff_ st) = Some m ∧ end_time <= ImuData.timestamp m)
  ∧ nondecreasing (map ImuState.timestamp (imu_states_sld_win_ st)
                   ++ map ImuData.timestamp (imu_buff_ st))
  ∧ ((init_sld_win st = false ∧ imu_states_sld_win_ st = []
      ∧ sample_states_sld_win_ st = [])
     ∨ (init_sld_win st = true ∧ (2 <= length (imu_states_sld_win_ st))%nat
        ∧ ∃ f latest,
            front (imu_states_sld_win_ st) = Some f
            ∧ back (sample_states_sld_win_ st) = Some latest
            ∧ ImuState.timestamp f <= SampleState.timestamp latest)).

(** The sample state [s] as step 3 of the predictor appends it after the
    sample state [prev], in the call with [end_time] that found [latest] as
    the latest sample state: stamped [sample_dt] after [prev] (the loop
    variable starts at [sample_states_oldtime + sample_dt] and goes on by
    [timestamp += sample_dt]) and before [end_time], with the biases and the
    gravity of [latest] and a zero correction block. *)
Definition extends_samples `{E : Externals} (config : Config) (end_time : double)
    (latest prev s : SampleState.t) : Prop :=
  SampleState.timestamp s = SampleState.timestamp prev + sample_dt config
  ∧ SampleState.timestamp s < end_time
  ∧ SampleState.ba s = SampleState.ba latest
  ∧ SampleState.bg s = SampleState.bg latest
  ∧ SampleState.grav s = SampleState.grav latest
  ∧ SampleState.data_cor s = DataCorZero.

(** [b] is the residual block of the imu factor for the three consecutive
    imu states that start at position [i]: trivial loss, and the sample
    states on the two sides of the stamp of the first of the three, found
    by [upper_bound]; when the right-hand one is the latest sample state
    the factor is [ImuFactor<1>] with [DBL_MAX] for the third stamp,
    otherwise it is [ImuFactor<0>] and takes the next sample state too. *)
Definition imu_block_at `{E : Externals} (config : Config) (weights : ImuCostWeights)
    (sample_states : list SampleState.t) (imu_states : list ImuState.t)
    (i : nat) (b : ImuResidualBlock) : Prop :=
  ∃ i1 i2 i3 sp1 sp2 sample_back,
    imu_states !! i = Some i1 ∧ imu_states !! S i = Some i2
    ∧ imu_states !! S (S i) = Some i3
    ∧ let k := upper_bound SampleState.timestamp sample_states (ImuState.timestamp i1) in
      (1 <= k)%nat
      ∧ sample_states !! (k - 1)%nat = Some sp1 ∧ sample_states !! k = Some sp2
      ∧ back sample_states = Some sample_back
      ∧ imu_loss_function b = TrivialLoss
      ∧ ((k = (length sample_states - 1)%nat
          ∧ imu_cost_function b
            = ImuFactor 1 i1 i2 i3 (SampleState.timestamp sp1) (SampleState.timestamp sp2)
                DBL_MAX weights (1 / imu_rate config) (SampleState.grav sample_back)
          ∧ imu_parameter_blocks b = [(k - 1)%nat; k])
         ∨ (∃ sp3,
              k ≠ (length sample_states - 1)%nat
              ∧ sample_states !! (k + 1)%nat = Some sp3
              ∧ imu_cost_function b
                = ImuFactor 0 i1 i2 i3 (SampleState.timestamp sp1)
                    (SampleState.timestamp sp2) (SampleState.timestamp sp3)
                    weights (1 / imu_rate config) (SampleState.grav sample_back)
              ∧ imu_parameter_blocks b = [(k - 1)%nat; k; (k + 1)%nat])).

(** The three consecutive imu states that start at position [i] lie in the
    sample window: the first is not before the first sample state, and the
    third is not after the latest. *)
Definition triple_in_window (sample_states : list SampleState.t)
    (imu_states : list ImuState.t) (i : nat) : Prop :=
  ∃ i1 i3 f b,
    imu_states !! i = Some i1 ∧ imu_states !! S (S i) = Some i3
    ∧ front sample_states = Some f ∧ back sample_states = Some b
    ∧ SampleState.timestamp f <= ImuState.timestamp i1
    ∧ ImuState.timestamp i3 <= SampleState.timestamp b.

(** ** Test data *)

Module Demo.

Definition point (t : Q) : Point.t := Point.mk (Vec3 1 0 0) (lit t).

Definition imu (t : Q) : ImuData.t :=
  ImuData.mk (lit t) Zero (Vec3 0 0 (lit 9.81)).

(** The sweep-build scenario of the specification, thinned out. *)
Definition points : list Point.t :=
  [point 0; point 0.02; point 0.05; point 0.09; point 0.11].

Definition config : Config (E := RefExternals) :=
  mkConfig RefExternals (Zero, Identity) (lit 0.5) (lit 100)
    (Box (Vec3 (- (1)) (- (1)) (- (1))) (Vec3 (- (1)) (- (1)) (- (1))))
    (lit 0.1) (lit 100) (lit 0.1) 1 (lit 9.81) 2 4.

Definition imu_state (t : Q) : ImuState.t :=
  ImuState.mk (lit t) Zero Identity (Vec3 0 0 (lit 9.81)) Zero.

Definition sample (t : Q) : SampleState.t :=
  SampleState.mk (lit t) Zero Identity Zero Zero (Vec3 0 0 (- lit 9.81)) DataCorZero.

Definition surfel (t : Q) : Surfel.t :=
  Surfel.mk (lit t) (Vec3 1 0 0) (Vec3 0 0 1) (Vec3 1 0 0) (Vec3 0 0 1) 0.

(** Buffers before head synchronisation: the imu stream starts first. *)
Definition unsynced : LidarOdometry :=
  mkLidarOdometry [imu 0; imu 10] [point 5; point 12] [] [] [] false false.

Definition synced : LidarOdometry :=
  mkLidarOdometry [imu 10] [point 12] [] [] [] false true.

(** A window whose fronts are out of order and whose span fits. *)
Definition disordered_samples : list SampleState.t := [sample 5].
Definition disordered_imus : list ImuState.t := [imu_state 3].
Definition disordered_surfels : list Surfel.t := [surfel 1].

(** Sample states every 0.1 s over two seconds. *)
Definition two_seconds : list SampleState.t :=
  map (λ k : nat, SampleState.mk (Q2Qc (inject_Z (Z.of_nat k) / 10)) Zero Identity
                    Zero Zero (Vec3 0 0 (- lit 9.81)) DataCorZero)
      (seq 0 21).

(** A scan with a point too close, a point too far and a point in the
    blind box. *)
Definition scan : list Point.t :=
  [ Point.mk (Vec3 1 0 0) 0; Point.mk (Vec3 (lit 0.1) 0 0) 0;
    Point.mk (Vec3 (lit 200) 0 0) 1; Point.mk (Vec3 (- (1)) (- (1)) (- (1))) 1;
    Point.mk (Vec3 0 2 0) 1 ].

(** A window to trim to one second. *)
Definition long_samples : list SampleState.t := [sample 0; sample 0.5; sample 1; sample 1.5].
Definition long_imus : list ImuState.t := [imu_state 0; imu_state 0.4; imu_state 0.8; imu_state 1.5].
Definition long_surfels : list Surfel.t := [surfel 0.1; surfel 0.9; surfel 1.2].

(** Sample states every 0.1 s and three correspondences, one for each
    topology of the lidar factor. *)
Definition window_samples : list SampleState.t :=
  [sample 0; sample 0.1; sample 0.2; sample 0.3; sample 0.4].
Definition corr_disjoint : SurfelCorrespondence := mkCorr (surfel 0.05) (surfel 0.25).
Definition corr_adjacent : SurfelCorrespondence := mkCorr (surfel 0.05) (surfel 0.15).
Definition corr_overlapping : SurfelCorrespondence := mkCorr (surfel 0.05) (surfel 0.07).

(** A window whose only sample state carries corrections in all four
    slots of its block. *)
Definition corrected_sample : SampleState.t :=
  SampleState.mk 0 Zero Identity Zero Zero (Vec3 0 0 (- lit 9.81))
    (mkDataCor (Vec3 1 0 0) (Vec3 0 1 0) (Vec3 1 0 0) (Vec3 0 0 1)).

Definition corrected : LidarOdometry :=
  mkLidarOdometry [] [] [] [corrected_sample] [] true true.

(** A window before a solve: no correction pending. *)
Definition presolve : LidarOdometry :=
  mkLidarOdometry [] [] [imu_state 0; imu_state 0.01] [sample 0; sample 0.1] []
    true true.

(** A window with no pending correction: six sample states, and five imu
    states of which the first and the last are outside the support of the
    reference spline. *)
Definition turned (t : Q) (x : Q) : ImuState.t :=
  ImuState.mk (lit t) (Vec3 (lit x) 0 1) (Quat (lit (3 # 5)) (lit (4 # 5)) 0 0)
    (Vec3 0 0 (lit 9.81)) Zero.

Definition settled_samples : list SampleState.t :=
  [sample 0; sample 0.1; sample 0.2; sample 0.3; sample 0.4; sample 0.5].

Definition settled_imus : list ImuState.t :=
  [turned 0.05 1; turned 0.15 2; imu_state 0.25; turned 0.35 4; turned 0.45 5].

(** The two-sample initialisation of the specification, with two more
    samples for the integrator: a rig at rest, sampled at 100 Hz. *)
Definition at_rest : LidarOdometry :=
  mkLidarOdometry [imu 0; imu 0.01; imu 0.02; imu 0.03] [] [] [] [] false false.

Definition initialised : LidarOdometry :=
  mkLidarOdometry [imu 0.02; imu 0.03] [] [imu_state 0; imu_state 0.01] [sample 0] []
    true false.

(** A first scan: twelve imu samples at 100 Hz, five points, and sample
    states every 0.03 s. *)
Definition config_dense : Config (E := RefExternals) :=
  mkConfig RefExternals (Zero, Identity) (lit 0.5) (lit 100)
    (Box (Vec3 (- (1)) (- (1)) (- (1))) (Vec3 (- (1)) (- (1)) (- (1))))
    (lit 0.1) (lit 100) (lit 0.03) 1 (lit 9.81) 2 4.

Definition scanning : LidarOdometry :=
  mkLidarOdometry
    [imu 0; imu 0.01; imu 0.02; imu 0.03; imu 0.04; imu 0.05; imu 0.06; imu 0.07;
     imu 0.08; imu 0.09; imu 0.10; imu 0.11]
    points [] [] [] false true.

(** The same window after one pass with the reference solver. *)
Definition postsolve : LidarOdometry :=
  default presolve (SolveAndCorrect (E := RefExternals) EmptyProblem presolve).

End Demo.

(** ** Test data of the added properties *)

Module Cases.

(** A sweep inside the trajectory [Demo.settled_imus], which runs from 0.05
    to 0.45; its last point is stamped as the last imu state. *)
Definition sweep : list Point.t := [Demo.point 0.1; Demo.point 0.3; Demo.point 0.45].

(** Surfels inside the same trajectory. *)
Definition surfels : list Surfel.t := [Demo.surfel 0.1; Demo.surfel 0.45].

(** Six sample states, every 0.1 s from 0, each with the same pending
    correction of pose. *)
Definition pending (t : Q) : SampleState.t :=
  SampleState.mk (lit t) Zero Identity Zero Zero (Vec3 0 0 (- lit 9.81))
    (mkDataCor (Vec3 0 0 (lit 4)) (Vec3 1 2 0) Zero Zero).

Definition pending_samples : list SampleState.t :=
  [pending 0; pending 0.1; pending 0.2; pending 0.3; pending 0.4; pending 0.5].

(** [Demo.settled_imus] after [UpdateImuPoses] with these corrections. *)
Definition repositioned_imus : list ImuState.t :=
  default [] (UpdateImuPoses (E := RefExternals) pending_samples Demo.settled_imus).

(** [Demo.scanning] after the predictor has run up to 0.1. *)
Definition predicted : LidarOdometry :=
  default Demo.scanning
    (PredictImuStatesAndSampleStates (E := RefExternals) Demo.config_dense (lit 0.1)
       Demo.scanning).

(** Points that cover a sweep of 0.1 s, and a single imu message after its
    end. *)
Definition single_imu : LidarOdometry :=
  mkLidarOdometry [Demo.imu 0.2] [Demo.point 0; Demo.point 0.11] [] [] [] false true.

(** A dense trajectory that starts before the window [Demo.window_samples]
    (sample states every 0.1 s from 0 to 0.4) and ends after it. *)
Definition crossing_imus : list ImuState.t :=
  [Demo.imu_state (-0.05); Demo.imu_state 0; Demo.imu_state 0.12; Demo.imu_state 0.25;
   Demo.imu_state 0.33; Demo.imu_state 0.38; Demo.imu_state 0.4; Demo.imu_state 0.45].

Definition weights : ImuCostWeights := mkImuCostWeights 1 1 1 1.

Definition imu_blocks : list ImuResidualBlock :=
  default [] (BuildImuResiduals (E := RefExternals) Demo.config weights
                Demo.window_samples crossing_imus).

(** A window with the same correction pending on every sample state, and
    what one and two passes of the Corrector make of it. *)
Definition pending_window : LidarOdometry :=
  mkLidarOdometry [] [] Demo.settled_imus pending_samples [] true true.

Definition corrected_once : LidarOdometry :=
  default pending_window (Corrector (E := RefExternals) pending_window).

Definition corrected_twice : LidarOdometry :=
  default corrected_once (Corrector (E := RefExternals) corrected_once).

(** A synchronised estimator, not yet initialised, whose oldest point is
    stamped as its oldest imu message. *)
Definition aligned : LidarOdometry :=
  mkLidarOdometry
    [Demo.imu 0; Demo.imu 0.01; Demo.imu 0.02; Demo.imu 0.03; Demo.imu 0.04; Demo.imu 0.05;
     Demo.imu 0.06; Demo.imu 0.07; Demo.imu 0.08; Demo.imu 0.09; Demo.imu 0.10;
     Demo.imu 0.11; Demo.imu 0.12; Demo.imu 0.13]
    [Demo.point 0; Demo.point 0.02; Demo.point 0.05] [] [] [] false true.

(** The next scan. *)
Definition next_scan : list Point.t :=
  [Demo.point 0.09; Demo.point 0.11; Demo.point 0.13].

(** The same estimator with the oldest point removed: its points start
    after the oldest imu message. *)
Definition staggered : LidarOdometry :=
  mkLidarOdometry (imu_buff_ aligned) [Demo.point 0.02; Demo.point 0.05] [] [] []
    false true.

(** An estimator that has not seen an imu message yet. *)
Definition waiting : LidarOdometry :=
  mkLidarOdometry [] [Demo.point 0] [] [] [] false false.

Definition waited : LidarOdometry :=
  mkLidarOdometry [] [Demo.point 0; Demo.point 0.09; Demo.point 0.11; Demo.point 0.13]
    [] [] [] false false.

(** The trajectory [Demo.settled_imus] with the rotation (0.6, 0.8, 0, 0)
    as doubles hold it: 0.6 and 0.8 are no doubles, and the squares of the
    doubles nearest to them do not add up to 1. *)
Definition double_0_6 : double := Q2Qc (5404319552844595 # 9007199254740992).
Definition double_0_8 : double := Q2Qc (3602879701896397 # 4503599627370496).

Definition rounded (t : Q) (x : Q) : ImuState.t :=
  ImuState.mk (lit t) (Vec3 (lit x) 0 1) (Quat double_0_6 double_0_8 0 0)
    (Vec3 0 0 (lit 9.81)) Zero.

Definition rounded_imus : list ImuState.t :=
  [rounded 0.05 1; rounded 0.15 2; Demo.imu_state 0.25; rounded 0.35 4; rounded 0.45 5].

End Cases.

(** * Properties *)

(** ** Comparisons *)

Lemma Qcltb_true x y : (x <? y) = true ↔ x < y.
Proof. unfold Qcltb. apply bool_decide_eq_true. Qed.

Lemma Qcltb_false x y : (x <? y) = false ↔ y <= x.
Proof.
  unfold Qcltb. rewrite bool_decide_eq_false. split.
  - apply Qcnot_lt_le.
  - intros H1 H2. exact (Qcle_not_lt _ _ H1 H2).
Qed.

Lemma Qceqb_true x y : (x =? y) = true ↔ x = y.
Proof. unfold Qceqb. apply bool_decide_eq_true. Qed.

Lemma Qclt_irrefl (x : double) : ¬ x < x.
Proof. intros H. by apply (Qclt_not_eq _ _ H). Qed.

(** ** Binary search

    The search needs at most [len] rounds, so the bound [length l] of
    [lower_bound] and [upper_bound] is never reached; on a deque that
    [right] splits at position [k], it returns [k]. *)

Lemma bound_loop_partition {A} (right : A → bool) (l : list A) (k : nat) :
  (∀ j x, l !! j = Some x → right x = true ↔ (j < k)%nat) →
  ∀ fuel first len,
    (len <= fuel)%nat →
    (first <= k <= first + len)%nat →
    (first + len <= length l)%nat →
    bound_loop fuel right l first len = k.
Proof.
  intros Hsplit. induction fuel as [|fuel IH]; intros first len Hfuel Hk Hlen.
  - simpl. lia.
  - cbn [bound_loop]. destruct len as [|len']; [lia|].
    cbv zeta. assert (Nat.div2 (S len') < S len')%nat as Hhalf
      by (apply Nat.lt_div2; lia).
    generalize dependent (Nat.div2 (S len')). intros half Hhalf.
    destruct (lookup_lt_is_Some_2 l (first + half)) as [x Hx]; [lia|].
    rewrite Hx. destruct (right x) eqn:Hr.
    + apply (proj1 (Hsplit _ _ Hx)) in Hr. apply IH; lia.
    + assert (¬ (first + half < k)%nat) as Hge.
      { intros Hlt. apply (proj2 (Hsplit _ _ Hx)) in Hlt. congruence. }
      apply IH; lia.
Qed.

Lemma upper_bound_spec {A} (key : A → double) (l : list A) (value : double) (k : nat) :
  (k <= length l)%nat →
  (∀ j x, l !! j = Some x → key x <= value ↔ (j < k)%nat) →
  upper_bound key l value = k.
Proof.
  intros Hk Hsplit. unfold upper_bound.
  apply bound_loop_partition; [|lia..].
  intros j x Hx. rewrite <- (Hsplit j x Hx), negb_true_iff. apply Qcltb_false.
Qed.

Lemma lower_bound_spec {A} (key : A → double) (l : list A) (value : double) (k : nat) :
  (k <= length l)%nat →
  (∀ j x, l !! j = Some x → key x < value ↔ (j < k)%nat) →
  lower_bound key l value = k.
Proof.
  intros Hk Hsplit. unfold lower_bound.
  apply bound_loop_partition; [|lia..].
  intros j x Hx. rewrite <- (Hsplit j x Hx). apply Qcltb_true.
Qed.
(** ** Sweep builder *)

Lemma nondecreasing_strong ts :
  nondecreasing ts → StronglySorted Qcle ts.
Proof.
  apply Sorted_StronglySorted. intros x y z. apply Qcle_trans.
Qed.

Lemma BuildSweep_loop_app buf endt acc :
  BuildSweep_loop buf endt acc =
  (acc ++ fst (BuildSweep_loop buf endt []), snd (BuildSweep_loop buf endt [])).
Proof.
  revert acc. induction buf as [|p rest IH]; intros acc; simpl.
  - by rewrite app_nil_r.
  - destruct (Point.time p <? endt).
    + rewrite IH. rewrite (IH (push_back [] p)). unfold push_back. simpl.
      by rewrite <- app_assoc.
    + by rewrite app_nil_r.
Qed.

Lemma filter_all_late (buf : list Point.t) endt :
  Forall (λ q, endt <= Point.time q) buf →
  filter (λ p, Point.time p < endt) buf = []
  ∧ filter (λ p, endt <= Point.time p) buf = buf.
Proof.
  induction 1 as [|q rest Hq _ [IH1 IH2]]; [done|].
  rewrite filter_cons_False by (intros HH; exact (Qcle_not_lt _ _ Hq HH)).
  rewrite filter_cons_True by done.
  by rewrite IH1, IH2.
Qed.

Lemma BuildSweep_loop_sorted buf endt :
  nondecreasing (map Point.time buf) →
  BuildSweep_loop buf endt [] =
  (filter (λ p, Point.time p < endt) buf,
   filter (λ p, endt <= Point.time p) buf).
Proof.
  intros Hs. apply nondecreasing_strong in Hs.
  induction buf as [|p rest IH]; [done|].
  simpl in Hs. apply StronglySorted_inv in Hs as [Hrest Hp].
  simpl. destruct (Point.time p <? endt) eqn:E.
  - apply Qcltb_true in E.
    rewrite BuildSweep_loop_app, (IH Hrest). simpl.
    rewrite filter_cons_True by done.
    rewrite filter_cons_False by (intros HH; exact (Qcle_not_lt _ _ HH E)).
    done.
  - apply Qcltb_false in E.
    rewrite filter_cons_False by (intros HH; exact (Qcle_not_lt _ _ E HH)).
    rewrite filter_cons_True by done.
    destruct (filter_all_late rest endt) as [H1 H2].
    { rewrite Forall_map in Hp. eapply Forall_impl; [|exact Hp].
      intros q Hq. simpl in Hq. exact (Qcle_trans _ _ _ E Hq). }
    by rewrite H1, H2.
Qed.

Lemma BuildSweep_loop_split buf endt :
  fst (BuildSweep_loop buf endt []) ++ snd (BuildSweep_loop buf endt []) = buf.
Proof.
  induction buf as [|p rest IH]; [done|]. simpl.
  destruct (Point.time p <? endt); [|done].
  rewrite BuildSweep_loop_app. simpl. by rewrite IH.
Qed.

(** C7.  On a non-empty buffer whose stamps do not decrease, [BuildSweep]
    returns, as the sweep, the points stamped before [sweep_endtime], in
    the order of the buffer, and leaves in the buffer the points stamped at
    or after it; nothing is lost or reordered.  This holds for every
    [sweep_endtime], so also for the stamp of the latest sample state that
    [AddLidarScan] passes (lemma [AddLidarScan_sweep_endtime]). *)
Theorem BuildSweep_drains (points_buff : list Point.t) (sweep_endtime : double) :
  points_buff ≠ [] →
  nondecreasing (map Point.time points_buff) →
  ∃ sweep rest,
    BuildSweep points_buff sweep_endtime = Some (sweep, rest)
    ∧ sweep = filter (λ p, Point.time p < sweep_endtime) points_buff
    ∧ rest = filter (λ p, sweep_endtime <= Point.time p) points_buff
    ∧ points_buff = sweep ++ rest.
Proof.
  intros Hne Hs.
  exists (fst (BuildSweep_loop points_buff sweep_endtime [])),
         (snd (BuildSweep_loop points_buff sweep_endtime [])).
  split.
  { unfold BuildSweep. destruct points_buff as [|p l]; [done|].
    remember (p :: l) as buf eqn:Hbuf. rewrite Hbuf at 1. simpl.
    by destruct (BuildSweep_loop buf sweep_endtime []). }
  rewrite (BuildSweep_loop_sorted _ _ Hs). simpl. repeat split.
  rewrite <- (BuildSweep_loop_split points_buff sweep_endtime) at 1.
  by rewrite (BuildSweep_loop_sorted _ _ Hs).
Qed.

Lemma BuildSweep_drains_witness :
  ∃ sweep rest,
    BuildSweep Demo.points (lit 0.1) = Some (sweep, rest)
    ∧ sweep = filter (λ p, Point.time p < lit 0.1) Demo.points
    ∧ rest = filter (λ p, lit 0.1 <= Point.time p) Demo.points
    ∧ Demo.points = sweep ++ rest.
Proof.
  apply BuildSweep_drains.
  - discriminate.
  - repeat constructor; vm_compute; discriminate.
Defined.

(** With the end of the sweep at 0.1, the points before 0.1 enter the
    sweep and the point at 0.11 stays. *)
Example BuildSweep_demo :
  BuildSweep Demo.points (lit 0.1)
  = Some ([Demo.point 0; Demo.point 0.02; Demo.point 0.05; Demo.point 0.09],
          [Demo.point 0.11]).
Proof. vm_compute. reflexivity. Qed.

(** ** Ingest *)

(** C10.  [AddImuData] is total: it returns the state with the sample
    appended at the back of the imu buffer and everything else unchanged,
    whatever the stamp of the sample.  The point path is different: a
    point stamped before the back of the point buffer aborts the ingest. *)
Theorem AddImuData_appends `{E : Externals} (st : LidarOdometry) (msg : ImuData.t) :
  imu_buff_ (AddImuData st msg) = imu_buff_ st ++ [msg]
  ∧ points_buff_ (AddImuData st msg) = points_buff_ st
  ∧ imu_states_sld_win_ (AddImuData st msg) = imu_states_sld_win_ st
  ∧ sample_states_sld_win_ (AddImuData st msg) = sample_states_sld_win_ st
  ∧ surfels_sld_win_ (AddImuData st msg) = surfels_sld_win_ st
  ∧ init_sld_win (AddImuData st msg) = init_sld_win st
  ∧ sync_done (AddImuData st msg) = sync_done st
  ∧ ∀ (config : Config) (pt b : Point.t) (scan : list Point.t),
      back (points_buff_ st) = Some b →
      Point.time pt < Point.time b →
      AddLidarScan_ingest config (pt :: scan) (points_buff_ st) = None.
Proof.
  repeat split.
  intros config pt b scan Hb Hlt. simpl. rewrite Hb.
  assert ((Point.time b <=? Point.time pt) = false) as ->; [|done].
  apply bool_decide_eq_false. intros Hle. exact (Qcle_not_lt _ _ Hle Hlt).
Qed.

Lemma AddImuData_appends_witness :
  imu_buff_ (AddImuData Demo.unsynced (Demo.imu 3))
  = [Demo.imu 0; Demo.imu 10; Demo.imu 3]
  ∧ AddLidarScan_ingest Demo.config [Demo.point 3] (points_buff_ Demo.unsynced) = None.
Proof.
  destruct (AddImuData_appends (E := RefExternals) Demo.unsynced (Demo.imu 3))
    as (Himu & _ & _ & _ & _ & _ & _ & Hpoints).
  split.
  - exact Himu.
  - apply (Hpoints Demo.config (Demo.point 3) (Demo.point 12) []).
    + reflexivity.
    + reflexivity.
Defined.

(** Of the five points of the scan, the first and the last pass the range
    and blind-box filter. *)
Example AddLidarScan_ingest_demo :
  AddLidarScan_ingest Demo.config Demo.scan []
  = Some [Point.mk (Vec3 1 0 0) 0; Point.mk (Vec3 0 2 0) 1].
Proof. vm_compute. repeat f_equal; apply Qc_is_canon; reflexivity. Qed.

(** ** Loops that pop the front *)

Lemma pop_front_before_cases {A} (key : A → double) (t : double) (d : list A) :
  match pop_front_before key t d with
  | None => Forall (λ x, key x < t) d
  | Some kept =>
      ∃ dropped x,
        d = dropped ++ kept ∧ Forall (λ x, key x < t) dropped
        ∧ front kept = Some x ∧ t <= key x
  end.
Proof.
  induction d as [|x d IH]; simpl; [constructor|].
  destruct (key x <? t) eqn:Hx.
  - apply Qcltb_true in Hx.
    destruct (pop_front_before key t d) as [kept|].
    + destruct IH as (dropped & y & -> & Hd & Hf & Hy).
      exists (x :: dropped), y. repeat split; auto.
    + by constructor.
  - apply Qcltb_false in Hx. exists [], x. repeat split; auto.
Qed.

Lemma pop_front_before_covered {A} (key : A → double) (t : double) (d : list A) x :
  back d = Some x → t <= key x → is_Some (pop_front_before key t d).
Proof.
  intros Hb Hx. pose proof (pop_front_before_cases key t d) as Hc.
  destruct (pop_front_before key t d); [done|]. exfalso.
  apply last_Some in Hb as [d' ->].
  apply Forall_app in Hc as [_ Hc]. apply Forall_inv in Hc.
  exact (Qcle_not_lt _ _ Hx Hc).
Qed.

(** ** Head synchronisation *)

Lemma SyncHeadingMsgs_latched (st : LidarOdometry) :
  sync_done st = true → SyncHeadingMsgs st = Some (true, st).
Proof. intros H. unfold SyncHeadingMsgs. by rewrite H. Qed.

(** C3, as the code has it.  With both buffers non-empty and the back of
    the imu buffer not before the oldest point, the head synchronisation
    first drops the imu samples stamped before the oldest point, then the
    points stamped before the imu sample that is now in front.  If every
    point is dropped the check after [pop_front] aborts; otherwise the call
    returns true with the imu front not after the point front (the two
    stamps need not be equal) and the flag latched, and a later call
    returns true without touching the buffers. *)
Theorem SyncHeadingMsgs_fronts (st : LidarOdometry)
    (imu_back : ImuData.t) (point_front : Point.t) :
  sync_done st = false →
  back (imu_buff_ st) = Some imu_back →
  front (points_buff_ st) = Some point_front →
  Point.time point_front <= ImuData.timestamp imu_back →
  ∃ imu_dropped imu_buff imu_front,
    imu_buff_ st = imu_dropped ++ imu_buff
    ∧ Forall (λ m, ImuData.timestamp m < Point.time point_front) imu_dropped
    ∧ front imu_buff = Some imu_front
    ∧ Point.time point_front <= ImuData.timestamp imu_front
    ∧ ((Forall (λ p, Point.time p < ImuData.timestamp imu_front) (points_buff_ st)
        ∧ SyncHeadingMsgs st = None)
       ∨ ∃ points_dropped points_buff point_front',
           points_buff_ st = points_dropped ++ points_buff
           ∧ Forall (λ p, Point.time p < ImuData.timestamp imu_front) points_dropped
           ∧ front points_buff = Some point_front'
           ∧ ImuData.timestamp imu_front <= Point.time point_front'
           ∧ SyncHeadingMsgs st = Some (true, set_buffers st imu_buff points_buff true)
           ∧ sync_done (set_buffers st imu_buff points_buff true) = true
           ∧ SyncHeadingMsgs (set_buffers st imu_buff points_buff true)
             = Some (true, set_buffers st imu_buff points_buff true)).
Proof.
  intros Hdone Hback Hfront Hcover.
  destruct (pop_front_before_covered ImuData.timestamp (Point.time point_front)
              (imu_buff_ st) imu_back Hback Hcover) as [imu_buff Himu].
  pose proof (pop_front_before_cases ImuData.timestamp (Point.time point_front)
                (imu_buff_ st)) as Hc.
  rewrite Himu in Hc. destruct Hc as (imu_dropped & imu_front & Hsplit & Hdrop & Hf & Hle).
  exists imu_dropped, imu_buff, imu_front. repeat split; auto.
  assert (SyncHeadingMsgs st =
          points_buff ← pop_front_before Point.time (ImuData.timestamp imu_front)
                          (points_buff_ st);
          Some (true, set_buffers st imu_buff points_buff true)) as Heq.
  { unfold SyncHeadingMsgs. rewrite Hdone, Hback, Hfront.
    assert ((ImuData.timestamp imu_back <? Point.time point_front) = false) as ->
      by by apply Qcltb_false.
    rewrite Himu. simpl. rewrite Hf. done. }
  pose proof (pop_front_before_cases Point.time (ImuData.timestamp imu_front)
                (points_buff_ st)) as Hp.
  destruct (pop_front_before Point.time (ImuData.timestamp imu_front) (points_buff_ st))
    as [points_buff|].
  - right. destruct Hp as (points_dropped & p & Hps & Hpd & Hpf & Hple).
    exists points_dropped, points_buff, p. repeat split; auto.
  - left. split; auto.
Qed.

Lemma SyncHeadingMsgs_fronts_witness :
  ∃ imu_dropped imu_buff imu_front,
    imu_buff_ Demo.unsynced = imu_dropped ++ imu_buff
    ∧ Forall (λ m, ImuData.timestamp m < Point.time (Demo.point 5)) imu_dropped
    ∧ front imu_buff = Some imu_front
    ∧ Point.time (Demo.point 5) <= ImuData.timestamp imu_front
    ∧ ((Forall (λ p, Point.time p < ImuData.timestamp imu_front)
          (points_buff_ Demo.unsynced)
        ∧ SyncHeadingMsgs Demo.unsynced = None)
       ∨ ∃ points_dropped points_buff point_front',
           points_buff_ Demo.unsynced = points_dropped ++ points_buff
           ∧ Forall (λ p, Point.time p < ImuData.timestamp imu_front) points_dropped
           ∧ front points_buff = Some point_front'
           ∧ ImuData.timestamp imu_front <= Point.time point_front'
           ∧ SyncHeadingMsgs Demo.unsynced
             = Some (true, set_buffers Demo.unsynced imu_buff points_buff true)
           ∧ sync_done (set_buffers Demo.unsynced imu_buff points_buff true) = true
           ∧ SyncHeadingMsgs (set_buffers Demo.unsynced imu_buff points_buff true)
             = Some (true, set_buffers Demo.unsynced imu_buff points_buff true)).
Proof.
  apply (SyncHeadingMsgs_fronts Demo.unsynced (Demo.imu 10) (Demo.point 5)).
  - reflexivity.
  - reflexivity.
  - reflexivity.
  - vm_compute. discriminate.
Defined.

(** The claim as stated fails: the buffers satisfy its hypotheses, the call
    returns true, and the fronts are stamped 10 and 12. *)
Lemma SyncHeadingMsgs_fronts_differ :
  imu_buff_ Demo.unsynced ≠ [] ∧ points_buff_ Demo.unsynced ≠ []
  ∧ nondecreasing (map ImuData.timestamp (imu_buff_ Demo.unsynced))
  ∧ nondecreasing (map Point.time (points_buff_ Demo.unsynced))
  ∧ back (imu_buff_ Demo.unsynced) = Some (Demo.imu 10)
  ∧ front (points_buff_ Demo.unsynced) = Some (Demo.point 5)
  ∧ Point.time (Demo.point 5) <= ImuData.timestamp (Demo.imu 10)
  ∧ SyncHeadingMsgs Demo.unsynced = Some (true, Demo.synced)
  ∧ front (imu_buff_ Demo.synced) = Some (Demo.imu 10)
  ∧ front (points_buff_ Demo.synced) = Some (Demo.point 12)
  ∧ ImuData.timestamp (Demo.imu 10) ≠ Point.time (Demo.point 12).
Proof.
  split; [discriminate|]. split; [discriminate|].
  split; [repeat constructor; vm_compute; discriminate|].
  split; [repeat constructor; vm_compute; discriminate|].
  split; [reflexivity|]. split; [reflexivity|].
  split; [vm_compute; discriminate|].
  split; [reflexivity|]. split; [reflexivity|]. split; [reflexivity|].
  intros H. apply (f_equal this) in H. vm_compute in H. discriminate.
Qed.

(** ** Window trimmer *)

Lemma ShrinkToFit_samples_span window_duration sample_states kept :
  ShrinkToFit_samples window_duration sample_states = Some kept →
  span_fits kept window_duration.
Proof.
  induction sample_states as [|f rest IH]; [done|].
  cbn [ShrinkToFit_samples].
  destruct (back (f :: rest)) as [b|] eqn:Hb; [|done]. cbn [mbind option_bind].
  destruct (window_duration <? SampleState.timestamp b - SampleState.timestamp f) eqn:Hspan.
  - exact IH.
  - intros [= <-]. apply Qcltb_false in Hspan. by exists f, b.
Qed.

Lemma ShrinkToFit_untouched sample_states imu_states surfels window_duration f b :
  front sample_states = Some f → back sample_states = Some b →
  SampleState.timestamp b - SampleState.timestamp f <= window_duration →
  ShrinkToFit sample_states imu_states surfels window_duration
  = Some (sample_states, imu_states, surfels).
Proof.
  intros Hf Hb Hspan. unfold ShrinkToFit. rewrite Hf, Hb.
  assert ((SampleState.timestamp b - SampleState.timestamp f <=? window_duration) = true)
    as -> by by apply bool_decide_eq_true.
  done.
Qed.

(** C2, as the code has it.  Whenever [ShrinkToFit] returns on a window
    with a non-empty sample deque, the span of the sample deque is at most
    [window_duration]; and the fronts are ordered, samples then imu states
    then surfels, provided they were ordered on entry or the span exceeded
    [window_duration] on entry (when the span already fits, the call
    returns at once and trims nothing). *)
Theorem ShrinkToFit_ordering (sample_states : list SampleState.t)
    (imu_states : list ImuState.t) (surfels : list Surfel.t)
    (window_duration : double)
    (sample_states' : list SampleState.t) (imu_states' : list ImuState.t)
    (surfels' : list Surfel.t) :
  sample_states ≠ [] →
  ShrinkToFit sample_states imu_states surfels window_duration
  = Some (sample_states', imu_states', surfels') →
  span_fits sample_states' window_duration
  ∧ (fronts_ordered sample_states imu_states surfels
     ∨ ¬ span_fits sample_states window_duration →
     fronts_ordered sample_states' imu_states' surfels').
Proof.
  intros Hne. unfold ShrinkToFit.
  destruct (front sample_states) as [f|] eqn:Hf; [|by destruct sample_states].
  destruct (back sample_states) as [b|] eqn:Hb;
    [|apply last_None in Hb; congruence].
  destruct (SampleState.timestamp b - SampleState.timestamp f <=? window_duration) eqn:Hspan.
  - intros [= <- <- <-]. apply bool_decide_eq_true in Hspan.
    assert (span_fits sample_states window_duration) as Hfits by by exists f, b.
    split; [done|]. by intros [Hpre|Hpre].
  - destruct (ShrinkToFit_samples window_duration sample_states) as [kept|] eqn:Hs; [|done].
    cbn [mbind option_bind].
    destruct (front kept) as [sf|] eqn:Hsf; [|done]. cbn [mbind option_bind].
    pose proof (pop_front_before_cases ImuState.timestamp (SampleState.timestamp sf)
                  imu_states) as Hi.
    destruct (pop_front_before ImuState.timestamp _ imu_states) as [imus|]; [|done].
    cbn [mbind option_bind].
    destruct Hi as (_ & i & _ & _ & Hif & Hile). rewrite Hif. cbn [mbind option_bind].
    pose proof (pop_front_before_cases Surfel.timestamp (ImuState.timestamp i)
                  surfels) as Hu.
    destruct (pop_front_before Surfel.timestamp _ surfels) as [sus|]; [|done].
    cbn [mbind option_bind].
    destruct Hu as (_ & u & _ & _ & Huf & Hule).
    intros [= <- <- <-]. split.
    + by apply (ShrinkToFit_samples_span _ sample_states).
    + intros _. by exists sf, i, u.
Qed.

Lemma ShrinkToFit_ordering_witness :
  span_fits [Demo.sample 0.5; Demo.sample 1; Demo.sample 1.5] 1
  ∧ fronts_ordered [Demo.sample 0.5; Demo.sample 1; Demo.sample 1.5]
                   [Demo.imu_state 0.8; Demo.imu_state 1.5]
                   [Demo.surfel 0.9; Demo.surfel 1.2].
Proof.
  destruct (ShrinkToFit_ordering Demo.long_samples Demo.long_imus Demo.long_surfels 1
              [Demo.sample 0.5; Demo.sample 1; Demo.sample 1.5]
              [Demo.imu_state 0.8; Demo.imu_state 1.5]
              [Demo.surfel 0.9; Demo.surfel 1.2]) as [Hspan Hfronts].
  - discriminate.
  - reflexivity.
  - split; [exact Hspan|]. apply Hfronts.
    right. intros (f & b & [= <-] & [= <-] & Hfits).
    vm_compute in Hfits. by apply Hfits.
Defined.

(** The claim as stated fails on the early return: the sample deque is
    non-empty, every deque is non-decreasing, the span fits, so
    [ShrinkToFit] returns the window as it is, with the sample front after
    the imu front. *)
Lemma ShrinkToFit_early_return_keeps_disorder :
  Demo.disordered_samples ≠ []
  ∧ nondecreasing (map SampleState.timestamp Demo.disordered_samples)
  ∧ nondecreasing (map ImuState.timestamp Demo.disordered_imus)
  ∧ nondecreasing (map Surfel.timestamp Demo.disordered_surfels)
  ∧ ShrinkToFit Demo.disordered_samples Demo.disordered_imus Demo.disordered_surfels 1
    = Some (Demo.disordered_samples, Demo.disordered_imus, Demo.disordered_surfels)
  ∧ ¬ fronts_ordered Demo.disordered_samples Demo.disordered_imus Demo.disordered_surfels.
Proof.
  split; [discriminate|].
  split; [repeat constructor|]. split; [repeat constructor|].
  split; [repeat constructor|]. split; [reflexivity|].
  intros (s & i & u & [= <-] & [= <-] & [= <-] & Hsi & _).
  vm_compute in Hsi. by apply Hsi.
Qed.

(** The window-trim scenario of the specification: after two seconds of
    sample states every 0.1 s, a window of one second keeps the eleven
    states from 1.0 to 2.0. *)
Example ShrinkToFit_demo :
  ∃ kept f b,
    ShrinkToFit Demo.two_seconds [Demo.imu_state 0; Demo.imu_state 1; Demo.imu_state 2]
      [Demo.surfel 0.5; Demo.surfel 1.5] 1
    = Some (kept, [Demo.imu_state 1; Demo.imu_state 2], [Demo.surfel 1.5])
    ∧ length kept = 11%nat
    ∧ front kept = Some f ∧ back kept = Some b
    ∧ SampleState.timestamp f = SampleState.timestamp b - 1.
Proof.
  eexists _, _, _. split; [vm_compute; reflexivity|].
  split; [reflexivity|]. split; [reflexivity|]. split; [reflexivity|].
  apply Qc_is_canon. reflexivity.
Qed.

(** ** Residual assembly *)

(** C4.  For a correspondence with [s1] stamped before [s2] whose two
    upper bounds [i1], [i2] on the sample deque are neither its begin nor
    its end, the loop body of [BuildLidarResiduals] adds exactly one
    residual block, with Cauchy loss of scale 0.4, whose factor and
    parameter blocks are chosen by comparing the stamps of [R1] (at [i1])
    and [L2] (at [i2 - 1]): four blocks [L1, R1, L2, R2] when [R1] is
    earlier, three blocks [L1, R1, R2] when they are equal, two blocks
    [L1, R1] when [R1] is later. *)
Theorem BuildLidarResiduals_topology (sample_states : list SampleState.t)
    (surfel_corr : SurfelCorrespondence) (problem : Problem) (residual_ids : list nat)
    (i1 i2 : nat) (L1 R1 L2 R2 : SampleState.t) :
  Surfel.timestamp (s1 surfel_corr) < Surfel.timestamp (s2 surfel_corr) →
  upper_bound SampleState.timestamp sample_states (Surfel.timestamp (s1 surfel_corr)) = i1 →
  upper_bound SampleState.timestamp sample_states (Surfel.timestamp (s2 surfel_corr)) = i2 →
  (0 < i1 < length sample_states)%nat →
  (0 < i2 < length sample_states)%nat →
  sample_states !! (i1 - 1)%nat = Some L1 →
  sample_states !! i1 = Some R1 →
  sample_states !! (i2 - 1)%nat = Some L2 →
  sample_states !! i2 = Some R2 →
  ∃ topology blocks,
    BuildLidarResiduals_body sample_states surfel_corr problem residual_ids
    = Some (mkProblem
              (residual_blocks problem ++
               [mkResidualBlock
                  (SurfelMatchBinaryFactor topology surfel_corr (i1 - 1) i1 (i2 - 1) i2)
                  (CauchyLoss (lit 0.4)) blocks])
              (parameterizations problem),
            residual_ids ++ [length (residual_blocks problem)])
    ∧ (SampleState.timestamp R1 < SampleState.timestamp L2 →
       topology = 0%nat ∧ blocks = [(i1 - 1)%nat; i1; (i2 - 1)%nat; i2])
    ∧ (SampleState.timestamp R1 = SampleState.timestamp L2 →
       topology = 1%nat ∧ blocks = [(i1 - 1)%nat; i1; i2])
    ∧ (SampleState.timestamp L2 < SampleState.timestamp R1 →
       topology = 2%nat ∧ blocks = [(i1 - 1)%nat; i1]).
Proof.
  intros Hlt Hi1 Hi2 [Hb1 He1] [Hb2 He2] HL1 HR1 HL2 HR2.
  unfold BuildLidarResiduals_body. cbv zeta.
  apply Qcltb_true in Hlt. rewrite Hlt, Hi1, Hi2.
  rewrite !decide_False by lia.
  rewrite HL1, HR1. cbn [mbind option_bind].
  rewrite !decide_False by lia.
  rewrite HL2, HR2. cbn [mbind option_bind].
  rewrite bool_decide_eq_false_2 by lia.
  destruct (SampleState.timestamp R1 <? SampleState.timestamp L2) eqn:H1.
  - apply Qcltb_true in H1. eexists _, _. split; [reflexivity|].
    split; [done|]. split.
    + intros Heq. by destruct (Qclt_not_eq _ _ H1).
    + intros H2. by destruct (Qclt_irrefl _ (Qclt_trans _ _ _ H1 H2)).
  - apply Qcltb_false in H1.
    destruct (SampleState.timestamp R1 =? SampleState.timestamp L2) eqn:H2.
    + apply Qceqb_true in H2. eexists _, _. split; [reflexivity|].
      split; [|split; [done|]].
      * intros H3. by destruct (Qcle_not_lt _ _ H1 H3).
      * intros H3. by destruct (Qclt_not_eq _ _ H3).
    + apply bool_decide_eq_false in H2. eexists _, _. split; [reflexivity|].
      split; [|split; [|done]].
      * intros H3. by destruct (Qcle_not_lt _ _ H1 H3).
      * intros H3. by destruct (H2 H3).
Qed.

Lemma BuildLidarResiduals_topology_witness :
  ∃ topology blocks,
    BuildLidarResiduals_body Demo.window_samples Demo.corr_disjoint EmptyProblem []
    = Some (mkProblem
              (residual_blocks EmptyProblem ++
               [mkResidualBlock
                  (SurfelMatchBinaryFactor topology Demo.corr_disjoint (1 - 1) 1 (3 - 1) 3)
                  (CauchyLoss (lit 0.4)) blocks])
              (parameterizations EmptyProblem),
            [] ++ [length (residual_blocks EmptyProblem)])
    ∧ (SampleState.timestamp (Demo.sample 0.1) < SampleState.timestamp (Demo.sample 0.2) →
       topology = 0%nat ∧ blocks = [(1 - 1)%nat; 1%nat; (3 - 1)%nat; 3%nat])
    ∧ (SampleState.timestamp (Demo.sample 0.1) = SampleState.timestamp (Demo.sample 0.2) →
       topology = 1%nat ∧ blocks = [(1 - 1)%nat; 1%nat; 3%nat])
    ∧ (SampleState.timestamp (Demo.sample 0.2) < SampleState.timestamp (Demo.sample 0.1) →
       topology = 2%nat ∧ blocks = [(1 - 1)%nat; 1%nat]).
Proof.
  apply (BuildLidarResiduals_topology Demo.window_samples Demo.corr_disjoint EmptyProblem []
           1 3 (Demo.sample 0) (Demo.sample 0.1) (Demo.sample 0.2) (Demo.sample 0.3)).
  - reflexivity.
  - reflexivity.
  - reflexivity.
  - simpl. lia.
  - simpl. lia.
  - reflexivity.
  - reflexivity.
  - reflexivity.
  - reflexivity.
Defined.

(** The three topologies on a window sampled every 0.1 s. *)
Example BuildLidarResiduals_demo :
  BuildLidarResiduals Demo.window_samples
    [Demo.corr_disjoint; Demo.corr_adjacent; Demo.corr_overlapping] EmptyProblem []
  = Some (mkProblem
            [ mkResidualBlock (SurfelMatchBinaryFactor 0 Demo.corr_disjoint 0 1 2 3)
                (CauchyLoss (lit 0.4)) [0; 1; 2; 3]%nat;
              mkResidualBlock (SurfelMatchBinaryFactor 1 Demo.corr_adjacent 0 1 1 2)
                (CauchyLoss (lit 0.4)) [0; 1; 2]%nat;
              mkResidualBlock (SurfelMatchBinaryFactor 2 Demo.corr_overlapping 0 1 0 1)
                (CauchyLoss (lit 0.4)) [0; 1]%nat ] [],
          [0; 1; 2]%nat).
Proof. vm_compute. reflexivity. Qed.

(** ** Corrector: sample states *)

(** Componentwise equations of vectors and quaternions. *)
Ltac components :=
  unfold qrot, qmul, qvec, conjugate, qsquaredNorm, Identity; cbv zeta;
  unfold vadd, vsub, vneg, vscale, vdiv, cross, squaredNorm, Zero;
  cbn [vx vy vz qw qx qy qz];
  f_equal.

Lemma vadd_Zero_l (p : Vector3d) : vadd Zero p = p.
Proof. destruct p as [x y z]. components; ring. Qed.

Lemma qmul_Identity_l (q : Quaterniond) : qmul Identity q = q.
Proof. destruct q as [w x y z]. components; ring. Qed.

Lemma Vec3_eta (p : Vector3d) : Vec3 (vx p) (vy p) (vz p) = p.
Proof. by destruct p. Qed.

Section CorrectorSamples.
Context `{E : Externals}.

Lemma Corrector_sample_states (st st' : LidarOdometry) :
  Corrector st = Some st' →
  sample_states_sld_win_ st' = UpdateSamplePoses (sample_states_sld_win_ st).
Proof.
  unfold Corrector. intros H.
  destruct (UpdateImuPoses _ _) as [imus|]; [|done]. cbn [mbind option_bind] in H.
  destruct (UpdateSurfelPoses _ _) as [surfels|]; [|done]. cbn [mbind option_bind] in H.
  by injection H as <-.
Qed.

Lemma UpdateSamplePose_corrected (s : SampleState.t) :
  corrected_from s (UpdateSamplePose s).
Proof. unfold corrected_from, UpdateSamplePose. simpl. repeat split. Qed.

(** C1, as the code has it.  After a pass of the Corrector that returns,
    the window has the same sample states in the same order, and for each
    of them: [rot_cor] and [pos_cor], the entries 0..5 of [data_cor], are
    zero; the rotation is [Exp (rot_cor) * rot] and the position
    [pos_cor + pos], for the values before the pass; the entries 6..11 of
    [data_cor] ([ba_cor], [bg_cor]) and the nominal [ba], [bg], [grav] are
    what they were before the pass. *)
Theorem Corrector_absorbs_pose_corrections (st st' : LidarOdometry) :
  Corrector st = Some st' →
  Forall2 corrected_from (sample_states_sld_win_ st) (sample_states_sld_win_ st').
Proof.
  intros H. rewrite (Corrector_sample_states _ _ H). unfold UpdateSamplePoses.
  induction (sample_states_sld_win_ st) as [|s l IH]; simpl; constructor; auto.
  apply UpdateSamplePose_corrected.
Qed.

End CorrectorSamples.

Lemma Corrector_absorbs_pose_corrections_witness :
  ∃ st', Corrector (E := RefExternals) Demo.corrected = Some st'
    ∧ Forall2 (corrected_from (E := RefExternals))
        (sample_states_sld_win_ Demo.corrected) (sample_states_sld_win_ st').
Proof.
  eexists. split; [reflexivity|].
  apply (Corrector_absorbs_pose_corrections (E := RefExternals) Demo.corrected).
  reflexivity.
Defined.

(** The claim as stated fails: after a pass on a window whose sample state
    has [ba_cor = (1, 0, 0)] and [bg_cor = (0, 0, 1)], the entries 6 and 11
    of its block are still 1, and its bias [ba] is still zero, not
    [ba_cor + ba]. *)
Lemma Corrector_leaves_bias_slots :
  ∃ st' s',
    Corrector (E := RefExternals) Demo.corrected = Some st'
    ∧ sample_states_sld_win_ st' = [s']
    ∧ flat (SampleState.data_cor s') = [0; 0; 0; 0; 0; 0; 1; 0; 0; 0; 0; 1]
    ∧ ¬ Forall (λ x, x = 0) (flat (SampleState.data_cor s'))
    ∧ SampleState.ba s' = Zero
    ∧ SampleState.ba s'
      ≠ vadd (ba_cor (SampleState.data_cor Demo.corrected_sample))
             (SampleState.ba Demo.corrected_sample).
Proof.
  eexists _, _. split; [reflexivity|]. split; [reflexivity|].
  split; [reflexivity|]. split; [|split; [reflexivity|]].
  - intros H. simpl in H. apply Forall_lookup_1 with (i := 6%nat) (x := 1) in H.
    + discriminate.
    + reflexivity.
  - intros H. apply (f_equal vx) in H. apply (f_equal this) in H.
    vm_compute in H. discriminate.
Qed.

(** ** Parameter pinning *)

Lemma pos_cor_entries (d d' : DataCor) :
  flat d' !! 3%nat = flat d !! 3%nat →
  flat d' !! 4%nat = flat d !! 4%nat →
  flat d' !! 5%nat = flat d !! 5%nat →
  pos_cor d' = pos_cor d.
Proof.
  unfold flat. simpl. intros [= Hx] [= Hy] [= Hz].
  rewrite <- (Vec3_eta (pos_cor d')), <- (Vec3_eta (pos_cor d)). congruence.
Qed.

Section Pinning.
Context `{E : Externals}.

(** No correction of pose is pending after a Corrector pass, in the sample
    states the predictor creates, and after trimming. *)
Lemma Corrector_settles (st st' : LidarOdometry) :
  Corrector st = Some st' → settled (sample_states_sld_win_ st').
Proof.
  intros H. rewrite (Corrector_sample_states _ _ H). unfold UpdateSamplePoses, settled.
  induction (sample_states_sld_win_ st) as [|s l IH]; simpl; by constructor.
Qed.

Lemma Predict_samples_settled fuel config end_time ba bg grav imu_states :
  ∀ timestamp sample_states sample_states',
    settled sample_states →
    Predict_samples fuel config end_time ba bg grav imu_states timestamp sample_states
    = Some sample_states' →
    settled sample_states'.
Proof.
  induction fuel as [|fuel IH]; intros timestamp sample_states sample_states' Hs; [done|].
  cbn [Predict_samples]. destruct (timestamp <? end_time).
  - cbv zeta. set (idx := lower_bound ImuState.timestamp imu_states timestamp).
    repeat case_decide; try done.
    destruct (imu_states !! (idx - 1)%nat) as [a|]; cbn [mbind option_bind]; [|done].
    destruct (imu_states !! idx) as [b|]; cbn [mbind option_bind]; [|done].
    destruct (_ && _); [|done].
    apply IH. unfold push_back. apply Forall_app. split; [done|].
    by repeat constructor.
  - by intros [= <-].
Qed.

Lemma Predict_init_settled (config : Config) dt (st st' : LidarOdometry) :
  settled (sample_states_sld_win_ st) →
  Predict_init config dt st = Some st' →
  settled (sample_states_sld_win_ st').
Proof.
  intros Hs. unfold Predict_init. destruct (init_sld_win st); [by intros [= <-]|].
  destruct (Predict_init_round dt 0 _ _) as [[buf imus]|]; cbn [mbind option_bind]; [|done].
  destruct (Predict_init_round dt 1 _ _) as [[buf' imus']|]; cbn [mbind option_bind]; [|done].
  destruct (front imus') as [f|]; cbn [mbind option_bind]; [|done].
  intros [= <-]. cbn [sample_states_sld_win_]. unfold push_back.
  apply Forall_app. split; [done|]. by repeat constructor.
Qed.

Lemma PredictImuStatesAndSampleStates_settled (config : Config) end_time
    (st st' : LidarOdometry) :
  settled (sample_states_sld_win_ st) →
  PredictImuStatesAndSampleStates config end_time st = Some st' →
  settled (sample_states_sld_win_ st').
Proof.
  intros Hs. unfold PredictImuStatesAndSampleStates. case_decide; [|done]. cbv zeta.
  destruct (Predict_init config _ st) as [st1|] eqn:Hinit; cbn [mbind option_bind]; [|done].
  apply (Predict_init_settled _ _ _ _ Hs) in Hinit.
  destruct (back (sample_states_sld_win_ st1)) as [latest|]; cbn [mbind option_bind]; [|done].
  destruct (Predict_imu _ _ _ _ _ _ _) as [[buf imus]|]; cbn [mbind option_bind]; [|done].
  destruct (Predict_samples _ _ _ _ _ _ _ _ _) as [samples|] eqn:Hp;
    cbn [mbind option_bind]; [|done].
  intros [= <-]. cbn [sample_states_sld_win_].
  by apply (Predict_samples_settled _ _ _ _ _ _ _ _ _ _ Hinit Hp).
Qed.

Lemma ShrinkToFit_samples_suffix window_duration sample_states kept :
  ShrinkToFit_samples window_duration sample_states = Some kept →
  ∃ dropped, sample_states = dropped ++ kept.
Proof.
  induction sample_states as [|f rest IH]; [done|].
  cbn [ShrinkToFit_samples].
  destruct (back (f :: rest)) as [b|]; cbn [mbind option_bind]; [|done].
  destruct (_ <? _).
  - intros H. destruct (IH H) as [dropped ->]. by exists (f :: dropped).
  - intros [= <-]. by exists [].
Qed.

Lemma ShrinkToFit_settled sample_states imu_states surfels window_duration
    sample_states' imu_states' surfels' :
  settled sample_states →
  ShrinkToFit sample_states imu_states surfels window_duration
  = Some (sample_states', imu_states', surfels') →
  settled sample_states'.
Proof.
  intros Hs. unfold ShrinkToFit.
  destruct (front sample_states) as [f|]; [|by intros [= <- _ _]].
  destruct (back sample_states) as [b|]; [|by intros [= <- _ _]].
  destruct (_ <=? _); [by intros [= <- _ _]|].
  destruct (ShrinkToFit_samples _ _) as [kept|] eqn:Hk; cbn [mbind option_bind]; [|done].
  destruct (ShrinkToFit_samples_suffix _ _ _ Hk) as [dropped ->].
  apply Forall_app in Hs as [_ Hs].
  destruct (front kept); cbn [mbind option_bind]; [|done].
  destruct (pop_front_before _ _ imu_states) as [imus|]; cbn [mbind option_bind]; [|done].
  destruct (front imus); cbn [mbind option_bind]; [|done].
  destruct (pop_front_before _ _ surfels); cbn [mbind option_bind]; [|done].
  by intros [= <- _ _].
Qed.

Lemma write_blocks_front blocks s0 rest :
  front (write_blocks blocks (s0 :: rest))
  = Some match blocks !! 0%nat with
         | Some d => SampleState.set_data_cor d s0
         | None => s0
         end.
Proof. reflexivity. Qed.

(** C8.  For every solver that honours the subset parameterization, every
    problem and every window in which no pose correction is pending (the
    state in which the predictor creates sample states and every Corrector
    pass leaves them, lemmas [Corrector_settles],
    [PredictImuStatesAndSampleStates_settled], [ShrinkToFit_settled]): one
    pass that pins entries 3, 4, 5 of the first sample state's block,
    solves and corrects leaves the position of the first sample state as it
    was. *)
Theorem first_sample_position_pinned (problem : Problem) (st st' : LidarOdometry)
    (s0 : SampleState.t) :
  Solve_holds_constant →
  settled (sample_states_sld_win_ st) →
  front (sample_states_sld_win_ st) = Some s0 →
  SolveAndCorrect problem st = Some st' →
  ∃ s0', front (sample_states_sld_win_ st') = Some s0'
         ∧ SampleState.pos s0' = SampleState.pos s0.
Proof.
  intros Hsolve Hsettled Hfront.
  assert (pos_cor (SampleState.data_cor s0) = Zero) as Hzero.
  { destruct (sample_states_sld_win_ st) as [|s rest]; [done|].
    injection Hfront as ->. by apply Forall_inv in Hsettled as [_ ?]. }
  clear Hsettled. unfold SolveAndCorrect.
  destruct (sample_states_sld_win_ st) as [|s rest] eqn:Hs; [done|].
  injection Hfront as ->. cbn [at_ Z.ltb Z.compare Z.to_nat lookup list_lookup mbind option_bind].
  set (pinned := SetParameterization problem 0 (mkSubset 12 [3; 4; 5]%nat)).
  set (blocks := Solve pinned (map SampleState.data_cor (s0 :: rest))).
  intros H. apply Corrector_sample_states in H. rewrite H.
  cbn [set_window sample_states_sld_win_].
  eexists. split.
  { unfold UpdateSamplePoses. unfold write_blocks. simpl. reflexivity. }
  cbn [UpdateSamplePose SampleState.pos].
  destruct (blocks !! 0%nat) as [d|] eqn:Hd.
  - cbn [SampleState.set_data_cor SampleState.data_cor SampleState.pos].
    assert (pos_cor d = pos_cor (SampleState.data_cor s0)) as ->.
    { assert (∀ i, i ∈ [3; 4; 5]%nat → flat d !! i = flat (SampleState.data_cor s0) !! i)
        as Hi.
      { intros i Hin.
        apply (Hsolve pinned (map SampleState.data_cor (s0 :: rest)) 0%nat
                 (mkSubset 12 [3; 4; 5]%nat) i (SampleState.data_cor s0) d); auto.
        unfold pinned, SetParameterization. cbn [parameterizations].
        apply elem_of_app. right. apply list_elem_of_singleton. done. }
      apply pos_cor_entries; apply Hi; repeat constructor. }
    rewrite Hzero. apply vadd_Zero_l.
  - rewrite Hzero. apply vadd_Zero_l.
Qed.

End Pinning.

(** The reference solver honours the subset parameterization. *)
Lemma Ref_constant_spec (problem : Problem) (k i : nat) (p : SubsetParameterization) :
  (k, p) ∈ parameterizations problem → i ∈ constant_parameters p →
  Ref.constant problem k i = true.
Proof.
  intros Hk Hi. unfold Ref.constant. apply existsb_exists.
  exists (k, p). split; [by apply list_elem_of_In|].
  cbn [fst snd]. apply andb_true_iff. split; [by apply Nat.eqb_eq|].
  apply existsb_exists. exists i. split; [by apply list_elem_of_In|].
  by apply Nat.eqb_eq.
Qed.

Lemma Ref_Solve_holds_constant : Solve_holds_constant (E := RefExternals).
Proof.
  intros problem blocks k p i d d' Hk Hi Hd. cbn [Solve RefExternals].
  unfold Ref.Solve. rewrite list_lookup_imap, Hd. cbn [fmap option_fmap option_map].
  intros [= <-]. pose proof (Ref_constant_spec problem k i p Hk Hi) as Hc.
  do 12 (destruct i as [|i]; [unfold flat; cbn; by rewrite Hc|]).
  reflexivity.
Qed.

Lemma first_sample_position_pinned_witness :
  ∃ s0', front (sample_states_sld_win_ Demo.postsolve) = Some s0'
         ∧ SampleState.pos s0' = SampleState.pos (Demo.sample 0).
Proof.
  apply (first_sample_position_pinned (E := RefExternals)
           EmptyProblem Demo.presolve Demo.postsolve (Demo.sample 0)).
  - exact Ref_Solve_holds_constant.
  - repeat constructor.
  - reflexivity.
  - vm_compute. reflexivity.
Defined.

(** On the demo window the reference solver moves every free entry, and
    the free rotation correction is absorbed while the position stays. *)
Example SolveAndCorrect_demo :
  ∃ st' s0' s1',
    SolveAndCorrect (E := RefExternals) EmptyProblem Demo.presolve = Some st'
    ∧ sample_states_sld_win_ st' = [s0'; s1']
    ∧ SampleState.pos s0' = Zero
    ∧ SampleState.pos s1' = Vec3 1 1 1
    ∧ SampleState.rot s0' = qmul (Ref.Exp (Vec3 1 1 1)) Identity.
Proof.
  eexists _, _, _. split; [vm_compute; reflexivity|].
  split; [reflexivity|]. repeat split; vm_compute; reflexivity.
Qed.

(** ** Predictor *)

Lemma at_last_but {A} (l : list A) (k : nat) :
  (1 <= k <= length l)%nat →
  at_ l (Z.of_nat (length l) - Z.of_nat k) = l !! (length l - k)%nat.
Proof.
  intros Hk. unfold at_.
  destruct (Z.ltb_spec (Z.of_nat (length l) - Z.of_nat k) 0) as [Hneg|_]; [lia|].
  f_equal. lia.
Qed.

Lemma at_last_but_1 {A} (l : list A) :
  (1 <= length l)%nat → at_ l (Z.of_nat (length l) - 1) = l !! (length l - 1)%nat.
Proof. intros H. apply (at_last_but l 1). lia. Qed.

Lemma at_last_but_2 {A} (l : list A) :
  (2 <= length l)%nat → at_ l (Z.of_nat (length l) - 2) = l !! (length l - 2)%nat.
Proof. intros H. apply (at_last_but l 2). lia. Qed.

Lemma vdiv_2 (v : Vector3d) : vdiv v 2 = vscale (1 / 2) v.
Proof. destruct v as [x y z]. components; field; done. Qed.

Lemma integrator_position (dt : double) (x p1 p2 : Vector3d) :
  vsub (vadd (vscale dt (vscale dt x)) (vscale 2 p1)) p2
  = vadd (vsub (vscale 2 p1) p2) (vscale (dt * dt) x).
Proof.
  destruct x as [x y z], p1 as [x1 y1 z1], p2 as [x2 y2 z2]. components; ring.
Qed.

Section Predictor.
Context `{E : Externals}.

Lemma Predict_imu_state_integrates dt ba bg grav imu_states imu_msg :
  (2 <= length imu_states)%nat →
  ∃ s2 s1 s,
    imu_states !! (length imu_states - 2)%nat = Some s2
    ∧ imu_states !! (length imu_states - 1)%nat = Some s1
    ∧ Predict_imu_state dt ba bg grav imu_states imu_msg = Some s
    ∧ records imu_msg s
    ∧ integrates dt ba bg grav s2 s1 s.
Proof.
  intros Hlen. unfold Predict_imu_state. cbv zeta.
  rewrite at_last_but_1, at_last_but_2 by lia.
  destruct (lookup_lt_is_Some_2 imu_states (length imu_states - 1)%nat) as [s1 H1]; [lia|].
  destruct (lookup_lt_is_Some_2 imu_states (length imu_states - 2)%nat) as [s2 H2]; [lia|].
  rewrite H1, H2. cbn [mbind option_bind].
  eexists s2, s1, _. repeat split.
  - cbn [NewImuState ImuState.rot ImuState.gyr]. by rewrite vdiv_2.
  - cbn [NewImuState ImuState.pos]. apply integrator_position.
Qed.

Lemma Predict_imu_spec dt ba bg grav end_time imu_buff :
  ∀ imu_states,
    (2 <= length imu_states)%nat →
    ∃ consumed rest appended,
      Predict_imu dt ba bg grav end_time imu_buff imu_states
      = Some (rest, imu_states ++ appended)
      ∧ imu_buff = consumed ++ rest
      ∧ Forall2 records consumed appended
      ∧ ∀ i s,
          (length imu_states <= i)%nat →
          (imu_states ++ appended) !! i = Some s →
          ∃ s2 s1,
            (imu_states ++ appended) !! (i - 2)%nat = Some s2
            ∧ (imu_states ++ appended) !! (i - 1)%nat = Some s1
            ∧ integrates dt ba bg grav s2 s1 s.
Proof.
  induction imu_buff as [|imu_msg imu_buff IH]; intros imu_states Hlen.
  - exists [], [], []. rewrite app_nil_r.
    split; [done|]. split; [done|]. split; [constructor|].
    intros i s Hi Hs. apply lookup_lt_Some in Hs. lia.
  - destruct (Predict_imu_state_integrates dt ba bg grav imu_states imu_msg Hlen)
      as (s2 & s1 & s & H2 & H1 & Hs & Hrec & Hint).
    assert (∀ appended i s',
              i = length imu_states →
              (imu_states ++ s :: appended) !! i = Some s' →
              ∃ s2 s1,
                (imu_states ++ s :: appended) !! (i - 2)%nat = Some s2
                ∧ (imu_states ++ s :: appended) !! (i - 1)%nat = Some s1
                ∧ integrates dt ba bg grav s2 s1 s') as Hnew.
    { intros appended i s' -> Hs'.
      rewrite lookup_app_r, Nat.sub_diag in Hs' by lia. injection Hs' as <-.
      exists s2, s1. rewrite !lookup_app_l by lia. done. }
    cbn [Predict_imu]. rewrite Hs. cbn [mbind option_bind]. unfold push_back.
    destruct (end_time <=? ImuState.timestamp s).
    + exists [imu_msg], imu_buff, [s].
      split; [done|]. split; [done|]. split; [constructor; [exact Hrec|constructor]|].
      intros i s' Hi Hs'. apply (Hnew [] i s'); [|done].
      apply lookup_lt_Some in Hs'. rewrite length_app in Hs'. simpl in Hs'. lia.
    + destruct (IH (imu_states ++ [s])) as (consumed & rest & appended & Hp & -> & Hall & Hrel).
      { rewrite length_app. simpl. lia. }
      exists (imu_msg :: consumed), rest, (s :: appended).
      rewrite <- app_assoc in Hp, Hrel. simpl in Hp, Hrel.
      split; [done|]. split; [done|]. split; [by constructor|].
      intros i s' Hi Hs'.
      destruct (decide (i = length imu_states)) as [->|Hne].
      * by apply (Hnew appended).
      * apply Hrel; [|done]. rewrite length_app. simpl. lia.
Qed.

(** C5.  Step 2 of the predictor, as [PredictImuStatesAndSampleStates]
    runs it ([dt = 1 / imu_rate]; [ba], [bg], [grav] of the latest sample
    state), on a window that holds at least two imu states: it returns,
    having consumed a prefix of the imu buffer and appended one imu state
    per consumed sample, with the stamp and readings of that sample; and
    every appended state, with the two states before it in the deque,
    satisfies the integrator of the specification. *)
Theorem Predict_imu_integrates (config : Config) (end_time : double)
    (st : LidarOdometry) (latest : SampleState.t) :
  back (sample_states_sld_win_ st) = Some latest →
  (2 <= length (imu_states_sld_win_ st))%nat →
  ∃ consumed rest appended,
    Predict_imu (1 / imu_rate config) (SampleState.ba latest) (SampleState.bg latest)
      (SampleState.grav latest) end_time (imu_buff_ st) (imu_states_sld_win_ st)
    = Some (rest, imu_states_sld_win_ st ++ appended)
    ∧ imu_buff_ st = consumed ++ rest
    ∧ Forall2 records consumed appended
    ∧ ∀ i s,
        (length (imu_states_sld_win_ st) <= i)%nat →
        (imu_states_sld_win_ st ++ appended) !! i = Some s →
        (2 <= i)%nat
        ∧ ∃ s2 s1,
            (imu_states_sld_win_ st ++ appended) !! (i - 2)%nat = Some s2
            ∧ (imu_states_sld_win_ st ++ appended) !! (i - 1)%nat = Some s1
            ∧ integrates (1 / imu_rate config) (SampleState.ba latest)
                (SampleState.bg latest) (SampleState.grav latest) s2 s1 s.
Proof.
  intros _ Hlen.
  destruct (Predict_imu_spec (1 / imu_rate config) (SampleState.ba latest)
              (SampleState.bg latest) (SampleState.grav latest) end_time
              (imu_buff_ st) (imu_states_sld_win_ st) Hlen)
    as (consumed & rest & appended & Hp & Hb & Hrec & Hint).
  exists consumed, rest, appended.
  split; [done|]. split; [done|]. split; [done|].
  intros i s Hi Hs. split; [lia|]. by apply Hint.
Qed.

End Predictor.

Lemma Predict_imu_integrates_witness :
  ∃ consumed rest appended,
    Predict_imu (E := RefExternals) (1 / imu_rate Demo.config)
      (SampleState.ba (Demo.sample 0)) (SampleState.bg (Demo.sample 0))
      (SampleState.grav (Demo.sample 0)) (lit 0.1) (imu_buff_ Demo.initialised)
      (imu_states_sld_win_ Demo.initialised)
    = Some (rest, imu_states_sld_win_ Demo.initialised ++ appended)
    ∧ imu_buff_ Demo.initialised = consumed ++ rest
    ∧ Forall2 records consumed appended
    ∧ ∀ i s,
        (length (imu_states_sld_win_ Demo.initialised) <= i)%nat →
        (imu_states_sld_win_ Demo.initialised ++ appended) !! i = Some s →
        (2 <= i)%nat
        ∧ ∃ s2 s1,
            (imu_states_sld_win_ Demo.initialised ++ appended) !! (i - 2)%nat = Some s2
            ∧ (imu_states_sld_win_ Demo.initialised ++ appended) !! (i - 1)%nat = Some s1
            ∧ integrates (E := RefExternals) (1 / imu_rate Demo.config)
                (SampleState.ba (Demo.sample 0)) (SampleState.bg (Demo.sample 0))
                (SampleState.grav (Demo.sample 0)) s2 s1 s.
Proof.
  apply (Predict_imu_integrates (E := RefExternals) Demo.config (lit 0.1)
           Demo.initialised (Demo.sample 0)).
  - reflexivity.
  - simpl. lia.
Defined.

(** ** Predictor: initialisation *)

Lemma Qc_square_nonneg (x : double) : 0 <= x * x.
Proof.
  destruct (Qclt_le_dec x 0) as [Hneg|Hpos].
  - replace (x * x) with ((- x) * (- x)) by ring.
    assert (0 <= - x) as H.
    { apply Qclt_le_weak. apply Qclt_minus_iff in Hneg.
      by replace (0 + - x) with (- x) in Hneg by ring. }
    by apply Qcmult_nonneg_nonneg.
  - by apply Qcmult_nonneg_nonneg.
Qed.

Lemma Qc_square_pos (x : double) : x ≠ 0 → 0 < x * x.
Proof.
  intros Hx. destruct (Qcle_lt_or_eq _ _ (Qc_square_nonneg x)) as [H|H]; [done|].
  symmetry in H. by destruct (Qcmult_integral _ _ H).
Qed.

Lemma squaredNorm_pos (v : Vector3d) : v ≠ Zero → 0 < squaredNorm v.
Proof.
  destruct v as [x y z]. intros Hv. unfold squaredNorm. cbn [vx vy vz].
  destruct (decide (x = 0)) as [->|Hx].
  - destruct (decide (y = 0)) as [->|Hy].
    + destruct (decide (z = 0)) as [->|Hz]; [done|].
      replace (0 * 0 + 0 * 0 + z * z) with (z * z) by ring. by apply Qc_square_pos.
    + apply Qcplus_pos_nonneg; [|apply Qc_square_nonneg].
      apply Qcplus_nonneg_pos; [apply Qc_square_nonneg|by apply Qc_square_pos].
  - apply Qcplus_pos_nonneg; [|apply Qc_square_nonneg].
    apply Qcplus_pos_nonneg; [by apply Qc_square_pos|apply Qc_square_nonneg].
Qed.

Lemma rounds_S (n : nat) : rounds (S n) = rounds n + 1.
Proof.
  unfold rounds. apply Qc_is_canon. cbn [this Qcplus Q2Qc].
  rewrite !Qred_correct. rewrite Nat2Z.inj_succ. unfold Z.succ.
  rewrite inject_Z_plus. reflexivity.
Qed.

Lemma rounds_ceiling (x : double) : x <= rounds (Z.to_nat (Qceiling (this x))).
Proof.
  unfold Qcle, rounds. cbn [this Q2Qc]. rewrite Qred_correct.
  eapply Qle_trans; [apply Qle_ceiling|]. rewrite <- Zle_Qle. lia.
Qed.

Section Initialisation.
Context `{E : Externals}.

(** The bound on the rounds of step 3 is never reached when [sample_dt] is
    positive: a larger bound gives the same result. *)
Lemma Predict_samples_enough config end_time ba bg grav imu_states :
  0 < sample_dt config →
  ∀ k timestamp sample_states fuel fuel',
    end_time - timestamp <= rounds k * sample_dt config →
    (k < fuel)%nat → (k < fuel')%nat →
    Predict_samples fuel' config end_time ba bg grav imu_states timestamp sample_states
    = Predict_samples fuel config end_time ba bg grav imu_states timestamp sample_states.
Proof.
  intros Hdt. induction k as [|k IH]; intros timestamp sample_states fuel fuel' Hend Hk Hk';
    (destruct fuel as [|fuel]; [lia|]); (destruct fuel' as [|fuel']; [lia|]);
    cbn [Predict_samples].
  - assert ((timestamp <? end_time) = false) as ->; [|done].
    apply Qcltb_false. apply Qcle_minus_iff.
    change (rounds 0) with 0 in Hend. rewrite Qcmult_0_l in Hend.
    apply Qcopp_le_compat in Hend.
    by replace (- (end_time - timestamp)) with (timestamp + - end_time) in Hend by ring.
  - destruct (timestamp <? end_time); [|done].
    cbv zeta. set (idx := lower_bound ImuState.timestamp imu_states timestamp).
    repeat case_decide; try done.
    destruct (imu_states !! (idx - 1)%nat) as [a|]; cbn [mbind option_bind]; [|done].
    destruct (imu_states !! idx) as [b|]; cbn [mbind option_bind]; [|done].
    destruct (_ && _); [|done].
    apply IH; [|lia..]. rewrite rounds_S in Hend.
    apply Qcle_minus_iff. apply Qcle_minus_iff in Hend.
    by replace (rounds k * sample_dt config
                + - (end_time - (timestamp + sample_dt config)))
      with ((rounds k + 1) * sample_dt config + - (end_time - timestamp)) by ring.
Qed.

Lemma Predict_samples_fuel_enough config start end_time ba bg grav imu_states
    sample_states fuel' :
  0 < sample_dt config →
  (Predict_samples_fuel config start end_time <= fuel')%nat →
  Predict_samples fuel' config end_time ba bg grav imu_states
    (start + sample_dt config) sample_states
  = Predict_samples (Predict_samples_fuel config start end_time) config end_time
      ba bg grav imu_states (start + sample_dt config) sample_states.
Proof.
  intros Hdt Hfuel. unfold Predict_samples_fuel in *.
  apply (Predict_samples_enough _ _ _ _ _ _ Hdt
           (Z.to_nat (Qceiling (this ((end_time - start) / sample_dt config)))));
    [|lia..].
  pose proof (rounds_ceiling ((end_time - start) / sample_dt config)) as Hceil.
  apply (Qcmult_le_compat_r _ _ (sample_dt config)) in Hceil;
    [|by apply Qclt_le_weak].
  replace ((end_time - start) / sample_dt config * sample_dt config)
    with (end_time - start) in Hceil
    by (field; intros H0; rewrite H0 in Hdt; by apply Qclt_irrefl in Hdt).
  apply Qcle_minus_iff. apply Qcle_minus_iff in Hceil.
  match goal with
  | |- 0 <= ?r * ?d + - (?e - (?s + ?d)) =>
      replace (r * d + - (e - (s + d))) with ((r * d + - (e - s)) + d) by ring
  end.
  apply Qcplus_nonneg_nonneg; [done|by apply Qclt_le_weak].
Qed.

Lemma normalized_nonzero (v : Vector3d) :
  v ≠ Zero → normalized v = vdiv v (norm v).
Proof.
  intros Hv. unfold normalized.
  by rewrite (proj2 (Qcltb_true _ _) (squaredNorm_pos v Hv)).
Qed.

Lemma Predict_samples_extends fuel config end_time ba bg grav imu_states :
  ∀ timestamp sample_states sample_states',
    Predict_samples fuel config end_time ba bg grav imu_states timestamp sample_states
    = Some sample_states' →
    ∃ added, sample_states' = sample_states ++ added.
Proof.
  induction fuel as [|fuel IH]; intros timestamp sample_states sample_states'; [done|].
  cbn [Predict_samples]. destruct (timestamp <? end_time).
  - cbv zeta. set (idx := lower_bound ImuState.timestamp imu_states timestamp).
    repeat case_decide; try done.
    destruct (imu_states !! (idx - 1)%nat) as [a|]; cbn [mbind option_bind]; [|done].
    destruct (imu_states !! idx) as [b|]; cbn [mbind option_bind]; [|done].
    destruct (_ && _); [|done].
    intros Hrec. apply IH in Hrec as [added ->]. unfold push_back.
    rewrite <- app_assoc. by eexists.
  - intros [= <-]. exists []. by rewrite app_nil_r.
Qed.

Lemma Predict_init_fresh (config : Config) (st : LidarOdometry)
    (m0 m1 : ImuData.t) (rest : list ImuData.t) :
  init_sld_win st = false →
  imu_states_sld_win_ st = [] →
  sample_states_sld_win_ st = [] →
  imu_buff_ st = m0 :: m1 :: rest →
  Predict_init config (1 / imu_rate config) st
  = Some (mkLidarOdometry rest (points_buff_ st)
            [first_imu_state m0; second_imu_state (1 / imu_rate config) m0 m1]
            [first_sample_state config m0] (surfels_sld_win_ st) true (sync_done st)).
Proof.
  intros Hinit Himus Hsamples Hbuf. unfold Predict_init.
  rewrite Hinit, Himus, Hsamples, Hbuf.
  unfold Predict_init_round, second_imu_state.
  cbn [front back list.head list.last pop_front tail push_back app mbind option_bind
       NewImuState ImuState.gyr ImuState.timestamp ImuState.pos ImuState.rot ImuState.acc].
  by rewrite vdiv_2.
Qed.

(** C6.  On a fresh estimator (nothing initialised, empty window) with at
    least two buffered imu samples [m0], [m1], the initialisation step
    returns with exactly two imu states and one sample state in the window:
    state 0 has the identity rotation and zero position; state 1 has
    rotation [Exp (1/2 (gyr0 + gyr1) dt)], [dt = 1 / imu_rate], and zero
    position; the sample state has the stamp of state 0, zero biases, zero
    corrections, gravity [- gravity_norm * normalized (acc0)] (which is
    [acc0 / norm (acc0)] for a non-zero [acc0]) and the pose of state 0.
    The flag is latched, so the step does nothing when run again; and
    whenever the whole predictor returns on such an estimator, these are
    the first two imu states and the first sample state of its window. *)
Theorem Predict_init_first_states (config : Config) (st : LidarOdometry)
    (m0 m1 : ImuData.t) (rest : list ImuData.t) :
  init_sld_win st = false →
  imu_states_sld_win_ st = [] →
  sample_states_sld_win_ st = [] →
  imu_buff_ st = m0 :: m1 :: rest →
  ∃ st1,
    Predict_init config (1 / imu_rate config) st = Some st1
    ∧ imu_states_sld_win_ st1
      = [first_imu_state m0; second_imu_state (1 / imu_rate config) m0 m1]
    ∧ sample_states_sld_win_ st1 = [first_sample_state config m0]
    ∧ imu_buff_ st1 = rest
    ∧ init_sld_win st1 = true
    ∧ Predict_init config (1 / imu_rate config) st1 = Some st1
    ∧ (ImuData.linear_acceleration m0 ≠ Zero →
       SampleState.grav (first_sample_state config m0)
       = vscale (- gravity_norm config)
           (vdiv (ImuData.linear_acceleration m0) (norm (ImuData.linear_acceleration m0))))
    ∧ ∀ end_time st2,
        PredictImuStatesAndSampleStates config end_time st = Some st2 →
        take 2 (imu_states_sld_win_ st2)
        = [first_imu_state m0; second_imu_state (1 / imu_rate config) m0 m1]
        ∧ front (sample_states_sld_win_ st2) = Some (first_sample_state config m0)
        ∧ init_sld_win st2 = true.
Proof.
  intros Hinit Himus Hsamples Hbuf.
  pose proof (Predict_init_fresh config st m0 m1 rest Hinit Himus Hsamples Hbuf) as Hfresh.
  eexists. split; [exact Hfresh|].
  split; [done|]. split; [done|]. split; [done|]. split; [done|]. split; [done|].
  split.
  { intros Hacc. cbn [first_sample_state SampleState.grav].
    by rewrite normalized_nonzero. }
  intros end_time st2. unfold PredictImuStatesAndSampleStates.
  case_decide; [|done]. cbv zeta. rewrite Hfresh.
  cbn [mbind option_bind sample_states_sld_win_ imu_states_sld_win_ imu_buff_
       back list.last].
  set (latest := first_sample_state config m0).
  set (states := [first_imu_state m0; second_imu_state (1 / imu_rate config) m0 m1]).
  destruct (Predict_imu_spec (1 / imu_rate config) (SampleState.ba latest)
              (SampleState.bg latest) (SampleState.grav latest) end_time rest states)
    as (consumed & rest' & appended & -> & _); [simpl; lia|].
  cbn [mbind option_bind].
  destruct (Predict_samples _ _ _ _ _ _ _ _ _) as [samples|] eqn:Hs; [|done].
  apply Predict_samples_extends in Hs as [added ->].
  cbn [mbind option_bind]. intros [= <-]. done.
Qed.

Lemma Predict_init_points_buff (config : Config) dt (st st' : LidarOdometry) :
  Predict_init config dt st = Some st' → points_buff_ st' = points_buff_ st.
Proof.
  unfold Predict_init. destruct (init_sld_win st); [by intros [= <-]|].
  destruct (Predict_init_round dt 0 _ _) as [[buf imus]|]; cbn [mbind option_bind]; [|done].
  destruct (Predict_init_round dt 1 _ _) as [[buf' imus']|]; cbn [mbind option_bind]; [|done].
  destruct (front imus') as [f|]; cbn [mbind option_bind]; [|done].
  by intros [= <-].
Qed.

Lemma PredictImuStatesAndSampleStates_points_buff (config : Config) end_time
    (st st' : LidarOdometry) :
  PredictImuStatesAndSampleStates config end_time st = Some st' →
  points_buff_ st' = points_buff_ st.
Proof.
  unfold PredictImuStatesAndSampleStates. case_decide; [|done]. cbv zeta.
  destruct (Predict_init config _ st) as [st1|] eqn:Hinit; cbn [mbind option_bind]; [|done].
  apply Predict_init_points_buff in Hinit.
  destruct (back (sample_states_sld_win_ st1)) as [latest|]; cbn [mbind option_bind]; [|done].
  destruct (Predict_imu _ _ _ _ _ _ _) as [[buf imus]|]; cbn [mbind option_bind]; [|done].
  destruct (Predict_samples _ _ _ _ _ _ _ _ _) as [samples|];
    cbn [mbind option_bind]; [|done].
  by intros [= <-].
Qed.

(** The end time [AddLidarScan] passes to [BuildSweep] is the stamp of the
    latest sample state. *)
Lemma AddLidarScan_sweep_endtime (config : Config) (st st' : LidarOdometry)
    (sweep : list Point.t) :
  AddLidarScan_sweep config st = Some (Some (sweep, st')) →
  ∃ latest,
    back (sample_states_sld_win_ st') = Some latest
    ∧ BuildSweep (points_buff_ st) (SampleState.timestamp latest)
      = Some (sweep, points_buff_ st').
Proof.
  unfold AddLidarScan_sweep.
  destruct (front (points_buff_ st)) as [pf|]; cbn [mbind option_bind]; [|done].
  destruct (back (points_buff_ st)) as [pb|]; cbn [mbind option_bind]; [|done].
  cbv zeta. destruct (_ || _); [done|].
  destruct (PredictImuStatesAndSampleStates _ _ st) as [st1|] eqn:Hp;
    cbn [mbind option_bind]; [|done].
  apply PredictImuStatesAndSampleStates_points_buff in Hp.
  destruct (back (sample_states_sld_win_ st1)) as [latest|] eqn:Hl;
    cbn [mbind option_bind]; [|done].
  rewrite Hp.
  destruct (BuildSweep (points_buff_ st) _) as [[sw buf]|] eqn:Hb;
    cbn [mbind option_bind]; [|done].
  intros [= <- <-]. by exists latest.
Qed.

(** The predictor after initialisation: step 2 with [dt = 1 / imu_rate] and
    the biases and gravity of the latest sample state, then step 3. *)
Lemma PredictImuStatesAndSampleStates_steps (config : Config) end_time
    (st : LidarOdometry) (latest : SampleState.t) :
  init_sld_win st = true →
  (2 <= length (imu_buff_ st))%nat →
  back (sample_states_sld_win_ st) = Some latest →
  PredictImuStatesAndSampleStates config end_time st
  = '(imu_buff, imu_states) ←
      Predict_imu (1 / imu_rate config) (SampleState.ba latest) (SampleState.bg latest)
        (SampleState.grav latest) end_time (imu_buff_ st) (imu_states_sld_win_ st);
    sample_states ←
      Predict_samples
        (Predict_samples_fuel config (SampleState.timestamp latest) end_time)
        config end_time (SampleState.ba latest) (SampleState.bg latest)
        (SampleState.grav latest) imu_states
        (SampleState.timestamp latest + sample_dt config) (sample_states_sld_win_ st);
    Some (mkLidarOdometry imu_buff (points_buff_ st) imu_states sample_states
            (surfels_sld_win_ st) (init_sld_win st) (sync_done st)).
Proof.
  intros Hinit Hlen Hback.
  assert (Predict_init config (1 / imu_rate config) st = Some st) as Hstay
    by (unfold Predict_init; by rewrite Hinit).
  unfold PredictImuStatesAndSampleStates.
  rewrite decide_True by done. cbv zeta. rewrite Hstay.
  cbn [mbind option_bind]. by rewrite Hback.
Qed.

End Initialisation.

(** A first scan: the predictor initialises the window, integrates the
    imu samples up to 0.1 and creates sample states at 0.03, 0.06 and 0.09;
    the sweep ends at 0.09, the stamp of the latest of them. *)
Example AddLidarScan_sweep_demo :
  ∃ st',
    AddLidarScan_sweep Demo.config_dense Demo.scanning
    = Some (Some ([Demo.point 0; Demo.point 0.02; Demo.point 0.05], st'))
    ∧ points_buff_ st' = [Demo.point 0.09; Demo.point 0.11]
    ∧ map (λ s, Qred (this (SampleState.timestamp s))) (sample_states_sld_win_ st')
      = [0; 3 # 100; 3 # 50; 9 # 100]%Q
    ∧ length (imu_states_sld_win_ st') = 11%nat
    ∧ map ImuData.timestamp (imu_buff_ st') = [lit 0.11].
Proof.
  eexists. split; [vm_compute; reflexivity|].
  split; [reflexivity|]. split; [reflexivity|]. split; reflexivity.
Qed.

Lemma Predict_init_first_states_witness :
  ∃ st1,
    Predict_init (E := RefExternals) Demo.config (1 / imu_rate Demo.config) Demo.at_rest
    = Some st1
    ∧ imu_states_sld_win_ st1
      = [first_imu_state (Demo.imu 0);
         second_imu_state (E := RefExternals) (1 / imu_rate Demo.config)
           (Demo.imu 0) (Demo.imu 0.01)]
    ∧ sample_states_sld_win_ st1 = [first_sample_state Demo.config (Demo.imu 0)]
    ∧ imu_buff_ st1 = [Demo.imu 0.02; Demo.imu 0.03]
    ∧ init_sld_win st1 = true
    ∧ Predict_init (E := RefExternals) Demo.config (1 / imu_rate Demo.config) st1 = Some st1
    ∧ (ImuData.linear_acceleration (Demo.imu 0) ≠ Zero →
       SampleState.grav (first_sample_state Demo.config (Demo.imu 0))
       = vscale (- gravity_norm Demo.config)
           (vdiv (ImuData.linear_acceleration (Demo.imu 0))
                 (norm (Externals := RefExternals)
                    (ImuData.linear_acceleration (Demo.imu 0)))))
    ∧ ∀ end_time st2,
        PredictImuStatesAndSampleStates Demo.config end_time Demo.at_rest = Some st2 →
        take 2 (imu_states_sld_win_ st2)
        = [first_imu_state (Demo.imu 0);
           second_imu_state (E := RefExternals) (1 / imu_rate Demo.config)
             (Demo.imu 0) (Demo.imu 0.01)]
        ∧ front (sample_states_sld_win_ st2)
          = Some (first_sample_state Demo.config (Demo.imu 0))
        ∧ init_sld_win st2 = true.
Proof.
  apply (Predict_init_first_states (E := RefExternals) Demo.config Demo.at_rest
           (Demo.imu 0) (Demo.imu 0.01) [Demo.imu 0.02; Demo.imu 0.03]).
  - reflexivity.
  - reflexivity.
  - reflexivity.
  - reflexivity.
Defined.

(** The two-sample initialisation of the specification: with
    [acc = (0, 0, 9.81)] and no rotation, state 1 has the identity rotation
    and gravity is [(0, 0, -9.81)]. *)
Example Predict_init_demo :
  ImuState.rot (second_imu_state (E := RefExternals) (1 / imu_rate Demo.config)
                  (Demo.imu 0) (Demo.imu 0.01)) = Identity
  ∧ SampleState.grav (first_sample_state Demo.config (Demo.imu 0))
    = Vec3 0 0 (- lit 9.81).
Proof. split; vm_compute; f_equal; apply Qc_is_canon; reflexivity. Qed.

(** ** The reference instance meets the assumptions *)

Lemma pure_inj (u v : Vector3d) : pure u = pure v → u = v.
Proof. destruct u, v. unfold pure. cbn [vx vy vz]. by intros [= -> -> ->]. Qed.

Lemma qmul_assoc (a b c : Quaterniond) : qmul (qmul a b) c = qmul a (qmul b c).
Proof. destruct a, b, c. components; ring. Qed.

Lemma qmul_Identity_r (q : Quaterniond) : qmul q Identity = q.
Proof. destruct q. components; ring. Qed.

Lemma conjugate_qmul (a b : Quaterniond) :
  conjugate (qmul a b) = qmul (conjugate b) (conjugate a).
Proof. destruct a, b. components; ring. Qed.

Lemma conjugate_involutive (q : Quaterniond) : conjugate (conjugate q) = q.
Proof. destruct q. components; ring. Qed.

Lemma qmul_conjugate_l (q : Quaterniond) :
  unit_norm q → qmul (conjugate q) q = Identity.
Proof.
  destruct q as [w x y z]. unfold unit_norm, qsquaredNorm. cbn [qw qx qy qz].
  intros H. components; try ring. rewrite <- H. ring.
Qed.

Lemma unit_norm_conjugate (q : Quaterniond) : unit_norm q → unit_norm (conjugate q).
Proof.
  destruct q as [w x y z]. unfold unit_norm, qsquaredNorm, conjugate. cbn [qw qx qy qz].
  intros <-. ring.
Qed.

Lemma unit_norm_qmul (a b : Quaterniond) :
  unit_norm a → unit_norm b → unit_norm (qmul a b).
Proof.
  destruct a as [aw ax ay az], b as [bw bx by_ bz].
  unfold unit_norm, qsquaredNorm, qmul. cbn [qw qx qy qz]. intros Ha Hb.
  replace 1 with ((aw * aw + ax * ax + ay * ay + az * az)
                  * (bw * bw + bx * bx + by_ * by_ + bz * bz))
    by (rewrite Ha, Hb; ring).
  ring.
Qed.

(** On unit quaternions, Eigen's [q * v] is the sandwich product. *)
Lemma qrot_sandwich (q : Quaterniond) (v : Vector3d) :
  unit_norm q → qmul (qmul q (pure v)) (conjugate q) = pure (qrot q v).
Proof.
  destruct q as [w x y z], v as [a b c].
  unfold unit_norm, qsquaredNorm. cbn [qw qx qy qz]. intros H.
  assert (w * w = 1 - (x * x + y * y + z * z)) as Hw by (rewrite <- H; ring).
  unfold pure. components.
  - ring.
  - transitivity (a * (w * w) + a * (x * x) - a * (y * y) - a * (z * z)
                  + 2 * w * (y * c - z * b) + 2 * x * (y * b + z * c)); [ring|].
    rewrite Hw. ring.
  - transitivity (b * (w * w) - b * (x * x) + b * (y * y) - b * (z * z)
                  + 2 * w * (z * a - x * c) + 2 * y * (x * a + z * c)); [ring|].
    rewrite Hw. ring.
  - transitivity (c * (w * w) - c * (x * x) - c * (y * y) + c * (z * z)
                  + 2 * w * (x * b - y * a) + 2 * z * (x * a + y * b)); [ring|].
    rewrite Hw. ring.
Qed.

Lemma qrot_qmul (a b : Quaterniond) (v : Vector3d) :
  unit_norm a → unit_norm b → qrot (qmul a b) v = qrot a (qrot b v).
Proof.
  intros Ha Hb. apply pure_inj.
  rewrite <- (qrot_sandwich (qmul a b)) by by apply unit_norm_qmul.
  rewrite <- (qrot_sandwich a) by done. rewrite <- (qrot_sandwich b) by done.
  rewrite conjugate_qmul. by rewrite !qmul_assoc.
Qed.

Lemma qrot_vneg (q : Quaterniond) (v : Vector3d) : qrot q (vneg v) = vneg (qrot q v).
Proof. destruct q, v. components; ring. Qed.

Lemma vadd_vneg_cancel (u t : Vector3d) : vadd u (vadd (vneg u) t) = t.
Proof. destruct u, t. components; ring. Qed.

Lemma Ref_Rigid3d_laws : Rigid3d_laws (E := RefExternals).
Proof.
  split; [done|]. intros [ta qa] [tb qb]. cbn [rotation translation RefExternals snd fst].
  intros Ha Hb. cbn [rmul inverse RefExternals]. unfold Ref.rmul, Ref.inverse.
  cbn [fst snd]. f_equal.
  - rewrite qrot_qmul by auto using unit_norm_conjugate.
    rewrite qrot_vneg. apply vadd_vneg_cancel.
  - rewrite qmul_assoc, qmul_conjugate_l by done. apply qmul_Identity_r.
Qed.

Lemma Ref_Exp_zero : Exp_zero (E := RefExternals).
Proof. vm_compute. f_equal; apply Qc_is_canon; reflexivity. Qed.

Lemma spline_zero (b0 b1 b2 b3 : double) :
  vadd (vadd (vscale b0 Zero) (vscale b1 Zero)) (vadd (vscale b2 Zero) (vscale b3 Zero))
  = Zero.
Proof. components; ring. Qed.

Lemma Ref_Interp_zero : Interp_zero (E := RefExternals).
Proof.
  intros knots values t v Hzero. cbn [Interp NewInterpolator RefExternals].
  unfold Ref.Interp. destruct (upper_bound id knots t) as [|[|k]]; try done.
  destruct (knots !! S k) as [tk|]; cbn [mbind option_bind]; [|done].
  destruct (knots !! S (S k)) as [tk1|]; cbn [mbind option_bind]; [|done].
  destruct (values !! k) as [p0|] eqn:H0; cbn [mbind option_bind]; [|done].
  destruct (values !! S k) as [p1|] eqn:H1; cbn [mbind option_bind]; [|done].
  destruct (values !! S (S k)) as [p2|] eqn:H2; cbn [mbind option_bind]; [|done].
  destruct (values !! S (S (S k))) as [p3|] eqn:H3; cbn [mbind option_bind]; [|done].
  rewrite (Forall_lookup_1 _ _ _ _ Hzero H0), (Forall_lookup_1 _ _ _ _ Hzero H1),
    (Forall_lookup_1 _ _ _ _ Hzero H2), (Forall_lookup_1 _ _ _ _ Hzero H3).
  intros [= <-]. apply spline_zero.
Qed.

(** ** Corrector: imu states *)

Lemma set_pose_same (s : ImuState.t) :
  ImuState.set_pose (ImuState.pos s) (ImuState.rot s) s = s.
Proof. by destruct s. Qed.

Lemma settled_control_values (sample_states : list SampleState.t) :
  settled sample_states →
  map (λ s, rot_cor (SampleState.data_cor s)) sample_states
  = map (λ s, pos_cor (SampleState.data_cor s)) sample_states
  ∧ Forall (λ p, p = Zero) (map (λ s, pos_cor (SampleState.data_cor s)) sample_states).
Proof.
  induction 1 as [|s l [Hr Hp] _ [IH1 IH2]]; [by split|].
  simpl. rewrite Hr, Hp, IH1. split; [done|by constructor].
Qed.

Section ImuPoses.
Context `{E : Externals}.
Hypothesis HExp : Exp_zero.
Hypothesis HInterp : Interp_zero.
Hypothesis HRigid : Rigid3d_laws.

Variable sample_states : list SampleState.t.
Hypothesis Hsettled : settled sample_states.

Lemma GetCorr_settled (timestamp : double) :
  GetCorr (NewCorrector sample_states) timestamp = Some None
  ∨ GetCorr (NewCorrector sample_states) timestamp = Some (Some (Zero, Zero)).
Proof.
  destruct (settled_control_values _ Hsettled) as [Heq Hzero].
  unfold GetCorr, NewCorrector. cbn [rot_interp_ pos_interp_]. rewrite Heq.
  destruct (Interp _ timestamp) as [v|] eqn:Hv; [|by left].
  right. by rewrite (HInterp _ _ _ _ Hzero Hv).
Qed.

Lemma UpdateImuPoses_correct_settled (imu_states : list ImuState.t) (n : nat) :
  ∀ i first last,
    (i + n <= length imu_states)%nat →
    corrected_range imu_states first last →
    ∃ first' last',
      UpdateImuPoses_correct n (NewCorrector sample_states) i imu_states first last
      = Some (imu_states, first', last')
      ∧ corrected_range imu_states first' last'.
Proof.
  induction n as [|n IH]; intros i first last Hi Hrange.
  - by exists first, last.
  - cbn [UpdateImuPoses_correct].
    destruct (lookup_lt_is_Some_2 imu_states i) as [s Hs]; [lia|].
    rewrite Hs. cbn [mbind option_bind].
    destruct (GetCorr_settled (ImuState.timestamp s)) as [-> | ->];
      cbn [mbind option_bind].
    + apply IH; [lia|done].
    + rewrite vadd_Zero_l, HExp, qmul_Identity_l, set_pose_same.
      rewrite (list_insert_id _ _ _ Hs).
      apply IH; [lia|]. right. split; [|lia].
      destruct (first =? -1)%Z eqn:Hf; [lia|].
      destruct Hrange as [->|[? _]]; [done|lia].
Qed.

Variable imu_states : list ImuState.t.
Hypothesis Hunit : Forall (λ s, unit_norm (ImuState.rot s)) imu_states.

Lemma UpdateImuPoses_relative_settled (i : nat) (j : Z) :
  (i < length imu_states)%nat → (0 <= j < Z.of_nat (length imu_states))%Z →
  UpdateImuPoses_relative imu_states imu_states i j = Some imu_states.
Proof.
  intros Hi Hj. unfold UpdateImuPoses_relative, at_.
  destruct (Z.ltb_spec j 0) as [?|_]; [lia|].
  destruct (lookup_lt_is_Some_2 imu_states i Hi) as [si Hsi].
  destruct (lookup_lt_is_Some_2 imu_states (Z.to_nat j)) as [sj Hsj]; [lia|].
  rewrite Hsi, Hsj. cbn [mbind option_bind].
  destruct HRigid as [Hmk Hinv]. rewrite Hinv.
  - destruct (Hmk (ImuState.pos si) (ImuState.rot si)) as [-> ->].
    rewrite set_pose_same. by rewrite (list_insert_id _ _ _ Hsi).
  - destruct (Hmk (ImuState.pos si) (ImuState.rot si)) as [_ ->].
    exact (Forall_lookup_1 _ _ _ _ Hunit Hsi).
  - destruct (Hmk (ImuState.pos sj) (ImuState.rot sj)) as [_ ->].
    exact (Forall_lookup_1 _ _ _ _ Hunit Hsj).
Qed.

Lemma UpdateImuPoses_heading_settled (n : nat) :
  (n < length imu_states)%nat →
  UpdateImuPoses_heading n imu_states imu_states = Some imu_states.
Proof.
  induction n as [|n IH]; intros Hn; [done|].
  cbn [UpdateImuPoses_heading].
  rewrite UpdateImuPoses_relative_settled by lia. cbn [mbind option_bind].
  apply IH. lia.
Qed.

Lemma UpdateImuPoses_tailing_settled (n : nat) :
  ∀ i, (1 <= i)%nat → (i + n <= length imu_states)%nat →
       UpdateImuPoses_tailing n i imu_states imu_states = Some imu_states.
Proof.
  induction n as [|n IH]; intros i Hi Hn; [done|].
  cbn [UpdateImuPoses_tailing].
  rewrite UpdateImuPoses_relative_settled by lia. cbn [mbind option_bind].
  apply IH; lia.
Qed.

Lemma UpdateImuPoses_settled :
  UpdateImuPoses sample_states imu_states = Some imu_states.
Proof.
  unfold UpdateImuPoses. cbv zeta.
  destruct (UpdateImuPoses_correct_settled imu_states (length imu_states) 0 (-1) (-1))
    as (first & last & -> & Hrange); [lia|by left|].
  cbn [mbind option_bind].
  destruct (first =? -1)%Z eqn:Hf; [done|].
  destruct Hrange as [->|[Hfirst Hlast]]; [done|].
  rewrite UpdateImuPoses_heading_settled by lia. cbn [mbind option_bind].
  apply UpdateImuPoses_tailing_settled; lia.
Qed.

(** So a Corrector pass on a settled window leaves the imu deque as it
    is. *)
Lemma Corrector_settled_imu_states (st st' : LidarOdometry) :
  sample_states_sld_win_ st = sample_states →
  imu_states_sld_win_ st = imu_states →
  Corrector st = Some st' →
  imu_states_sld_win_ st' = imu_states.
Proof.
  intros Hs Hi. unfold Corrector. rewrite Hs, Hi, UpdateImuPoses_settled.
  cbn [mbind option_bind].
  destruct (UpdateSurfelPoses _ _); cbn [mbind option_bind]; [|done].
  by intros [= <-].
Qed.

End ImuPoses.


(** ** Binary search on deques whose stamps do not decrease *)

Lemma sorted_lt_partition {A} (key : A → double) (l : list A) (v : double) :
  nondecreasing (map key l) →
  ∃ k, (k <= length l)%nat ∧ ∀ j x, l !! j = Some x → key x < v ↔ (j < k)%nat.
Proof.
  intros Hs. apply nondecreasing_strong in Hs.
  induction l as [|y l IH].
  - exists 0%nat. split; [done|]. intros j x Hx. by rewrite lookup_nil in Hx.
  - simpl in Hs. apply StronglySorted_inv in Hs as [Hrest Hy].
    destruct (IH Hrest) as (k & Hk & Hsplit).
    destruct (Qclt_le_dec (key y) v) as [Hlt|Hge].
    + exists (S k). split; [simpl; lia|].
      intros [|j] x Hx; simpl in Hx.
      * injection Hx as <-. split; [lia|done].
      * rewrite (Hsplit j x Hx). lia.
    + exists 0%nat. split; [lia|].
      intros j x Hx. split; [|lia]. intros Hlt. exfalso.
      apply (Qcle_not_lt _ _ Hge). eapply Qcle_lt_trans; [|exact Hlt].
      destruct j as [|j]; simpl in Hx.
      * injection Hx as <-. apply Qcle_refl.
      * rewrite Forall_map in Hy. exact (Forall_lookup_1 _ _ _ _ Hy Hx).
Qed.

Lemma sorted_le_partition {A} (key : A → double) (l : list A) (v : double) :
  nondecreasing (map key l) →
  ∃ k, (k <= length l)%nat ∧ ∀ j x, l !! j = Some x → key x <= v ↔ (j < k)%nat.
Proof.
  intros Hs. apply nondecreasing_strong in Hs.
  induction l as [|y l IH].
  - exists 0%nat. split; [done|]. intros j x Hx. by rewrite lookup_nil in Hx.
  - simpl in Hs. apply StronglySorted_inv in Hs as [Hrest Hy].
    destruct (IH Hrest) as (k & Hk & Hsplit).
    destruct (Qclt_le_dec v (key y)) as [Hlt|Hge].
    + exists 0%nat. split; [lia|].
      intros j x Hx. split; [|lia]. intros Hle. exfalso.
      apply (Qcle_not_lt _ _ Hle). eapply Qclt_le_trans; [exact Hlt|].
      destruct j as [|j]; simpl in Hx.
      * injection Hx as <-. apply Qcle_refl.
      * rewrite Forall_map in Hy. exact (Forall_lookup_1 _ _ _ _ Hy Hx).
    + exists (S k). split; [simpl; lia|].
      intros [|j] x Hx; simpl in Hx.
      * injection Hx as <-. split; [lia|done].
      * rewrite (Hsplit j x Hx). lia.
Qed.

(** On such a deque [std::lower_bound] returns the position of the first
    element that is not before [value]. *)
Lemma lower_bound_sorted {A} (key : A → double) (l : list A) (value : double) :
  nondecreasing (map key l) →
  (lower_bound key l value <= length l)%nat
  ∧ ∀ j x, l !! j = Some x → key x < value ↔ (j < lower_bound key l value)%nat.
Proof.
  intros Hs. destruct (sorted_lt_partition key l value Hs) as (k & Hk & Hsplit).
  by rewrite (lower_bound_spec key l value k Hk Hsplit).
Qed.

(** And [std::upper_bound] the position of the first element after
    [value]. *)
Lemma upper_bound_sorted {A} (key : A → double) (l : list A) (value : double) :
  nondecreasing (map key l) →
  (upper_bound key l value <= length l)%nat
  ∧ ∀ j x, l !! j = Some x → key x <= value ↔ (j < upper_bound key l value)%nat.
Proof.
  intros Hs. destruct (sorted_le_partition key l value Hs) as (k & Hk & Hsplit).
  by rewrite (upper_bound_spec key l value k Hk Hsplit).
Qed.

Lemma at_nat {A} (l : list A) (i : Z) : (0 <= i)%Z → at_ l i = l !! Z.to_nat i.
Proof. intros Hi. unfold at_. by destruct (Z.ltb_spec i 0); [lia|]. Qed.

Lemma front_lookup {A} (l : list A) : front l = l !! 0%nat.
Proof. by destruct l. Qed.

Lemma back_lookup {A} (l : list A) : back l = l !! (length l - 1)%nat.
Proof.
  unfold back. rewrite last_lookup. f_equal. lia.
Qed.

(** The two checks that follow a [lower_bound] on the dense trajectory
    pass exactly for the stamps it brackets. *)
Lemma lower_bound_brackets (imu_states : list ImuState.t) (t : double) :
  nondecreasing (map ImuState.timestamp imu_states) →
  let idx := lower_bound ImuState.timestamp imu_states t in
  (1 <= idx ∧ idx < length imu_states)%nat ↔ brackets imu_states t.
Proof.
  intros Hs idx. destruct (lower_bound_sorted ImuState.timestamp imu_states t Hs)
    as [Hle Hsplit]. fold idx in Hle, Hsplit.
  unfold brackets. rewrite front_lookup, back_lookup. split.
  - intros [H1 Hn].
    destruct (lookup_lt_is_Some_2 imu_states 0) as [f Hf]; [lia|].
    destruct (lookup_lt_is_Some_2 imu_states (length imu_states - 1)) as [b Hb]; [lia|].
    exists f, b. split; [done|]. split; [done|]. split.
    + apply (Hsplit _ _ Hf). lia.
    + apply Qcnot_lt_le. rewrite (Hsplit _ _ Hb). lia.
  - intros (f & b & Hf & Hb & Hft & Htb).
    apply (Hsplit _ _ Hf) in Hft. split; [lia|].
    assert (¬ (length imu_states - 1 < idx)%nat) as Hnot.
    { rewrite <- (Hsplit _ _ Hb). by apply Qcle_not_lt. }
    apply lookup_lt_Some in Hb. lia.
Qed.

(** The states on the two sides of a [lower_bound] that passes the checks,
    and the weight of the interpolation between them. *)
Lemma lower_bound_neighbours (imu_states : list ImuState.t) (t : double) :
  nondecreasing (map ImuState.timestamp imu_states) →
  brackets imu_states t →
  let idx := lower_bound ImuState.timestamp imu_states t in
  ∃ a b,
    imu_states !! (idx - 1)%nat = Some a ∧ imu_states !! idx = Some b
    ∧ (1 <= idx)%nat
    ∧ ImuState.timestamp a < t ∧ t <= ImuState.timestamp b.
Proof.
  intros Hs Hbr idx. pose proof (proj2 (lower_bound_brackets imu_states t Hs) Hbr) as [H1 Hn].
  fold idx in H1, Hn.
  destruct (lower_bound_sorted ImuState.timestamp imu_states t Hs) as [_ Hsplit].
  fold idx in Hsplit.
  destruct (lookup_lt_is_Some_2 imu_states (idx - 1)) as [a Ha]; [lia|].
  destruct (lookup_lt_is_Some_2 imu_states idx) as [b Hb]; [lia|].
  exists a, b. split; [done|]. split; [done|]. split; [done|]. split.
  - apply (Hsplit _ _ Ha). lia.
  - apply Qcnot_lt_le. rewrite (Hsplit _ _ Hb). lia.
Qed.

Lemma Qclt_minus_pos (x y : double) : x < y → 0 < y - x.
Proof. intros H. apply Qclt_minus_iff in H. by replace (y - x) with (y + - x) by ring. Qed.

Lemma Qcle_minus_nonneg (x y : double) : x <= y → 0 <= y - x.
Proof. intros H. apply Qcle_minus_iff in H. by replace (y - x) with (y + - x) by ring. Qed.

Lemma Qclt_neq (x y : double) : x < y → y - x ≠ 0.
Proof.
  intros H Heq. apply Qclt_minus_pos in H. rewrite Heq in H. by apply Qclt_irrefl in H.
Qed.

(** The weight [(t - a) / (b - a)] for [a < t <= b]. *)
Lemma factor_range (a t b : double) :
  a < t → t <= b → 0 < (t - a) / (b - a) ∧ (t - a) / (b - a) <= 1.
Proof.
  intros Hat Htb.
  assert (0 < b - a) as Hd by (apply Qclt_minus_pos; by eapply Qclt_le_trans).
  pose proof (Qcinv_pos _ Hd) as Hinv.
  split.
  - apply Qcmult_pos_pos; [by apply Qclt_minus_pos|done].
  - replace 1 with ((b - a) / (b - a)).
    + apply Qcmult_le_compat_r; [|by apply Qclt_le_weak].
      apply Qcle_minus_iff. replace (b - a + - (t - a)) with (b - t) by ring.
      by apply Qcle_minus_nonneg.
    + field. intros H0. rewrite H0 in Hd. by apply Qclt_irrefl in Hd.
Qed.

(** ** Sweep undistortion and surfel poses *)

Section Undistortion.
Context `{E : Externals}.

Lemma UndistortPoint_is_Some (imu_states : list ImuState.t) (pt : Point.t) :
  nondecreasing (map ImuState.timestamp imu_states) →
  is_Some (UndistortPoint imu_states pt) ↔ brackets imu_states (Point.time pt).
Proof.
  intros Hs. pose proof (lower_bound_brackets imu_states (Point.time pt) Hs) as Hbr.
  cbv zeta in Hbr. unfold UndistortPoint. cbv zeta. case_decide as Hidx.
  - destruct (lookup_lt_is_Some_2 imu_states
                (lower_bound ImuState.timestamp imu_states (Point.time pt) - 1))
      as [a ->]; [lia|].
    destruct (lookup_lt_is_Some_2 imu_states
                (lower_bound ImuState.timestamp imu_states (Point.time pt)))
      as [b ->]; [lia|].
    cbn [mbind option_bind]. split; [intros _; by apply Hbr|by eexists].
  - split; [by intros [? [=]]|]. intros H. by apply Hbr in H.
Qed.

(** X1.  On a dense trajectory whose stamps do not decrease,
    [UndistortSweep] returns exactly when every point of the sweep is
    stamped after the first imu state and not after the last; otherwise
    its check aborts.  In particular a point stamped as the first imu
    state aborts. *)
Theorem UndistortSweep_returns_iff (sweep_in : list Point.t)
    (imu_states : list ImuState.t) :
  nondecreasing (map ImuState.timestamp imu_states) →
  is_Some (UndistortSweep sweep_in imu_states)
  ↔ Forall (λ pt, brackets imu_states (Point.time pt)) sweep_in.
Proof.
  intros Hs. unfold UndistortSweep. rewrite mapM_is_Some.
  apply Forall_iff. intros pt. by apply UndistortPoint_is_Some.
Qed.

Lemma UndistortPoint_undistorted (imu_states : list ImuState.t) (pt new_pt : Point.t) :
  nondecreasing (map ImuState.timestamp imu_states) →
  UndistortPoint imu_states pt = Some new_pt →
  undistorted_by imu_states pt new_pt.
Proof.
  intros Hs Hpt.
  assert (brackets imu_states (Point.time pt)) as Hbr
    by (apply UndistortPoint_is_Some; [done|by eexists]).
  destruct (lower_bound_neighbours imu_states (Point.time pt) Hs Hbr)
    as (a & b & Ha & Hb & H1 & Hat & Htb).
  unfold UndistortPoint in Hpt. cbv zeta in Hpt. case_decide; [|done].
  rewrite Ha, Hb in Hpt. cbn [mbind option_bind] in Hpt. injection Hpt as <-.
  exists (lower_bound ImuState.timestamp imu_states (Point.time pt) - 1)%nat, a, b.
  split; [done|]. split.
  { by replace (S (lower_bound ImuState.timestamp imu_states (Point.time pt) - 1))
      with (lower_bound ImuState.timestamp imu_states (Point.time pt)) by lia. }
  split; [done|]. split; [done|]. cbv zeta.
  destruct (factor_range _ _ _ Hat Htb) as [Hpos Hle].
  split; [done|]. split; [done|]. done.
Qed.

(** X2.  On a dense trajectory whose stamps do not decrease, when
    [UndistortSweep] returns it returns one point for each point of the
    sweep, in the same order and with the same stamp, moved by the pose
    interpolated between the two consecutive imu states that bracket its
    stamp, with a weight in (0, 1] (so the division in the weight is by a
    positive difference of stamps). *)
Theorem UndistortSweep_interpolates (sweep_in sweep_out : list Point.t)
    (imu_states : list ImuState.t) :
  nondecreasing (map ImuState.timestamp imu_states) →
  UndistortSweep sweep_in imu_states = Some sweep_out →
  Forall2 (undistorted_by imu_states) sweep_in sweep_out.
Proof.
  intros Hs Hout. unfold UndistortSweep in Hout. apply mapM_Some in Hout.
  induction Hout as [|pt new_pt sweep_in sweep_out Hpt _ IH]; constructor; [|done].
  by apply UndistortPoint_undistorted.
Qed.

Lemma UpdateSurfelPose_is_Some (imu_states : list ImuState.t) (surfel : Surfel.t) :
  nondecreasing (map ImuState.timestamp imu_states) →
  is_Some (UpdateSurfelPose imu_states surfel)
  ↔ brackets imu_states (Surfel.timestamp surfel).
Proof.
  intros Hs. pose proof (lower_bound_brackets imu_states (Surfel.timestamp surfel) Hs) as Hbr.
  cbv zeta in Hbr.
  destruct (lower_bound_sorted ImuState.timestamp imu_states (Surfel.timestamp surfel) Hs)
    as [Hle _].
  unfold UpdateSurfelPose. cbv zeta. case_decide as Hidx.
  - destruct (lookup_lt_is_Some_2 imu_states
                (lower_bound ImuState.timestamp imu_states (Surfel.timestamp surfel) - 1))
      as [a ->]; [lia|].
    destruct (lookup_lt_is_Some_2 imu_states
                (lower_bound ImuState.timestamp imu_states (Surfel.timestamp surfel)))
      as [b ->]; [lia|].
    cbn [mbind option_bind]. split; [intros _; apply Hbr; lia|by eexists].
  - split; [by intros [? [=]]|]. intros H. apply Hbr in H. lia.
Qed.

(** X3.  On a dense trajectory whose stamps do not decrease,
    [UpdateSurfelPoses] returns exactly when every surfel is stamped after
    the first imu state and not after the last, and then returns as many
    surfels as it was given; a surfel stamped as the first imu state
    aborts it. *)
Theorem UpdateSurfelPoses_returns_iff (imu_states : list ImuState.t)
    (surfels : list Surfel.t) :
  nondecreasing (map ImuState.timestamp imu_states) →
  (is_Some (UpdateSurfelPoses imu_states surfels)
   ↔ Forall (λ u, brackets imu_states (Surfel.timestamp u)) surfels)
  ∧ (∀ surfels', UpdateSurfelPoses imu_states surfels = Some surfels' →
                 length surfels' = length surfels)
  ∧ (∀ f u rest, front imu_states = Some f →
                 Surfel.timestamp u = ImuState.timestamp f →
                 UpdateSurfelPoses imu_states (u :: rest) = None).
Proof.
  intros Hs. split; [|split].
  - unfold UpdateSurfelPoses. rewrite mapM_is_Some.
    apply Forall_iff. intros u. by apply UpdateSurfelPose_is_Some.
  - intros surfels' H. by apply length_mapM in H.
  - intros f u rest Hf Hu. unfold UpdateSurfelPoses.
    apply mapM_None. apply Exists_cons_hd. apply eq_None_not_Some.
    rewrite (UpdateSurfelPose_is_Some imu_states u Hs).
    intros (f' & b & Hf' & _ & Hlt & _). rewrite Hf in Hf'. injection Hf' as <-.
    rewrite Hu in Hlt. by apply Qclt_irrefl in Hlt.
Qed.

End Undistortion.

Lemma settled_imus_nondecreasing :
  nondecreasing (map ImuState.timestamp Demo.settled_imus).
Proof. repeat constructor; vm_compute; discriminate. Qed.

Lemma UndistortSweep_returns_iff_witness :
  is_Some (UndistortSweep (E := RefExternals) Cases.sweep Demo.settled_imus)
  ↔ Forall (λ pt, brackets Demo.settled_imus (Point.time pt)) Cases.sweep.
Proof.
  apply (UndistortSweep_returns_iff (E := RefExternals)).
  repeat constructor; vm_compute; discriminate.
Defined.

Lemma UndistortSweep_interpolates_witness :
  Forall2 (undistorted_by (E := RefExternals) Demo.settled_imus) Cases.sweep
    (default [] (UndistortSweep (E := RefExternals) Cases.sweep Demo.settled_imus)).
Proof.
  apply (UndistortSweep_interpolates (E := RefExternals)).
  - repeat constructor; vm_compute; discriminate.
  - vm_compute. reflexivity.
Defined.

Lemma UpdateSurfelPoses_returns_iff_witness :
  (is_Some (UpdateSurfelPoses (E := RefExternals) Demo.settled_imus Cases.surfels)
   ↔ Forall (λ u, brackets Demo.settled_imus (Surfel.timestamp u)) Cases.surfels)
  ∧ (∀ surfels',
       UpdateSurfelPoses (E := RefExternals) Demo.settled_imus Cases.surfels
       = Some surfels' →
       length surfels' = length Cases.surfels)
  ∧ (∀ f u rest, front Demo.settled_imus = Some f →
                 Surfel.timestamp u = ImuState.timestamp f →
                 UpdateSurfelPoses (E := RefExternals) Demo.settled_imus (u :: rest)
                 = None).
Proof.
  apply (UpdateSurfelPoses_returns_iff (E := RefExternals)).
  repeat constructor; vm_compute; discriminate.
Defined.

(** The sweep of the example is undistorted; with its first point moved to
    0.05, the stamp of the first imu state, the check aborts. *)
Example UndistortSweep_demo :
  map Point.time
    (default [] (UndistortSweep (E := RefExternals) Cases.sweep Demo.settled_imus))
  = map Point.time Cases.sweep
  ∧ UndistortSweep (E := RefExternals) (Demo.point 0.05 :: Cases.sweep)
      Demo.settled_imus = None.
Proof. split; vm_compute; reflexivity. Qed.

(** ** Ingest of a scan *)

Lemma nondecreasing_snoc {A} (key : A → double) (l : list A) (x : A) :
  nondecreasing (map key l) →
  (∀ b, back l = Some b → key b <= key x) →
  nondecreasing (map key (l ++ [x])).
Proof.
  unfold nondecreasing. induction l as [|y l IH]; intros Hs Hb.
  - simpl. repeat constructor.
  - simpl in Hs. apply Sorted_inv in Hs as [Hs Hhd]. simpl. constructor.
    + apply IH; [done|]. intros b Hl. apply Hb. unfold back in *.
      destruct l; [done|]. by rewrite last_cons_cons.
    + destruct l as [|z l]; simpl.
      * constructor. apply Hb. done.
      * constructor. by apply HdRel_inv in Hhd.
Qed.

Section Ingest.
Context `{E : Externals}.

Lemma AddLidarScan_ingest_filter (config : Config) (msg : list Point.t) :
  ∀ points_buff points_buff',
    AddLidarScan_ingest config msg points_buff = Some points_buff' →
    points_buff'
    = points_buff ++ filter (in_range config) (map (to_imu_frame config) msg).
Proof.
  induction msg as [|pt msg IH]; intros points_buff points_buff'.
  - simpl. intros [= <-]. by rewrite app_nil_r.
  - cbn [AddLidarScan_ingest map]. cbv zeta. fold (to_imu_frame config pt).
    destruct (match back points_buff with
              | Some b => Point.time b <=? Point.time (to_imu_frame config pt)
              | None => true
              end); [|done].
    destruct (_ || _) eqn:Hdrop.
    + intros H. apply IH in H. rewrite filter_cons_False; [done|].
      unfold in_range. rewrite Hdrop. simpl. tauto.
    + intros H. apply IH in H. rewrite filter_cons_True
        by (unfold in_range; rewrite Hdrop; exact I).
      unfold push_back in H. by rewrite <- app_assoc in H.
Qed.

(** X4.  When the ingest loop of [AddLidarScan] returns, the point buffer
    is what it was, followed by the points of the scan moved to the imu
    frame, in the order of the scan and with their stamps, less those whose
    range is below [min_range] or above [max_range] or which lie in the
    blind box: no such point enters the buffer, and nothing already in the
    buffer changes. *)
Theorem AddLidarScan_ingest_appends_in_range (config : Config) (msg : list Point.t)
    (points_buff points_buff' : list Point.t) :
  AddLidarScan_ingest config msg points_buff = Some points_buff' →
  ∃ kept,
    points_buff' = points_buff ++ kept
    ∧ kept = filter (in_range config) (map (to_imu_frame config) msg)
    ∧ Forall (λ pt, min_range config <= norm (Point.getVector3fMap pt)
                    ∧ norm (Point.getVector3fMap pt) <= max_range config
                    ∧ contains (blind_bounding_box config) (Point.getVector3fMap pt)
                      = false) kept.
Proof.
  intros H. apply AddLidarScan_ingest_filter in H.
  eexists. split; [exact H|]. split; [done|].
  apply list.Forall_forall. intros pt Hpt. apply list_elem_of_filter in Hpt as [Hin _].
  unfold in_range in Hin. apply Is_true_true, negb_true_iff in Hin.
  apply orb_false_elim in Hin as [Hin Hbox].
  apply orb_false_elim in Hin as [Hmin Hmax].
  split; [by apply Qcltb_false|]. split; [by apply Qcltb_false|done].
Qed.

(** X5.  The ingest loop keeps the stamps of the point buffer in
    nondecreasing order: every point is checked against the back of the
    buffer before it is pushed. *)
Theorem AddLidarScan_ingest_nondecreasing (config : Config) (msg : list Point.t)
    (points_buff points_buff' : list Point.t) :
  nondecreasing (map Point.time points_buff) →
  AddLidarScan_ingest config msg points_buff = Some points_buff' →
  nondecreasing (map Point.time points_buff').
Proof.
  revert points_buff. induction msg as [|pt msg IH]; intros points_buff Hs.
  - simpl. by intros [= <-].
  - cbn [AddLidarScan_ingest]. cbv zeta.
    destruct (back points_buff) as [b|] eqn:Hb.
    + destruct (Point.time b <=? _) eqn:Hle; [|done].
      apply bool_decide_eq_true in Hle.
      destruct (_ || _); [by apply IH|].
      apply IH. unfold push_back. apply nondecreasing_snoc; [done|].
      intros b' Hb'. rewrite Hb in Hb'. by injection Hb' as <-.
    + destruct (_ || _); [by apply IH|].
      apply IH. unfold push_back. apply nondecreasing_snoc; [done|].
      intros b' Hb'. by rewrite Hb in Hb'.
Qed.

Lemma AddLidarScan_ingest_accepts (config : Config) (msg : list Point.t) :
  StronglySorted Qcle (map Point.time msg) →
  ∀ points_buff,
    (∀ b, back points_buff = Some b → Forall (λ pt, Point.time b <= Point.time pt) msg) →
    is_Some (AddLidarScan_ingest config msg points_buff).
Proof.
  induction msg as [|pt msg IH]; intros Hs points_buff Hb; [by eexists|].
  simpl in Hs. apply StronglySorted_inv in Hs as [Hs Hpt].
  cbn [AddLidarScan_ingest]. cbv zeta.
  assert (match back points_buff with
          | Some b =>
              Point.time b
              <=? Point.time (Point.mk (rapply (ext_lidar2imu config) (Point.getVector3fMap pt))
                                       (Point.time pt))
          | None => true
          end = true) as ->.
  { destruct (back points_buff) as [b|] eqn:Hback; [|done].
    apply bool_decide_eq_true. cbn [Point.time].
    by apply (Forall_inv (Hb b eq_refl)). }
  destruct (_ || _).
  - apply IH; [done|]. intros b Hback. by apply (Forall_inv_tail (Hb b Hback)).
  - apply IH; [done|]. intros b Hback. unfold push_back, back in Hback.
    rewrite last_snoc in Hback. injection Hback as <-. cbn [Point.time].
    by rewrite Forall_map in Hpt.
Qed.

(** X6.  A scan whose stamps do not decrease and whose points are not
    stamped before the back of the point buffer is always accepted: the
    check of the ingest loop does not fire, whichever of its points the
    filter drops. *)
Theorem AddLidarScan_ingest_returns (config : Config) (msg : list Point.t)
    (points_buff : list Point.t) :
  nondecreasing (map Point.time msg) →
  (∀ b, back points_buff = Some b → Forall (λ pt, Point.time b <= Point.time pt) msg) →
  AddLidarScan_ingest config msg points_buff
  = Some (points_buff ++ filter (in_range config) (map (to_imu_frame config) msg)).
Proof.
  intros Hs Hb.
  destruct (AddLidarScan_ingest_accepts config msg (nondecreasing_strong _ Hs)
              points_buff Hb) as [points_buff' H].
  rewrite H. f_equal. by apply AddLidarScan_ingest_filter.
Qed.

End Ingest.

Lemma AddLidarScan_ingest_appends_in_range_witness :
  ∃ kept,
    [Demo.point 0] ++ [Point.mk (Vec3 1 0 0) 0; Point.mk (Vec3 0 2 0) 1]
    = [Demo.point 0] ++ kept
    ∧ kept = filter (in_range Demo.config) (map (to_imu_frame Demo.config) Demo.scan)
    ∧ Forall (λ pt, min_range Demo.config
                    <= norm (Externals := RefExternals) (Point.getVector3fMap pt)
                    ∧ norm (Externals := RefExternals) (Point.getVector3fMap pt)
                      <= max_range Demo.config
                    ∧ contains (blind_bounding_box Demo.config) (Point.getVector3fMap pt)
                      = false) kept.
Proof.
  apply (AddLidarScan_ingest_appends_in_range (E := RefExternals) Demo.config Demo.scan).
  vm_compute. reflexivity.
Defined.

Lemma AddLidarScan_ingest_nondecreasing_witness :
  nondecreasing
    (map Point.time ([Demo.point 0] ++ [Point.mk (Vec3 1 0 0) 0; Point.mk (Vec3 0 2 0) 1])).
Proof.
  apply (AddLidarScan_ingest_nondecreasing (E := RefExternals) Demo.config Demo.scan
           [Demo.point 0]).
  - repeat constructor.
  - vm_compute. reflexivity.
Defined.

Lemma AddLidarScan_ingest_returns_witness :
  AddLidarScan_ingest (E := RefExternals) Demo.config Demo.scan [Demo.point 0]
  = Some ([Demo.point 0]
          ++ filter (in_range Demo.config) (map (to_imu_frame Demo.config) Demo.scan)).
Proof.
  apply (AddLidarScan_ingest_returns (E := RefExternals)).
  - repeat constructor; vm_compute; discriminate.
  - intros b [= <-]. repeat constructor; vm_compute; discriminate.
Defined.

(** ** Window trimmer: what is dropped *)

Lemma back_cons_cons {A} (x y : A) (l : list A) : back (x :: y :: l) = back (y :: l).
Proof. unfold back. by rewrite last_cons_cons. Qed.

Lemma ShrinkToFit_samples_dropped window_duration sample_states kept :
  ShrinkToFit_samples window_duration sample_states = Some kept →
  ∃ dropped b,
    sample_states = dropped ++ kept
    ∧ back sample_states = Some b ∧ back kept = Some b
    ∧ Forall (λ s, window_duration < SampleState.timestamp b - SampleState.timestamp s)
        dropped.
Proof.
  induction sample_states as [|f rest IH]; [done|].
  cbn [ShrinkToFit_samples].
  destruct (back (f :: rest)) as [b|] eqn:Hb; cbn [mbind option_bind]; [|done].
  destruct (_ <? _) eqn:Hspan.
  - intros H. destruct rest as [|g rest]; [done|].
    rewrite back_cons_cons in Hb.
    destruct (IH H) as (dropped & b' & Hd & Hb' & Hk & Hall).
    rewrite Hb in Hb'. injection Hb' as <-.
    exists (f :: dropped), b. rewrite Hd at 1. split; [done|].
    split; [done|]. split; [done|].
    constructor; [by apply Qcltb_true|done].
  - intros [= <-]. exists [], b. split; [done|]. split; [done|]. split; [done|constructor].
Qed.

Lemma ShrinkToFit_suffixes (sample_states : list SampleState.t)
    (imu_states : list ImuState.t) (surfels : list Surfel.t)
    (window_duration : double)
    (sample_states' : list SampleState.t) (imu_states' : list ImuState.t)
    (surfels' : list Surfel.t) :
  ShrinkToFit sample_states imu_states surfels window_duration
  = Some (sample_states', imu_states', surfels') →
  ∃ samples_dropped imus_dropped surfels_dropped,
    sample_states = samples_dropped ++ sample_states'
    ∧ imu_states = imus_dropped ++ imu_states'
    ∧ surfels = surfels_dropped ++ surfels'.
Proof.
  unfold ShrinkToFit.
  destruct (front sample_states) as [f|]; [|by intros [= <- <- <-]; exists [], [], []].
  destruct (back sample_states) as [b|]; [|by intros [= <- <- <-]; exists [], [], []].
  destruct (_ <=? _); [by intros [= <- <- <-]; exists [], [], []|].
  destruct (ShrinkToFit_samples window_duration sample_states) as [kept|] eqn:Hs;
    cbn [mbind option_bind]; [|done].
  apply ShrinkToFit_samples_suffix in Hs as [ds Hds].
  destruct (front kept) as [sf|]; cbn [mbind option_bind]; [|done].
  pose proof (pop_front_before_cases ImuState.timestamp (SampleState.timestamp sf)
                imu_states) as Hi.
  destruct (pop_front_before ImuState.timestamp _ imu_states) as [imus|];
    cbn [mbind option_bind]; [|done].
  destruct Hi as (di & i & Hdi & _ & Hif & _). rewrite Hif. cbn [mbind option_bind].
  pose proof (pop_front_before_cases Surfel.timestamp (ImuState.timestamp i) surfels) as Hu.
  destruct (pop_front_before Surfel.timestamp _ surfels) as [sus|];
    cbn [mbind option_bind]; [|done].
  destruct Hu as (du & u & Hdu & _).
  intros [= <- <- <-]. by exists ds, di, du.
Qed.

Ltac nothing_dropped :=
  intros [= <- <- <-]; exists [], [], [];
  repeat split; first [by constructor | congruence].

(** X7.  [ShrinkToFit] only pops fronts, and only what is too old.  When it
    returns, each deque is what it was less a prefix; the latest sample
    state is kept; every sample state dropped is more than
    [window_duration] older than the latest one; every imu state dropped is
    older than the sample state now in front; every surfel dropped is older
    than the imu state now in front. *)
Theorem ShrinkToFit_drops_only_old (sample_states : list SampleState.t)
    (imu_states : list ImuState.t) (surfels : list Surfel.t)
    (window_duration : double)
    (sample_states' : list SampleState.t) (imu_states' : list ImuState.t)
    (surfels' : list Surfel.t) :
  ShrinkToFit sample_states imu_states surfels window_duration
  = Some (sample_states', imu_states', surfels') →
  ∃ samples_dropped imus_dropped surfels_dropped,
    sample_states = samples_dropped ++ sample_states'
    ∧ imu_states = imus_dropped ++ imu_states'
    ∧ surfels = surfels_dropped ++ surfels'
    ∧ back sample_states' = back sample_states
    ∧ (∀ b, back sample_states = Some b →
            Forall (λ s, window_duration
                         < SampleState.timestamp b - SampleState.timestamp s)
              samples_dropped)
    ∧ (∀ f, front sample_states' = Some f →
            Forall (λ i, ImuState.timestamp i < SampleState.timestamp f) imus_dropped)
    ∧ (∀ f, front imu_states' = Some f →
            Forall (λ u, Surfel.timestamp u < ImuState.timestamp f) surfels_dropped).
Proof.
  unfold ShrinkToFit.
  destruct (front sample_states) as [f|] eqn:Hf; [|nothing_dropped].
  destruct (back sample_states) as [b|] eqn:Hb; [|nothing_dropped].
  destruct (_ <=? _); [nothing_dropped|].
  destruct (ShrinkToFit_samples window_duration sample_states) as [kept|] eqn:Hs;
    cbn [mbind option_bind]; [|done].
  apply ShrinkToFit_samples_dropped in Hs as (ds & b' & Hds & Hb' & Hkb & Hall).
  rewrite Hb in Hb'. injection Hb' as <-.
  destruct (front kept) as [sf|] eqn:Hsf; cbn [mbind option_bind]; [|done].
  pose proof (pop_front_before_cases ImuState.timestamp (SampleState.timestamp sf)
                imu_states) as Hi.
  destruct (pop_front_before ImuState.timestamp _ imu_states) as [imus|];
    cbn [mbind option_bind]; [|done].
  destruct Hi as (di & i & Hdi & Hialls & Hif & _). rewrite Hif. cbn [mbind option_bind].
  pose proof (pop_front_before_cases Surfel.timestamp (ImuState.timestamp i) surfels) as Hu.
  destruct (pop_front_before Surfel.timestamp _ surfels) as [sus|];
    cbn [mbind option_bind]; [|done].
  destruct Hu as (du & u & Hdu & Hualls & _ & _).
  intros [= <- <- <-]. exists ds, di, du.
  split; [done|]. split; [done|]. split; [done|]. split; [done|].
  split; [by intros ? [= <-]|].
  split; [intros ? Hf'; rewrite Hsf in Hf'; by injection Hf' as <-|].
  intros ? Hf'. rewrite Hif in Hf'. by injection Hf' as <-.
Qed.

Lemma ShrinkToFit_drops_only_old_witness :
  ∃ samples_dropped imus_dropped surfels_dropped,
    Demo.long_samples = samples_dropped ++ [Demo.sample 0.5; Demo.sample 1; Demo.sample 1.5]
    ∧ Demo.long_imus = imus_dropped ++ [Demo.imu_state 0.8; Demo.imu_state 1.5]
    ∧ Demo.long_surfels = surfels_dropped ++ [Demo.surfel 0.9; Demo.surfel 1.2]
    ∧ back [Demo.sample 0.5; Demo.sample 1; Demo.sample 1.5] = back Demo.long_samples
    ∧ (∀ b, back Demo.long_samples = Some b →
            Forall (λ s, 1 < SampleState.timestamp b - SampleState.timestamp s)
              samples_dropped)
    ∧ (∀ f, front [Demo.sample 0.5; Demo.sample 1; Demo.sample 1.5] = Some f →
            Forall (λ i, ImuState.timestamp i < SampleState.timestamp f) imus_dropped)
    ∧ (∀ f, front [Demo.imu_state 0.8; Demo.imu_state 1.5] = Some f →
            Forall (λ u, Surfel.timestamp u < ImuState.timestamp f) surfels_dropped).
Proof.
  apply (ShrinkToFit_drops_only_old Demo.long_samples Demo.long_imus Demo.long_surfels 1).
  reflexivity.
Defined.

(** ** Residual assembly: one block for each correspondence *)

Lemma upper_bound_inside (sample_states : list SampleState.t) (t : double) :
  nondecreasing (map SampleState.timestamp sample_states) →
  let k := upper_bound SampleState.timestamp sample_states t in
  (k ≠ 0 ∧ k ≠ length sample_states)%nat ↔ inside_window sample_states t.
Proof.
  intros Hs k. destruct (upper_bound_sorted SampleState.timestamp sample_states t Hs)
    as [Hle Hsplit]. fold k in Hle, Hsplit.
  unfold inside_window. rewrite front_lookup, back_lookup. split.
  - intros [H0 Hn].
    destruct (lookup_lt_is_Some_2 sample_states 0) as [f Hf]; [lia|].
    destruct (lookup_lt_is_Some_2 sample_states (length sample_states - 1)) as [b Hb];
      [lia|].
    exists f, b. split; [done|]. split; [done|]. split.
    + apply (Hsplit _ _ Hf). lia.
    + apply Qcnot_le_lt. rewrite (Hsplit _ _ Hb). lia.
  - intros (f & b & Hf & Hb & Hft & Htb).
    apply (Hsplit _ _ Hf) in Hft. split; [lia|].
    assert (¬ (length sample_states - 1 < k)%nat) as Hnot.
    { rewrite <- (Hsplit _ _ Hb). by apply Qclt_not_le. }
    apply lookup_lt_Some in Hb. lia.
Qed.

Lemma BuildLidarResiduals_body_block (sample_states : list SampleState.t)
    (c : SurfelCorrespondence) (problem problem' : Problem) (ids ids' : list nat) :
  BuildLidarResiduals_body sample_states c problem ids = Some (problem', ids') →
  ∃ b,
    residual_blocks problem' = residual_blocks problem ++ [b]
    ∧ lidar_block_for sample_states c b
    ∧ parameterizations problem' = parameterizations problem
    ∧ ids' = ids ++ [length (residual_blocks problem)].
Proof.
  unfold BuildLidarResiduals_body. cbv zeta.
  destruct (_ <? _); [|done].
  set (i1 := upper_bound SampleState.timestamp sample_states (Surfel.timestamp (s1 c))).
  set (i2 := upper_bound SampleState.timestamp sample_states (Surfel.timestamp (s2 c))).
  destruct (decide (i1 = 0%nat)) as [|H10]; [done|].
  destruct (decide (i1 = length sample_states)) as [|H1n]; [done|].
  destruct (sample_states !! (i1 - 1)%nat) as [sp1l|] eqn:H1l; cbn [mbind option_bind]; [|done].
  destruct (sample_states !! i1) as [sp1r|] eqn:H1r; cbn [mbind option_bind]; [|done].
  destruct (decide (i2 = 0%nat)) as [|H20]; [done|].
  destruct (decide (i2 = length sample_states)) as [|H2n]; [done|].
  destruct (sample_states !! (i2 - 1)%nat) as [sp2l|] eqn:H2l; cbn [mbind option_bind]; [|done].
  destruct (sample_states !! i2) as [sp2r|] eqn:H2r; cbn [mbind option_bind]; [|done].
  rewrite bool_decide_eq_false_2 by (intros [?|[?|[?|?]]]; done).
  apply lookup_lt_Some in H1l, H1r, H2l, H2r.
  unfold AddResidualBlock, push_back.
  destruct (_ <? _); [|destruct (_ =? _)]; intros [= <- <-];
    (eexists; split; [reflexivity|]; split; [|done]);
    (split; [done|]; split; [by repeat eexists|]);
    cbn [parameter_blocks]; repeat constructor; done.
Qed.

(** X8.  When [BuildLidarResiduals] returns, it has added to the problem
    exactly one residual block for each correspondence, in their order (the
    branch that skips a correspondence is never taken: the checks before it
    abort first); each block carries the lidar factor of its correspondence
    with Cauchy loss of scale 0.4 and refers to sample states of the
    window; the blocks and parameterizations the problem already had are
    untouched, and [residual_ids] receives the identifiers of the new
    blocks. *)
Theorem BuildLidarResiduals_one_block_each (sample_states : list SampleState.t)
    (surfel_corrs : list SurfelCorrespondence) (problem problem' : Problem)
    (residual_ids residual_ids' : list nat) :
  BuildLidarResiduals sample_states surfel_corrs problem residual_ids
  = Some (problem', residual_ids') →
  ∃ added,
    residual_blocks problem' = residual_blocks problem ++ added
    ∧ Forall2 (lidar_block_for sample_states) surfel_corrs added
    ∧ parameterizations problem' = parameterizations problem
    ∧ residual_ids'
      = residual_ids ++ seq (length (residual_blocks problem)) (length surfel_corrs).
Proof.
  revert problem residual_ids.
  induction surfel_corrs as [|c corrs IH]; intros problem ids.
  - simpl. intros [= <- <-]. exists []. rewrite !app_nil_r. by repeat split.
  - cbn [BuildLidarResiduals].
    destruct (BuildLidarResiduals_body sample_states c problem ids) as [[p1 ids1]|] eqn:Hbody;
      cbn [mbind option_bind]; [|done].
    apply BuildLidarResiduals_body_block in Hbody as (b & Hb & Hfor & Hpar & Hids).
    intros H. apply IH in H as (added & Hadd & Hall & Hpar' & Hids').
    exists (b :: added). rewrite Hadd, Hb, Hpar', Hpar, Hids', Hids, Hb.
    rewrite <- !app_assoc, length_app. simpl.
    replace (length (residual_blocks problem) + 1)%nat
      with (S (length (residual_blocks problem))) by lia.
    split; [done|]. split; [by constructor|]. done.
Qed.

Lemma BuildLidarResiduals_body_is_Some (sample_states : list SampleState.t)
    (c : SurfelCorrespondence) (problem : Problem) (ids : list nat) :
  nondecreasing (map SampleState.timestamp sample_states) →
  is_Some (BuildLidarResiduals_body sample_states c problem ids)
  ↔ Surfel.timestamp (s1 c) < Surfel.timestamp (s2 c)
    ∧ inside_window sample_states (Surfel.timestamp (s1 c))
    ∧ inside_window sample_states (Surfel.timestamp (s2 c)).
Proof.
  intros Hs.
  pose proof (upper_bound_inside sample_states (Surfel.timestamp (s1 c)) Hs) as Hin1.
  pose proof (upper_bound_inside sample_states (Surfel.timestamp (s2 c)) Hs) as Hin2.
  destruct (upper_bound_sorted SampleState.timestamp sample_states
              (Surfel.timestamp (s1 c)) Hs) as [Hle1 _].
  destruct (upper_bound_sorted SampleState.timestamp sample_states
              (Surfel.timestamp (s2 c)) Hs) as [Hle2 _].
  cbv zeta in Hin1, Hin2.
  unfold BuildLidarResiduals_body. cbv zeta.
  set (i1 := upper_bound SampleState.timestamp sample_states (Surfel.timestamp (s1 c))) in *.
  set (i2 := upper_bound SampleState.timestamp sample_states (Surfel.timestamp (s2 c))) in *.
  destruct (_ <? _) eqn:Hlt.
  2:{ apply Qcltb_false in Hlt. split; [by intros [? [=]]|].
      intros [Hlt' _]. by destruct (Qcle_not_lt _ _ Hlt Hlt'). }
  apply Qcltb_true in Hlt.
  destruct (decide (i1 = 0%nat)) as [H10|H10].
  { split; [by intros [? [=]]|]. intros (_ & H & _). apply Hin1 in H. lia. }
  destruct (decide (i1 = length sample_states)) as [H1n|H1n].
  { split; [by intros [? [=]]|]. intros (_ & H & _). apply Hin1 in H. lia. }
  destruct (lookup_lt_is_Some_2 sample_states (i1 - 1)) as [sp1l ->]; [lia|].
  destruct (lookup_lt_is_Some_2 sample_states i1) as [sp1r ->]; [lia|].
  cbn [mbind option_bind].
  destruct (decide (i2 = 0%nat)) as [H20|H20].
  { split; [by intros [? [=]]|]. intros (_ & _ & H). apply Hin2 in H. lia. }
  destruct (decide (i2 = length sample_states)) as [H2n|H2n].
  { split; [by intros [? [=]]|]. intros (_ & _ & H). apply Hin2 in H. lia. }
  destruct (lookup_lt_is_Some_2 sample_states (i2 - 1)) as [sp2l ->]; [lia|].
  destruct (lookup_lt_is_Some_2 sample_states i2) as [sp2r ->]; [lia|].
  cbn [mbind option_bind].
  split.
  - intros _. split; [done|]. split; [by apply Hin1|by apply Hin2].
  - intros _. destruct (bool_decide _); [by eexists|].
    destruct (_ <? _); [|destruct (_ =? _)]; by eexists.
Qed.

(** X9.  On a sample window whose stamps do not decrease,
    [BuildLidarResiduals] returns exactly when every correspondence has
    [s1] stamped before [s2] and both stamps inside the window, not before
    its first sample state and before its last; a correspondence out of
    order, or with a surfel stamped as the latest sample state or later,
    aborts the assembly. *)
Theorem BuildLidarResiduals_returns_iff (sample_states : list SampleState.t)
    (surfel_corrs : list SurfelCorrespondence) (problem : Problem)
    (residual_ids : list nat) :
  nondecreasing (map SampleState.timestamp sample_states) →
  is_Some (BuildLidarResiduals sample_states surfel_corrs problem residual_ids)
  ↔ Forall (λ c, Surfel.timestamp (s1 c) < Surfel.timestamp (s2 c)
                 ∧ inside_window sample_states (Surfel.timestamp (s1 c))
                 ∧ inside_window sample_states (Surfel.timestamp (s2 c)))
      surfel_corrs.
Proof.
  intros Hs. revert problem residual_ids.
  induction surfel_corrs as [|c corrs IH]; intros problem ids.
  - simpl. split; [constructor|by eexists].
  - cbn [BuildLidarResiduals]. rewrite list.Forall_cons.
    rewrite <- (BuildLidarResiduals_body_is_Some sample_states c problem ids Hs).
    destruct (BuildLidarResiduals_body sample_states c problem ids) as [[p1 ids1]|];
      cbn [mbind option_bind].
    + rewrite IH. split; [by intros H; split; [eexists|]|by intros [_ H]].
    + split; [by intros [? [=]]|]. by intros [[? [=]] _].
Qed.

Lemma BuildLidarResiduals_one_block_each_witness :
  ∃ added,
    [ mkResidualBlock (SurfelMatchBinaryFactor 0 Demo.corr_disjoint 0 1 2 3)
        (CauchyLoss (lit 0.4)) [0; 1; 2; 3]%nat;
      mkResidualBlock (SurfelMatchBinaryFactor 1 Demo.corr_adjacent 0 1 1 2)
        (CauchyLoss (lit 0.4)) [0; 1; 2]%nat;
      mkResidualBlock (SurfelMatchBinaryFactor 2 Demo.corr_overlapping 0 1 0 1)
        (CauchyLoss (lit 0.4)) [0; 1]%nat ]
    = residual_blocks EmptyProblem ++ added
    ∧ Forall2 (lidar_block_for Demo.window_samples)
        [Demo.corr_disjoint; Demo.corr_adjacent; Demo.corr_overlapping] added
    ∧ [] = parameterizations EmptyProblem
    ∧ [0; 1; 2]%nat
      = [] ++ seq (length (residual_blocks EmptyProblem))
                (length [Demo.corr_disjoint; Demo.corr_adjacent; Demo.corr_overlapping]).
Proof.
  apply (BuildLidarResiduals_one_block_each Demo.window_samples
           [Demo.corr_disjoint; Demo.corr_adjacent; Demo.corr_overlapping]
           EmptyProblem
           (mkProblem
              [ mkResidualBlock (SurfelMatchBinaryFactor 0 Demo.corr_disjoint 0 1 2 3)
                  (CauchyLoss (lit 0.4)) [0; 1; 2; 3]%nat;
                mkResidualBlock (SurfelMatchBinaryFactor 1 Demo.corr_adjacent 0 1 1 2)
                  (CauchyLoss (lit 0.4)) [0; 1; 2]%nat;
                mkResidualBlock (SurfelMatchBinaryFactor 2 Demo.corr_overlapping 0 1 0 1)
                  (CauchyLoss (lit 0.4)) [0; 1]%nat ] [])
           [] [0; 1; 2]%nat).
  vm_compute. reflexivity.
Defined.

Lemma BuildLidarResiduals_returns_iff_witness :
  is_Some (BuildLidarResiduals Demo.window_samples
             [Demo.corr_disjoint; Demo.corr_adjacent; Demo.corr_overlapping]
             EmptyProblem [])
  ↔ Forall (λ c, Surfel.timestamp (s1 c) < Surfel.timestamp (s2 c)
                 ∧ inside_window Demo.window_samples (Surfel.timestamp (s1 c))
                 ∧ inside_window Demo.window_samples (Surfel.timestamp (s2 c)))
      [Demo.corr_disjoint; Demo.corr_adjacent; Demo.corr_overlapping].
Proof.
  apply BuildLidarResiduals_returns_iff.
  repeat constructor; vm_compute; discriminate.
Defined.

(** A surfel stamped as the latest sample state of the window aborts the
    assembly. *)
Example BuildLidarResiduals_latest_demo :
  BuildLidarResiduals Demo.window_samples
    [mkCorr (Demo.surfel 0.05) (Demo.surfel 0.4)] EmptyProblem [] = None.
Proof. vm_compute. reflexivity. Qed.

(** ** Corrector: what [UpdateImuPoses] changes *)

Lemma same_readings_refl (s : ImuState.t) : same_readings s s.
Proof. by repeat split. Qed.

Lemma same_readings_set_pose (s s' : ImuState.t) p r :
  same_readings s s' → same_readings s (ImuState.set_pose p r s').
Proof. by intros (? & ? & ?). Qed.

Lemma same_readings_insert (orig new : list ImuState.t) (i : nat) s' p r :
  Forall2 same_readings orig new →
  new !! i = Some s' →
  Forall2 same_readings orig (<[i := ImuState.set_pose p r s']> new).
Proof.
  intros Hall Hi.
  destruct (Forall2_lookup_r _ _ _ _ _ Hall Hi) as (s & Hs & Hrel).
  rewrite <- (list_insert_id orig i s Hs).
  apply Forall2_insert; [done|]. by apply same_readings_set_pose.
Qed.

Section ImuFrame.
Context `{E : Externals}.

Lemma UpdateImuPoses_correct_readings (orig : list ImuState.t) corrector (n : nat) :
  ∀ i new first last new' first' last',
    UpdateImuPoses_correct n corrector i new first last = Some (new', first', last') →
    Forall2 same_readings orig new →
    Forall2 same_readings orig new'.
Proof.
  induction n as [|n IH]; intros i new first last new' first' last'.
  - by intros [= <- <- <-].
  - cbn [UpdateImuPoses_correct].
    destruct (new !! i) as [s|] eqn:Hs; cbn [mbind option_bind]; [|done].
    destruct (GetCorr corrector _) as [[[rc pc]|]|]; cbn [mbind option_bind]; [| |done].
    + intros H Hall. eapply IH; [exact H|]. by apply same_readings_insert.
    + intros H Hall. by eapply IH.
Qed.

Lemma UpdateImuPoses_relative_insert (old new new' : list ImuState.t) (i : nat) (j : Z) :
  UpdateImuPoses_relative old new i j = Some new' →
  ∃ s' p r, new !! i = Some s' ∧ new' = <[i := ImuState.set_pose p r s']> new.
Proof.
  unfold UpdateImuPoses_relative.
  destruct (old !! i); cbn [mbind option_bind]; [|done].
  destruct (at_ old j); cbn [mbind option_bind]; [|done].
  destruct (at_ new j); cbn [mbind option_bind]; [|done].
  destruct (new !! i) as [s'|]; cbn [mbind option_bind]; [|done].
  intros [= <-]. by eexists _, _, _.
Qed.

Lemma UpdateImuPoses_relative_readings (orig old new new' : list ImuState.t) i j :
  UpdateImuPoses_relative old new i j = Some new' →
  Forall2 same_readings orig new → Forall2 same_readings orig new'.
Proof.
  intros H Hall. apply UpdateImuPoses_relative_insert in H as (s' & p & r & Hi & ->).
  by apply same_readings_insert.
Qed.

Lemma UpdateImuPoses_heading_readings (orig old : list ImuState.t) (n : nat) :
  ∀ new new',
    UpdateImuPoses_heading n old new = Some new' →
    Forall2 same_readings orig new → Forall2 same_readings orig new'.
Proof.
  induction n as [|n IH]; intros new new'; [by intros [= <-]|].
  cbn [UpdateImuPoses_heading].
  destruct (UpdateImuPoses_relative old new n _) as [new1|] eqn:Hrel;
    cbn [mbind option_bind]; [|done].
  intros H Hall. eapply IH; [exact H|]. by eapply UpdateImuPoses_relative_readings.
Qed.

Lemma UpdateImuPoses_tailing_readings (orig old : list ImuState.t) (n : nat) :
  ∀ i new new',
    UpdateImuPoses_tailing n i old new = Some new' →
    Forall2 same_readings orig new → Forall2 same_readings orig new'.
Proof.
  induction n as [|n IH]; intros i new new'; [by intros [= <-]|].
  cbn [UpdateImuPoses_tailing].
  destruct (UpdateImuPoses_relative old new i _) as [new1|] eqn:Hrel;
    cbn [mbind option_bind]; [|done].
  intros H Hall. eapply IH; [exact H|]. by eapply UpdateImuPoses_relative_readings.
Qed.

Lemma UpdateImuPoses_keeps_readings_lemma (sample_states : list SampleState.t)
    (imu_states imu_states' : list ImuState.t) :
  UpdateImuPoses sample_states imu_states = Some imu_states' →
  Forall2 same_readings imu_states imu_states'.
Proof.
  intros H. unfold UpdateImuPoses in H. cbv zeta in H.
  destruct (UpdateImuPoses_correct _ _ _ _ _ _) as [[[new first] last]|] eqn:Hc;
    cbn [mbind option_bind] in H; [|done].
  apply (UpdateImuPoses_correct_readings imu_states) in Hc;
    [|apply Forall2_same_length_lookup_2; [done|]; intros i x y Hx Hy;
      rewrite Hx in Hy; injection Hy as <-; apply same_readings_refl].
  destruct (first =? -1)%Z; [by injection H as <-|].
  destruct (UpdateImuPoses_heading _ _ _) as [new1|] eqn:Hh;
    cbn [mbind option_bind] in H; [|done].
  apply (UpdateImuPoses_heading_readings imu_states) in Hh; [|done].
  by apply (UpdateImuPoses_tailing_readings imu_states) in H.
Qed.

(** X10.  [UpdateImuPoses] changes poses only: when it returns, the imu
    deque has as many states as before, each with the stamp, the
    acceleration and the angular rate it had. *)
Theorem UpdateImuPoses_keeps_readings (sample_states : list SampleState.t)
    (imu_states imu_states' : list ImuState.t) :
  UpdateImuPoses sample_states imu_states = Some imu_states' →
  length imu_states' = length imu_states
  ∧ Forall2 same_readings imu_states imu_states'.
Proof.
  intros H. apply UpdateImuPoses_keeps_readings_lemma in H.
  split; [|done]. symmetry. by eapply Forall2_length.
Qed.

End ImuFrame.

(** ** Corrector: the imu states inside and outside the spline support *)

(** Equality of evaluated values, up to the proofs that their scalars are
    in lowest terms. *)
Ltac canonical :=
  repeat match goal with
         | |- @eq Qc _ _ => apply Qc_is_canon; reflexivity
         | |- _ => progress f_equal
         end.

(** The list of the goal, evaluated. *)
Ltac evaluated :=
  match goal with
  | |- nondecreasing ?l =>
      let v := eval vm_compute in l in
      replace l with v by (vm_compute; reflexivity)
  | |- Forall _ ?l =>
      let v := eval vm_compute in l in
      replace l with v by (vm_compute; reflexivity)
  end.

Section ImuSupport.
Context `{E : Externals}.
Variable corrector : CubicBSplineSampleCorrector.
Variable orig : list ImuState.t.

Lemma corrected_upto_start : corrected_upto corrector orig orig 0 (-1) (-1).
Proof.
  split; [done|]. split; [done|]. split; [intros j s Hj; lia|by left].
Qed.

Lemma corrected_upto_skip new i first last s :
  corrected_upto corrector orig new i first last →
  orig !! i = Some s →
  GetCorr corrector (ImuState.timestamp s) = Some None →
  corrected_upto corrector orig new (S i) first last.
Proof.
  intros (Hlen & Hrest & Hdone & Hrange) Hs Hnone.
  split; [done|]. split; [intros j Hj; apply Hrest; lia|]. split.
  - intros j sj Hj Hsj. destruct (decide (j = i)) as [->|Hne].
    + rewrite Hs in Hsj. injection Hsj as <-. rewrite Hnone.
      rewrite Hrest by lia. done.
    + apply Hdone; [lia|done].
  - destruct Hrange as [?|(? & ? & ?)]; [by left|right]. split; [done|]. split; [lia|done].
Qed.

Lemma corrected_upto_correct new i first last s rot_cor pos_cor :
  corrected_upto corrector orig new i first last →
  orig !! i = Some s →
  GetCorr corrector (ImuState.timestamp s) = Some (Some (rot_cor, pos_cor)) →
  corrected_upto corrector orig
    (<[i := spline_corrected rot_cor pos_cor s]> new) (S i)
    (if (first =? -1)%Z then Z.of_nat i else first) (Z.of_nat i).
Proof.
  intros (Hlen & Hrest & Hdone & Hrange) Hs Hcor.
  assert (i < length new)%nat as Hi by (rewrite Hlen; by eapply lookup_lt_Some).
  split; [by rewrite length_insert|]. split.
  { intros j Hj. rewrite list_lookup_insert_ne by lia. apply Hrest. lia. }
  split.
  - intros j sj Hj Hsj. destruct (decide (j = i)) as [->|Hne].
    + rewrite Hs in Hsj. injection Hsj as <-. rewrite Hcor.
      rewrite list_lookup_insert_eq by done. split; [done|].
      destruct (first =? -1)%Z eqn:Hf; [lia|].
      destruct Hrange as [->|(? & ? & _)]; [done|lia].
    + specialize (Hdone j sj ltac:(lia) Hsj).
      destruct (GetCorr corrector (ImuState.timestamp sj)) as [[[rc pc]|]|]; [| |done].
      * rewrite list_lookup_insert_ne by done.
        destruct Hdone as (Hnew & Hfirst & Hlast). split; [done|].
        destruct (first =? -1)%Z eqn:Hf; lia.
      * by rewrite list_lookup_insert_ne.
  - right. assert (corrected_at corrector orig (Z.of_nat i)) as Hat.
    { exists s, rot_cor, pos_cor. by rewrite Nat2Z.id. }
    destruct (first =? -1)%Z eqn:Hf; [split; [lia|]; split; [lia|done]|].
    destruct Hrange as [->|(? & ? & Hfirst & _)]; [done|].
    split; [lia|]. split; [lia|done].
Qed.

Lemma UpdateImuPoses_correct_upto (n : nat) :
  ∀ i new first last new' first' last',
    UpdateImuPoses_correct n corrector i new first last = Some (new', first', last') →
    corrected_upto corrector orig new i first last →
    corrected_upto corrector orig new' (i + n) first' last'.
Proof.
  induction n as [|n IH]; intros i new first last new' first' last'.
  - intros [= <- <- <-]. by rewrite Nat.add_0_r.
  - cbn [UpdateImuPoses_correct]. intros H Hinv.
    destruct (new !! i) as [s|] eqn:Hs; cbn [mbind option_bind] in H; [|done].
    assert (orig !! i = Some s) as Hos.
    { destruct Hinv as (_ & Hrest & _). by rewrite <- Hrest. }
    replace (i + S n)%nat with (S i + n)%nat by lia.
    destruct (GetCorr corrector (ImuState.timestamp s)) as [[[rc pc]|]|] eqn:Hcor;
      cbn [mbind option_bind] in H; [| |done].
    + eapply IH; [exact H|]. by apply (corrected_upto_correct new i first last).
    + eapply IH; [exact H|]. by eapply corrected_upto_skip.
Qed.

Lemma UpdateImuPoses_correct_total (n : nat) :
  ∀ i new first last,
    (i + n <= length orig)%nat →
    corrected_upto corrector orig new i first last →
    Forall (λ s, is_Some (GetCorr corrector (ImuState.timestamp s))) orig →
    is_Some (UpdateImuPoses_correct n corrector i new first last).
Proof.
  induction n as [|n IH]; intros i new first last Hi Hinv Hall; [by eexists|].
  cbn [UpdateImuPoses_correct].
  destruct (lookup_lt_is_Some_2 orig i) as [s Hos]; [lia|].
  assert (new !! i = Some s) as ->.
  { destruct Hinv as (_ & Hrest & _). by rewrite Hrest. }
  cbn [mbind option_bind].
  destruct (Forall_lookup_1 _ _ _ _ Hall Hos) as [[[rc pc]|] Hcor];
    rewrite Hcor; cbn [mbind option_bind].
  - apply IH; [lia| |done]. by apply (corrected_upto_correct new i first last).
  - apply IH; [lia| |done]. by eapply corrected_upto_skip.
Qed.

Lemma UpdateImuPoses_correct_checked (n : nat) :
  ∀ i new first last,
    (i + n = length orig)%nat →
    corrected_upto corrector orig new i first last →
    is_Some (UpdateImuPoses_correct n corrector i new first last) →
    Forall (λ s, is_Some (GetCorr corrector (ImuState.timestamp s))) orig.
Proof.
  intros i new first last Hi Hinv [[[new' first'] last'] H].
  apply (UpdateImuPoses_correct_upto n) in H; [|done].
  destruct H as (_ & _ & Hdone & _).
  apply Forall_lookup_2. intros j s Hs.
  specialize (Hdone j s ltac:(apply lookup_lt_Some in Hs; lia) Hs).
  destruct (GetCorr corrector (ImuState.timestamp s)); [by eexists|done].
Qed.

Lemma UpdateImuPoses_relative_frame (old new new' : list ImuState.t) (i : nat) (j : Z) :
  UpdateImuPoses_relative old new i j = Some new' →
  length new' = length new ∧ ∀ k, k ≠ i → new' !! k = new !! k.
Proof.
  intros H. apply UpdateImuPoses_relative_insert in H as (s' & p & r & _ & ->).
  split; [by rewrite length_insert|]. intros k Hk. by rewrite list_lookup_insert_ne.
Qed.

Lemma UpdateImuPoses_relative_total (old new : list ImuState.t) (i : nat) (j : Z) :
  length new = length old →
  (i < length old)%nat → (0 <= j < Z.of_nat (length old))%Z →
  is_Some (UpdateImuPoses_relative old new i j).
Proof.
  intros Hlen Hi Hj. unfold UpdateImuPoses_relative, at_.
  destruct (Z.ltb_spec j 0) as [?|_]; [lia|].
  destruct (lookup_lt_is_Some_2 old i Hi) as [? ->].
  destruct (lookup_lt_is_Some_2 old (Z.to_nat j)) as [? ->]; [lia|].
  destruct (lookup_lt_is_Some_2 new (Z.to_nat j)) as [? ->]; [lia|].
  destruct (lookup_lt_is_Some_2 new i) as [? ->]; [lia|].
  by eexists.
Qed.

Lemma UpdateImuPoses_heading_frame (old : list ImuState.t) (n : nat) :
  ∀ new new',
    UpdateImuPoses_heading n old new = Some new' →
    length new' = length new ∧ ∀ k, (n <= k)%nat → new' !! k = new !! k.
Proof.
  induction n as [|n IH]; intros new new'; [by intros [= <-]|].
  cbn [UpdateImuPoses_heading].
  destruct (UpdateImuPoses_relative old new n _) as [new1|] eqn:Hrel;
    cbn [mbind option_bind]; [|done].
  apply UpdateImuPoses_relative_frame in Hrel as [Hlen1 Hsame1].
  intros H. apply IH in H as [Hlen Hsame]. split; [congruence|].
  intros k Hk. rewrite Hsame by lia. apply Hsame1. lia.
Qed.

Lemma UpdateImuPoses_tailing_frame (old : list ImuState.t) (n : nat) :
  ∀ i new new',
    UpdateImuPoses_tailing n i old new = Some new' →
    length new' = length new ∧ ∀ k, (k < i)%nat → new' !! k = new !! k.
Proof.
  induction n as [|n IH]; intros i new new'; [by intros [= <-]|].
  cbn [UpdateImuPoses_tailing].
  destruct (UpdateImuPoses_relative old new i _) as [new1|] eqn:Hrel;
    cbn [mbind option_bind]; [|done].
  apply UpdateImuPoses_relative_frame in Hrel as [Hlen1 Hsame1].
  intros H. apply IH in H as [Hlen Hsame]. split; [congruence|].
  intros k Hk. rewrite Hsame by lia. apply Hsame1. lia.
Qed.

Lemma UpdateImuPoses_heading_total (old : list ImuState.t) (n : nat) :
  ∀ new, length new = length old → (n < length old)%nat →
         is_Some (UpdateImuPoses_heading n old new).
Proof.
  induction n as [|n IH]; intros new Hlen Hn; [by eexists|].
  cbn [UpdateImuPoses_heading].
  destruct (UpdateImuPoses_relative_total old new n (Z.of_nat n + 1) Hlen)
    as [new1 Hrel]; [lia..|].
  rewrite Hrel. cbn [mbind option_bind].
  apply UpdateImuPoses_relative_frame in Hrel as [Hlen1 _].
  apply IH; [congruence|lia].
Qed.

Lemma UpdateImuPoses_tailing_total (old : list ImuState.t) (n : nat) :
  ∀ i new, length new = length old → (1 <= i)%nat → (i + n <= length old)%nat →
           is_Some (UpdateImuPoses_tailing n i old new).
Proof.
  induction n as [|n IH]; intros i new Hlen Hi Hn; [by eexists|].
  cbn [UpdateImuPoses_tailing].
  destruct (UpdateImuPoses_relative_total old new i (Z.of_nat i - 1) Hlen)
    as [new1 Hrel]; [lia..|].
  rewrite Hrel. cbn [mbind option_bind].
  apply UpdateImuPoses_relative_frame in Hrel as [Hlen1 _].
  apply IH; [congruence|lia..].
Qed.

End ImuSupport.

Section ImuSupportProperties.
Context `{E : Externals}.

(** X11.  When [UpdateImuPoses] returns, every imu state at whose stamp
    [GetCorr] gives a correction carries exactly that correction,
    [rot <- Exp (rot_cor) * rot] and [pos <- pos_cor + pos]: the two loops
    that extend the correction to the head and the tail of the deque leave
    the states inside the support of the spline alone. *)
Theorem UpdateImuPoses_corrects_support (sample_states : list SampleState.t)
    (imu_states imu_states' : list ImuState.t) (i : nat) (s : ImuState.t)
    (rot_cor pos_cor : Vector3d) :
  UpdateImuPoses sample_states imu_states = Some imu_states' →
  imu_states !! i = Some s →
  GetCorr (NewCorrector sample_states) (ImuState.timestamp s)
  = Some (Some (rot_cor, pos_cor)) →
  imu_states' !! i = Some (spline_corrected rot_cor pos_cor s).
Proof.
  intros H Hs Hcor. unfold UpdateImuPoses in H. cbv zeta in H.
  destruct (UpdateImuPoses_correct _ _ _ _ _ _) as [[[new first] last]|] eqn:Hc;
    cbn [mbind option_bind] in H; [|done].
  apply (UpdateImuPoses_correct_upto (NewCorrector sample_states) imu_states) in Hc;
    [|apply corrected_upto_start].
  destruct Hc as (Hlen & _ & Hdone & Hrange).
  specialize (Hdone i s ltac:(apply lookup_lt_Some in Hs; lia) Hs).
  rewrite Hcor in Hdone. destruct Hdone as (Hnew & Hfirst & Hlast).
  destruct (first =? -1)%Z eqn:Hf; [lia|].
  destruct (UpdateImuPoses_heading _ _ _) as [new1|] eqn:Hh;
    cbn [mbind option_bind] in H; [|done].
  apply UpdateImuPoses_heading_frame in Hh as [Hlen1 Hsame1].
  apply UpdateImuPoses_tailing_frame in H as [_ Hsame].
  rewrite Hsame by lia. rewrite Hsame1 by lia. done.
Qed.

(** X12.  When [GetCorr] gives no correction at the stamp of any imu state
    (the trajectory lies outside the support of the spline),
    [UpdateImuPoses] returns the imu deque as it was given. *)
Theorem UpdateImuPoses_outside_support (sample_states : list SampleState.t)
    (imu_states : list ImuState.t) :
  Forall (λ s, GetCorr (NewCorrector sample_states) (ImuState.timestamp s) = Some None)
    imu_states →
  UpdateImuPoses sample_states imu_states = Some imu_states.
Proof.
  intros Hall. unfold UpdateImuPoses. cbv zeta.
  assert (∀ n i, (i + n <= length imu_states)%nat →
                 UpdateImuPoses_correct n (NewCorrector sample_states) i imu_states
                   (-1) (-1)
                 = Some (imu_states, (-1)%Z, (-1)%Z)) as Hloop.
  { induction n as [|n IH]; intros i Hi; [done|].
    cbn [UpdateImuPoses_correct].
    destruct (lookup_lt_is_Some_2 imu_states i) as [s Hs]; [lia|].
    rewrite Hs. cbn [mbind option_bind].
    rewrite (Forall_lookup_1 _ _ _ _ Hall Hs). cbn [mbind option_bind].
    apply IH. lia. }
  rewrite Hloop by lia. done.
Qed.

(** X13.  [UpdateImuPoses] returns exactly when [GetCorr] returns at the
    stamp of every imu state, that is, when its two interpolators agree
    there on whether the stamp is in their support; the check "Interpolation
    failed" is its only way to abort. *)
Theorem UpdateImuPoses_returns_iff (sample_states : list SampleState.t)
    (imu_states : list ImuState.t) :
  is_Some (UpdateImuPoses sample_states imu_states)
  ↔ Forall (λ s, is_Some (GetCorr (NewCorrector sample_states) (ImuState.timestamp s)))
      imu_states.
Proof.
  unfold UpdateImuPoses. cbv zeta. split.
  - intros [imu_states' H].
    apply (UpdateImuPoses_correct_checked (NewCorrector sample_states) imu_states (length imu_states) 0 imu_states
             (-1) (-1)); [lia|apply corrected_upto_start|].
    destruct (UpdateImuPoses_correct _ _ _ _ _ _); [by eexists|done].
  - intros Hall.
    destruct (UpdateImuPoses_correct_total (NewCorrector sample_states) imu_states (length imu_states) 0 imu_states
                (-1) (-1)) as [[[new first] last] Hc];
      [lia|apply corrected_upto_start|done|].
    rewrite Hc. cbn [mbind option_bind].
    apply (UpdateImuPoses_correct_upto (NewCorrector sample_states) imu_states) in Hc; [|apply corrected_upto_start].
    destruct Hc as (Hlen & _ & _ & Hrange).
    destruct (first =? -1)%Z eqn:Hf; [by eexists|].
    destruct Hrange as [->|(Hfirst & Hlast & _)]; [done|].
    destruct (UpdateImuPoses_heading_total imu_states (Z.to_nat first) new Hlen)
      as [new1 Hh]; [lia|].
    rewrite Hh. cbn [mbind option_bind].
    apply UpdateImuPoses_heading_frame in Hh as [Hlen1 _].
    apply UpdateImuPoses_tailing_total; [congruence|lia|lia].
Qed.

End ImuSupportProperties.

Lemma UpdateImuPoses_keeps_readings_witness :
  length Cases.repositioned_imus = length Demo.settled_imus
  ∧ Forall2 same_readings Demo.settled_imus Cases.repositioned_imus.
Proof.
  apply (UpdateImuPoses_keeps_readings (E := RefExternals) Cases.pending_samples).
  vm_compute. reflexivity.
Defined.

Lemma UpdateImuPoses_corrects_support_witness :
  Cases.repositioned_imus !! 1%nat
  = Some (spline_corrected (E := RefExternals) (Vec3 0 0 (lit 4)) (Vec3 1 2 0)
            (Demo.turned 0.15 2)).
Proof.
  apply (UpdateImuPoses_corrects_support (E := RefExternals) Cases.pending_samples
           Demo.settled_imus).
  - vm_compute. reflexivity.
  - reflexivity.
  - vm_compute. canonical.
Defined.

Lemma UpdateImuPoses_outside_support_witness :
  UpdateImuPoses (E := RefExternals) [Demo.sample 0; Demo.sample 0.1] Demo.settled_imus
  = Some Demo.settled_imus.
Proof.
  apply (UpdateImuPoses_outside_support (E := RefExternals)).
  repeat constructor.
Defined.

(** With the same correction pending on six sample states, the three imu
    states inside the support of the spline are corrected by it, and the
    first and the last, outside the support, follow their neighbour
    rigidly: they move too. *)
Example UpdateImuPoses_demo :
  map (λ s, Qred (this (vx (ImuState.pos s)))) Cases.repositioned_imus
  = map (λ s, Qred (this (vx (ImuState.pos s)))) Demo.settled_imus
  → False.
Proof. vm_compute. discriminate. Qed.

(** ** Corrector: the imu states before and after the spline support *)

Section ImuRigid.
Context `{E : Externals}.

Lemma UpdateImuPoses_relative_spec (old new new' : list ImuState.t) (i : nat) (j : Z) :
  UpdateImuPoses_relative old new i j = Some new' →
  ∃ old_j new_j new_i,
    at_ old j = Some old_j ∧ at_ new j = Some new_j ∧ new !! i = Some new_i
    ∧ ∀ old_i, old !! i = Some old_i →
        new' = <[i := ImuState.set_pose
                         (ImuState.pos (rigidly_attached old_i old_j new_j))
                         (ImuState.rot (rigidly_attached old_i old_j new_j)) new_i]> new.
Proof.
  unfold UpdateImuPoses_relative.
  destruct (old !! i) as [old_i|]; cbn [mbind option_bind]; [|done].
  destruct (at_ old j) as [old_j|]; cbn [mbind option_bind]; [|done].
  destruct (at_ new j) as [new_j|]; cbn [mbind option_bind]; [|done].
  destruct (new !! i) as [new_i|]; cbn [mbind option_bind]; [|done].
  intros [= <-]. exists old_j, new_j, new_i. do 3 (split; [done|]).
  by intros ? [= <-].
Qed.

Lemma rigidly_attached_set_pose (s_i old_j new_j : ImuState.t) :
  ImuState.set_pose (ImuState.pos (rigidly_attached s_i old_j new_j))
    (ImuState.rot (rigidly_attached s_i old_j new_j)) s_i
  = rigidly_attached s_i old_j new_j.
Proof. done. Qed.

(** After the second loop, a state before the first corrected one carries
    the pose it had relative to its successor. *)
Lemma UpdateImuPoses_heading_spec (old : list ImuState.t) (n : nat) :
  ∀ new new',
    UpdateImuPoses_heading n old new = Some new' →
    ∀ i old_i old_j new_j,
      (i < n)%nat →
      old !! i = Some old_i → new !! i = Some old_i →
      old !! S i = Some old_j → new' !! S i = Some new_j →
      new' !! i = Some (rigidly_attached old_i old_j new_j).
Proof.
  induction n as [|n IH]; intros new new' H i old_i old_j new_j Hi Hoi Hni Hoj Hnj; [lia|].
  cbn [UpdateImuPoses_heading] in H.
  destruct (UpdateImuPoses_relative old new n _) as [new1|] eqn:Hrel;
    cbn [mbind option_bind] in H; [|done].
  pose proof (UpdateImuPoses_relative_frame _ _ _ _ _ Hrel) as [Hlen1 Hsame1].
  pose proof (UpdateImuPoses_heading_frame _ _ _ _ H) as [Hlen Hsame].
  destruct (decide (i = n)) as [->|Hne].
  - apply UpdateImuPoses_relative_spec in Hrel
      as (old_j' & new_j' & new_i & Hoj' & Hnj' & Hni' & Hnew1).
    rewrite at_nat in Hoj', Hnj' by lia.
    replace (Z.to_nat (Z.of_nat n + 1)) with (S n) in Hoj', Hnj' by lia.
    rewrite Hoj in Hoj'. injection Hoj' as <-.
    rewrite Hni in Hni'. injection Hni' as <-.
    rewrite Hsame in Hnj by lia. rewrite Hsame1 in Hnj by lia.
    rewrite Hnj in Hnj'. injection Hnj' as <-.
    rewrite Hsame by lia. rewrite (Hnew1 old_i Hoi).
    rewrite list_lookup_insert_eq by (by eapply lookup_lt_Some).
    by rewrite rigidly_attached_set_pose.
  - apply (IH new1 new' H i old_i old_j new_j); [lia|done| |done|done].
    rewrite Hsame1 by done. done.
Qed.

(** After the third loop, a state after the last corrected one carries
    the pose it had relative to its predecessor. *)
Lemma UpdateImuPoses_tailing_spec (old : list ImuState.t) (n : nat) :
  ∀ i0 new new',
    UpdateImuPoses_tailing n i0 old new = Some new' →
    ∀ i old_i old_j new_j,
      (i0 <= i < i0 + n)%nat → (1 <= i)%nat →
      old !! i = Some old_i → new !! i = Some old_i →
      old !! (i - 1)%nat = Some old_j → new' !! (i - 1)%nat = Some new_j →
      new' !! i = Some (rigidly_attached old_i old_j new_j).
Proof.
  induction n as [|n IH]; intros i0 new new' H i old_i old_j new_j Hi H1 Hoi Hni Hoj Hnj;
    [lia|].
  cbn [UpdateImuPoses_tailing] in H.
  destruct (UpdateImuPoses_relative old new i0 _) as [new1|] eqn:Hrel;
    cbn [mbind option_bind] in H; [|done].
  pose proof (UpdateImuPoses_relative_frame _ _ _ _ _ Hrel) as [Hlen1 Hsame1].
  pose proof (UpdateImuPoses_tailing_frame _ _ _ _ _ H) as [Hlen Hsame].
  destruct (decide (i = i0)) as [->|Hne].
  - apply UpdateImuPoses_relative_spec in Hrel
      as (old_j' & new_j' & new_i & Hoj' & Hnj' & Hni' & Hnew1).
    rewrite at_nat in Hoj', Hnj' by lia.
    replace (Z.to_nat (Z.of_nat i0 - 1)) with (i0 - 1)%nat in Hoj', Hnj' by lia.
    rewrite Hoj in Hoj'. injection Hoj' as <-.
    rewrite Hni in Hni'. injection Hni' as <-.
    rewrite Hsame in Hnj by lia. rewrite Hsame1 in Hnj by lia.
    rewrite Hnj in Hnj'. injection Hnj' as <-.
    rewrite Hsame by lia. rewrite (Hnew1 old_i Hoi).
    rewrite list_lookup_insert_eq by (by eapply lookup_lt_Some).
    by rewrite rigidly_attached_set_pose.
  - apply (IH (S i0) new1 new' H i old_i old_j new_j); [lia|done|done| |done|done].
    rewrite Hsame1 by done. done.
Qed.

(** X23.  When [UpdateImuPoses] returns and [GetCorr] has given a
    correction at the stamp of some imu state: an imu state before every
    corrected state gets the pose [old_i * old_j.inverse() * new_j], with
    [j = i + 1] its successor, [old] the poses before the call and [new]
    after it; and an imu state after every corrected state gets that pose
    with [j = i - 1] its predecessor.  So outside the support of the spline
    the trajectory is moved along with its corrected part. *)
Theorem UpdateImuPoses_extends_rigidly (sample_states : list SampleState.t)
    (imu_states imu_states' : list ImuState.t)
    (k : nat) (s_k : ImuState.t) (rot_cor pos_cor : Vector3d) :
  UpdateImuPoses sample_states imu_states = Some imu_states' →
  imu_states !! k = Some s_k →
  GetCorr (NewCorrector sample_states) (ImuState.timestamp s_k)
  = Some (Some (rot_cor, pos_cor)) →
  (∀ i s_i old_j new_j,
     (∀ j s_j, (j <= i)%nat → imu_states !! j = Some s_j →
               GetCorr (NewCorrector sample_states) (ImuState.timestamp s_j) = Some None) →
     imu_states !! i = Some s_i →
     imu_states !! S i = Some old_j → imu_states' !! S i = Some new_j →
     imu_states' !! i = Some (rigidly_attached s_i old_j new_j))
  ∧ (∀ i s_i old_j new_j,
       (∀ j s_j, (i <= j)%nat → imu_states !! j = Some s_j →
                 GetCorr (NewCorrector sample_states) (ImuState.timestamp s_j) = Some None) →
       imu_states !! i = Some s_i →
       imu_states !! (i - 1)%nat = Some old_j → imu_states' !! (i - 1)%nat = Some new_j →
       imu_states' !! i = Some (rigidly_attached s_i old_j new_j)).
Proof.
  intros H Hk Hcor. unfold UpdateImuPoses in H. cbv zeta in H.
  destruct (UpdateImuPoses_correct _ _ _ _ _ _) as [[[new first] last]|] eqn:Hc;
    cbn [mbind option_bind] in H; [|done].
  apply (UpdateImuPoses_correct_upto (NewCorrector sample_states) imu_states) in Hc;
    [|apply corrected_upto_start].
  destruct Hc as (Hlen & _ & Hdone & Hrange).
  pose proof (Hdone k s_k ltac:(apply lookup_lt_Some in Hk; lia) Hk) as Hdk.
  rewrite Hcor in Hdk. destruct Hdk as (_ & Hfirstk & Hlastk).
  destruct (first =? -1)%Z eqn:Hf; [lia|].
  destruct Hrange as [->|(Hfl & Hlast & (sf & rcf & pcf & Hsf & Hcf)
                          & (sl & rcl & pcl & Hsl & Hcl))]; [done|].
  destruct (UpdateImuPoses_heading _ _ _) as [new1|] eqn:Hh;
    cbn [mbind option_bind] in H; [|done].
  pose proof (UpdateImuPoses_heading_frame _ _ _ _ Hh) as [Hlen1 Hsame1].
  pose proof (UpdateImuPoses_tailing_frame _ _ _ _ _ H) as [Hlen' Hsame'].
  assert (∀ i s_i, imu_states !! i = Some s_i →
                   GetCorr (NewCorrector sample_states) (ImuState.timestamp s_i)
                   = Some None →
                   new !! i = Some s_i) as Hkept.
  { intros i s_i Hi Hnone.
    specialize (Hdone i s_i ltac:(apply lookup_lt_Some in Hi; lia) Hi).
    by rewrite Hnone in Hdone. }
  split.
  - intros i s_i old_j new_j Hbefore Hi Hoj Hnj.
    assert (i < Z.to_nat first)%nat as Hif.
    { apply Nat.lt_nge. intros Hle.
      specialize (Hbefore (Z.to_nat first) sf Hle Hsf). congruence. }
    rewrite Hsame' by lia. rewrite Hsame' in Hnj by lia.
    apply (UpdateImuPoses_heading_spec _ _ _ _ Hh i s_i old_j new_j); [done|done| |done|done].
    apply Hkept; [done|]. by apply (Hbefore i).
  - intros i s_i old_j new_j Hafter Hi Hoj Hnj.
    assert (Z.to_nat last < i)%nat as Hli.
    { apply Nat.lt_nge. intros Hle.
      specialize (Hafter (Z.to_nat last) sl Hle Hsl). congruence. }
    apply (UpdateImuPoses_tailing_spec _ _ _ _ _ H i s_i old_j new_j);
      [|lia|done| |done|done].
    + apply lookup_lt_Some in Hi. lia.
    + rewrite Hsame1 by lia. apply Hkept; [done|]. by apply (Hafter i).
Qed.

End ImuRigid.

Lemma UpdateImuPoses_extends_rigidly_witness :
  (∀ i s_i old_j new_j,
     (∀ j s_j, (j <= i)%nat → Demo.settled_imus !! j = Some s_j →
               GetCorr (E := RefExternals) (NewCorrector Cases.pending_samples)
                 (ImuState.timestamp s_j) = Some None) →
     Demo.settled_imus !! i = Some s_i →
     Demo.settled_imus !! S i = Some old_j →
     Cases.repositioned_imus !! S i = Some new_j →
     Cases.repositioned_imus !! i
     = Some (rigidly_attached (E := RefExternals) s_i old_j new_j))
  ∧ (∀ i s_i old_j new_j,
       (∀ j s_j, (i <= j)%nat → Demo.settled_imus !! j = Some s_j →
                 GetCorr (E := RefExternals) (NewCorrector Cases.pending_samples)
                   (ImuState.timestamp s_j) = Some None) →
       Demo.settled_imus !! i = Some s_i →
       Demo.settled_imus !! (i - 1)%nat = Some old_j →
       Cases.repositioned_imus !! (i - 1)%nat = Some new_j →
       Cases.repositioned_imus !! i
       = Some (rigidly_attached (E := RefExternals) s_i old_j new_j)).
Proof.
  apply (UpdateImuPoses_extends_rigidly (E := RefExternals) Cases.pending_samples
           Demo.settled_imus Cases.repositioned_imus 1 (Demo.turned 0.15 2)
           (Vec3 0 0 (lit 4)) (Vec3 1 2 0)).
  - vm_compute. reflexivity.
  - reflexivity.
  - vm_compute. canonical.
Defined.

(** ** Predictor: when it returns, and what it appends *)

Lemma nondecreasing_app_l (l1 l2 : list double) :
  nondecreasing (l1 ++ l2) → nondecreasing l1.
Proof.
  unfold nondecreasing. induction l1 as [|x l1 IH]; [constructor|].
  simpl. intros Hs. apply Sorted_inv in Hs as [Hs Hhd]. constructor; [by apply IH|].
  destruct l1; [constructor|]. simpl in Hhd. apply HdRel_inv in Hhd. by constructor.
Qed.

Lemma records_stamps (consumed : list ImuData.t) (appended : list ImuState.t) :
  Forall2 records consumed appended →
  map ImuState.timestamp appended = map ImuData.timestamp consumed.
Proof.
  induction 1 as [|m s consumed appended (Ht & _) _ IH]; [done|].
  simpl. by rewrite Ht, IH.
Qed.

Lemma rounds_0 : rounds 0 = 0.
Proof. apply Qc_is_canon. reflexivity. Qed.

Section PredictorReturns.
Context `{E : Externals}.

(** Step 2 stops at an imu state at or after [end_time], or at the end of
    the buffer. *)
Lemma Predict_imu_covers dt ba bg grav end_time imu_buff :
  ∀ imu_states rest imu_states',
    Predict_imu dt ba bg grav end_time imu_buff imu_states = Some (rest, imu_states') →
    rest = []
    ∨ ∃ b, back imu_states' = Some b ∧ end_time <= ImuState.timestamp b.
Proof.
  induction imu_buff as [|imu_msg imu_buff IH]; intros imu_states rest imu_states'.
  - intros [= <- <-]. by left.
  - cbn [Predict_imu].
    destruct (Predict_imu_state dt ba bg grav imu_states imu_msg) as [s|];
      cbn [mbind option_bind]; [|done].
    destruct (end_time <=? ImuState.timestamp s) eqn:Hend.
    + intros [= <- <-]. right. exists s. split.
      * unfold back, push_back. by rewrite last_snoc.
      * by apply bool_decide_eq_true in Hend.
    + apply IH.
Qed.

(** Step 3 on a dense trajectory that brackets every stamp it visits. *)
Lemma Predict_samples_brackets config end_time ba bg grav imu_states f b :
  0 < sample_dt config →
  nondecreasing (map ImuState.timestamp imu_states) →
  front imu_states = Some f → back imu_states = Some b →
  end_time <= ImuState.timestamp b →
  ∀ k timestamp sample_states fuel,
    ImuState.timestamp f < timestamp →
    end_time - timestamp <= rounds k * sample_dt config →
    (k < fuel)%nat →
    ∃ added,
      Predict_samples fuel config end_time ba bg grav imu_states timestamp sample_states
      = Some (sample_states ++ added)
      ∧ Forall (λ s, ImuState.timestamp f < SampleState.timestamp s) added.
Proof.
  intros Hdt Hs Hf Hb Hend.
  induction k as [|k IH]; intros timestamp sample_states fuel Hft Hk Hfuel;
    (destruct fuel as [|fuel]; [lia|]); cbn [Predict_samples].
  - assert ((timestamp <? end_time) = false) as ->.
    { apply Qcltb_false. apply Qcle_minus_iff.
      rewrite rounds_0, Qcmult_0_l in Hk. apply Qcopp_le_compat in Hk.
      by replace (- (end_time - timestamp)) with (timestamp + - end_time) in Hk by ring. }
    exists []. by rewrite app_nil_r.
  - destruct (timestamp <? end_time) eqn:Hlt.
    2:{ exists []. by rewrite app_nil_r. }
    apply Qcltb_true in Hlt. cbv zeta.
    assert (brackets imu_states timestamp) as Hbr.
    { exists f, b. split; [done|]. split; [done|]. split; [done|].
      apply Qclt_le_weak. by eapply Qclt_le_trans. }
    pose proof (proj2 (lower_bound_brackets imu_states timestamp Hs) Hbr) as [H1 Hn].
    destruct (lower_bound_neighbours imu_states timestamp Hs Hbr)
      as (sa & sb & Ha & Hsb & _ & Hat & Htb).
    rewrite !decide_False by lia. rewrite Ha, Hsb. cbn [mbind option_bind].
    destruct (factor_range _ _ _ Hat Htb) as [Hpos Hle].
    assert ((0 <=? (timestamp - ImuState.timestamp sa)
                   / (ImuState.timestamp sb - ImuState.timestamp sa)) = true) as ->
      by (apply bool_decide_eq_true; by apply Qclt_le_weak).
    assert (((timestamp - ImuState.timestamp sa)
             / (ImuState.timestamp sb - ImuState.timestamp sa) <=? 1) = true) as ->
      by by apply bool_decide_eq_true.
    cbn [andb].
    edestruct (IH (timestamp + sample_dt config)) as (added & -> & Hall).
    + eapply Qclt_trans; [exact Hft|].
      apply Qclt_minus_iff.
      by replace (timestamp + sample_dt config + - timestamp) with (sample_dt config) by ring.
    + rewrite rounds_S in Hk. apply Qcle_minus_iff. apply Qcle_minus_iff in Hk.
      by replace (rounds k * sample_dt config
                  + - (end_time - (timestamp + sample_dt config)))
        with ((rounds k + 1) * sample_dt config + - (end_time - timestamp)) by ring.
    + apply Nat.succ_lt_mono in Hfuel. exact Hfuel.
    + unfold push_back. rewrite <- app_assoc. eexists. split; [reflexivity|].
      constructor; [done|exact Hall].
Qed.

Lemma Predict_samples_fuel_bound config start end_time :
  0 < sample_dt config →
  end_time - (start + sample_dt config)
  <= rounds (Z.to_nat (Qceiling (this ((end_time - start) / sample_dt config))))
     * sample_dt config.
Proof.
  intros Hdt.
  pose proof (rounds_ceiling ((end_time - start) / sample_dt config)) as Hceil.
  apply (Qcmult_le_compat_r _ _ (sample_dt config)) in Hceil;
    [|by apply Qclt_le_weak].
  replace ((end_time - start) / sample_dt config * sample_dt config)
    with (end_time - start) in Hceil
    by (field; intros H0; rewrite H0 in Hdt; by apply Qclt_irrefl in Hdt).
  apply Qcle_minus_iff. apply Qcle_minus_iff in Hceil.
  match goal with
  | |- 0 <= ?r * ?d + - (?e - (?s + ?d)) =>
      replace (r * d + - (e - (s + d))) with ((r * d + - (e - s)) + d) by ring
  end.
  apply Qcplus_nonneg_nonneg; [done|by apply Qclt_le_weak].
Qed.

(** What step 3 appends, whenever it returns: the first sample state is
    stamped [timestamp], each next one [sample_dt] after the one before it,
    and the loop ends at the first stamp of that sequence that is not before
    [end_time]. *)
Lemma Predict_samples_appended fuel config end_time ba bg grav imu_states :
  ∀ timestamp sample_states sample_states',
    Predict_samples fuel config end_time ba bg grav imu_states timestamp sample_states
    = Some sample_states' →
    ∃ added,
      sample_states' = sample_states ++ added
      ∧ (∀ s, added !! 0%nat = Some s → SampleState.timestamp s = timestamp)
      ∧ (∀ k prev s, added !! k = Some prev → added !! S k = Some s →
                     SampleState.timestamp s
                     = SampleState.timestamp prev + sample_dt config)
      ∧ Forall (λ s, SampleState.timestamp s < end_time
                     ∧ SampleState.ba s = ba ∧ SampleState.bg s = bg
                     ∧ SampleState.grav s = grav
                     ∧ SampleState.data_cor s = DataCorZero) added
      ∧ match back added with
        | Some b => end_time <= SampleState.timestamp b + sample_dt config
        | None => end_time <= timestamp
        end.
Proof.
  induction fuel as [|fuel IH]; intros timestamp sample_states sample_states'; [done|].
  cbn [Predict_samples]. destruct (timestamp <? end_time) eqn:Hlt.
  - apply Qcltb_true in Hlt. cbv zeta.
    set (idx := lower_bound ImuState.timestamp imu_states timestamp).
    repeat case_decide; try done.
    destruct (imu_states !! (idx - 1)%nat) as [a|]; cbn [mbind option_bind]; [|done].
    destruct (imu_states !! idx) as [b|]; cbn [mbind option_bind]; [|done].
    destruct (_ && _); [|done].
    intros Hrec. apply IH in Hrec as (added & -> & Hfirst & Hnext & Hall & Hend).
    unfold push_back. rewrite <- app_assoc. eexists. split; [reflexivity|].
    split; [by intros s [= <-]|]. split; [|split].
    + intros [|k] prev s Hprev Hs; simpl in Hprev, Hs.
      * injection Hprev as <-. by apply Hfirst.
      * by apply (Hnext k).
    + by constructor.
    + unfold back in *. destruct added as [|s0 added]; [exact Hend|].
      cbn [app]. rewrite last_cons_cons.
      destruct (list.last (s0 :: added)) eqn:Hlast; [exact Hend|].
      by apply last_None in Hlast.
  - apply Qcltb_false in Hlt. intros [= <-]. exists []. rewrite app_nil_r.
    split; [done|]. split; [done|]. split; [done|]. split; [constructor|done].
Qed.

End PredictorReturns.

Lemma back_map {A B} (f : A → B) (l : list A) : back (map f l) = option_map f (back l).
Proof.
  unfold back. induction l as [|x l IH]; [done|].
  destruct l as [|y l]; [done|]. simpl map in *. by rewrite !last_cons_cons.
Qed.

Lemma front_map {A B} (f : A → B) (l : list A) : front (map f l) = option_map f (front l).
Proof. by destruct l. Qed.

Section PredictorProperties.
Context `{E : Externals}.

(** The initialisation step on a ready predictor. *)
Lemma Predict_init_ready (config : Config) (end_time : double) (st : LidarOdometry) :
  predictor_ready end_time st →
  ∃ st1 f latest,
    Predict_init config (1 / imu_rate config) st = Some st1
    ∧ init_sld_win st1 = true
    ∧ (2 <= length (imu_states_sld_win_ st1))%nat
    ∧ map ImuState.timestamp (imu_states_sld_win_ st1)
      ++ map ImuData.timestamp (imu_buff_ st1)
      = map ImuState.timestamp (imu_states_sld_win_ st)
        ++ map ImuData.timestamp (imu_buff_ st)
    ∧ front (imu_states_sld_win_ st1) = Some f
    ∧ back (sample_states_sld_win_ st1) = Some latest
    ∧ ImuState.timestamp f <= SampleState.timestamp latest
    ∧ points_buff_ st1 = points_buff_ st
    ∧ surfels_sld_win_ st1 = surfels_sld_win_ st
    ∧ sync_done st1 = sync_done st.
Proof.
  intros (Hlen & _ & _ & [(Hinit & Himus & Hsamples)|(Hinit & Hlen2 & f & latest & Hf & Hl & Hle)]).
  - destruct (imu_buff_ st) as [|m0 [|m1 rest]] eqn:Hbuf; simpl in Hlen; [lia..|].
    eexists _, _, _. split; [by apply Predict_init_fresh|].
    cbn [init_sld_win imu_states_sld_win_ imu_buff_ sample_states_sld_win_ points_buff_
         surfels_sld_win_ sync_done front back list.head list.last].
    rewrite Himus. split; [done|]. split; [simpl; lia|]. split; [done|].
    split; [done|]. split; [done|]. split; [apply Qcle_refl|done].
  - exists st, f, latest. split; [unfold Predict_init; by rewrite Hinit|]. done.
Qed.

(** X14.  On a ready predictor ([predictor_ready]: an ordered imu stream
    of two messages at least that reaches [end_time], and a window that is
    either fresh or holds two imu states and a latest sample state not
    before the first of them) and with a positive [sample_dt],
    [PredictImuStatesAndSampleStates] returns: none of its checks fires.
    Afterwards the window is initialised and holds two imu states at least;
    the stamps of the imu deque followed by those of the imu buffer are the
    sequence they were (every message consumed has become one imu state, in
    order), so they still do not decrease; the last imu state is at or
    after [end_time]; and the latest sample state is not stamped before the
    first imu state. *)
Theorem Predictor_returns (config : Config) (end_time : double) (st : LidarOdometry) :
  0 < sample_dt config →
  predictor_ready end_time st →
  ∃ st',
    PredictImuStatesAndSampleStates config end_time st = Some st'
    ∧ init_sld_win st' = true
    ∧ (2 <= length (imu_states_sld_win_ st'))%nat
    ∧ map ImuState.timestamp (imu_states_sld_win_ st')
      ++ map ImuData.timestamp (imu_buff_ st')
      = map ImuState.timestamp (imu_states_sld_win_ st)
        ++ map ImuData.timestamp (imu_buff_ st)
    ∧ (∃ b, back (imu_states_sld_win_ st') = Some b
            ∧ end_time <= ImuState.timestamp b)
    ∧ (∃ f latest,
         front (imu_states_sld_win_ st') = Some f
         ∧ back (sample_states_sld_win_ st') = Some latest
         ∧ ImuState.timestamp f <= SampleState.timestamp latest).
Proof.
  intros Hdt Hready.
  destruct (Predict_init_ready config end_time st Hready)
    as (st1 & f & latest & Hinit & Hflag & Hlen1 & Hstamps1 & Hf & Hl & Hfl & _).
  destruct Hready as (Hlen & (m & Hm & Hend) & Hsorted & _).
  unfold PredictImuStatesAndSampleStates. rewrite decide_True by done. cbv zeta.
  rewrite Hinit. cbn [mbind option_bind]. rewrite Hl. cbn [mbind option_bind].
  destruct (Predict_imu_spec (1 / imu_rate config) (SampleState.ba latest)
              (SampleState.bg latest) (SampleState.grav latest) end_time
              (imu_buff_ st1) (imu_states_sld_win_ st1) Hlen1)
    as (consumed & rest & appended & Himu & Hbuf & Hrec & _).
  pose proof (Predict_imu_covers _ _ _ _ _ _ _ _ _ Himu) as Hcover.
  rewrite Himu. cbn [mbind option_bind].
  apply records_stamps in Hrec.
  assert (map ImuState.timestamp (imu_states_sld_win_ st1 ++ appended)
          ++ map ImuData.timestamp rest
          = map ImuState.timestamp (imu_states_sld_win_ st)
            ++ map ImuData.timestamp (imu_buff_ st)) as Hstamps.
  { rewrite <- Hstamps1, Hbuf, !map_app, Hrec. by rewrite <- app_assoc. }
  assert (∃ b, back (imu_states_sld_win_ st1 ++ appended) = Some b
               ∧ end_time <= ImuState.timestamp b) as (b & Hb & Hbend).
  { destruct Hcover as [->|Hcover]; [|done].
    simpl in Hstamps. rewrite app_nil_r in Hstamps.
    assert (back (map ImuState.timestamp (imu_states_sld_win_ st1 ++ appended))
            = Some (ImuData.timestamp m)) as Hlast.
    { rewrite Hstamps. unfold back. rewrite last_app.
      fold (back (map ImuData.timestamp (imu_buff_ st))). by rewrite back_map, Hm. }
    rewrite back_map in Hlast.
    destruct (back (imu_states_sld_win_ st1 ++ appended)) as [b|]; [|done].
    injection Hlast as Hlast. exists b. split; [done|]. by rewrite Hlast. }
  assert (front (imu_states_sld_win_ st1 ++ appended) = Some f) as Hf'.
  { unfold front in *. rewrite head_app. by rewrite Hf. }
  destruct (Predict_samples_brackets config end_time (SampleState.ba latest)
              (SampleState.bg latest) (SampleState.grav latest)
              (imu_states_sld_win_ st1 ++ appended) f b Hdt) with
    (k := Z.to_nat (Qceiling (this ((end_time - SampleState.timestamp latest)
                                    / sample_dt config))))
    (timestamp := SampleState.timestamp latest + sample_dt config)
    (sample_states := sample_states_sld_win_ st1)
    (fuel := Predict_samples_fuel config (SampleState.timestamp latest) end_time)
    as (added & Hsamples & Hadded).
  - apply (nondecreasing_app_l _ (map ImuData.timestamp rest)).
    by rewrite Hstamps.
  - done.
  - done.
  - done.
  - eapply Qcle_lt_trans; [exact Hfl|]. apply Qclt_minus_iff.
    by replace (SampleState.timestamp latest + sample_dt config
                + - SampleState.timestamp latest) with (sample_dt config) by ring.
  - by apply Predict_samples_fuel_bound.
  - unfold Predict_samples_fuel. lia.
  - rewrite Hsamples. cbn [mbind option_bind]. eexists. split; [reflexivity|].
    cbn [init_sld_win imu_states_sld_win_ imu_buff_ sample_states_sld_win_].
    split; [done|]. split; [rewrite length_app; lia|]. split; [done|].
    split; [by exists b|]. exists f.
    destruct (back added) as [la|] eqn:Hla.
    + exists la. split; [done|]. split.
      * unfold back in *. rewrite last_app. by rewrite Hla.
      * apply Qclt_le_weak. apply last_Some in Hla as [added' ->].
        apply Forall_app in Hadded as [_ Hadded]. by apply Forall_inv in Hadded.
    + exists latest. split; [done|]. split; [|done].
      unfold back in *. rewrite last_app. by rewrite Hla.
Qed.

(** X15.  Whenever [PredictImuStatesAndSampleStates] returns, the sample
    states it has appended after the initialisation step follow the sample
    state that was the latest at steps of [sample_dt], as the loop variable
    does: the first is stamped [sample_dt] after that sample state, each
    next one [sample_dt] after the one before it; all of them are stamped
    before [end_time] and carry the biases and the gravity of that sample
    state and a zero correction block.  The loop stops at the first stamp
    that is not before [end_time] and nowhere earlier: [sample_dt] after the
    last sample state of the window is not before [end_time].  The sample
    states that were in the window are untouched.  (The sums are those the
    code forms, [sample_states_oldtime + sample_dt] and
    [timestamp += sample_dt]; it rounds each of them, so the statement fixes
    the stamps step by step and no count of steps.) *)
Theorem Predictor_extends_samples (config : Config) (end_time : double)
    (st st' : LidarOdometry) :
  PredictImuStatesAndSampleStates config end_time st = Some st' →
  ∃ st1 latest added,
    Predict_init config (1 / imu_rate config) st = Some st1
    ∧ back (sample_states_sld_win_ st1) = Some latest
    ∧ sample_states_sld_win_ st' = sample_states_sld_win_ st1 ++ added
    ∧ (∀ k prev s, (latest :: added) !! k = Some prev → added !! k = Some s →
                   extends_samples config end_time latest prev s)
    ∧ (∀ b, back (latest :: added) = Some b →
            end_time <= SampleState.timestamp b + sample_dt config).
Proof.
  unfold PredictImuStatesAndSampleStates. case_decide; [|done]. cbv zeta.
  destruct (Predict_init config _ st) as [st1|] eqn:Hinit; cbn [mbind option_bind]; [|done].
  destruct (back (sample_states_sld_win_ st1)) as [latest|] eqn:Hl;
    cbn [mbind option_bind]; [|done].
  destruct (Predict_imu _ _ _ _ _ _ _) as [[buf imus]|]; cbn [mbind option_bind]; [|done].
  destruct (Predict_samples _ _ _ _ _ _ _ _ _) as [samples|] eqn:Hs;
    cbn [mbind option_bind]; [|done].
  intros [= <-]. cbn [sample_states_sld_win_].
  apply Predict_samples_appended in Hs as (added & -> & Hfirst & Hnext & Hall & Hend).
  exists st1, latest, added. split; [done|]. split; [done|]. split; [done|]. split.
  - intros k prev s Hprev Hs.
    destruct (Forall_lookup_1 _ _ _ _ Hall Hs) as (Hlt & Hrest). split; [|done].
    destruct k as [|k]; simpl in Hprev.
    + injection Hprev as <-. by apply Hfirst.
    + by apply (Hnext k).
  - intros b Hb. destruct added as [|s0 added].
    + injection Hb as <-. exact Hend.
    + unfold back in *. rewrite last_cons_cons in Hb. by rewrite Hb in Hend.
Qed.

Lemma Predict_samples_interpolated fuel config end_time ba bg grav imu_states :
  nondecreasing (map ImuState.timestamp imu_states) →
  ∀ timestamp sample_states sample_states',
    Predict_samples fuel config end_time ba bg grav imu_states timestamp sample_states
    = Some sample_states' →
    ∃ added,
      sample_states' = sample_states ++ added
      ∧ Forall (sample_interpolated imu_states) added.
Proof.
  intros Hs.
  induction fuel as [|fuel IH]; intros timestamp sample_states sample_states'; [done|].
  cbn [Predict_samples]. destruct (timestamp <? end_time).
  - cbv zeta.
    destruct (lower_bound_sorted ImuState.timestamp imu_states timestamp Hs)
      as [_ Hsplit].
    set (idx := lower_bound ImuState.timestamp imu_states timestamp) in *.
    destruct (decide (idx = 0%nat)) as [|H0]; [done|].
    destruct (decide (idx = length imu_states)) as [|Hn]; [done|].
    destruct (imu_states !! (idx - 1)%nat) as [a|] eqn:Ha; cbn [mbind option_bind]; [|done].
    destruct (imu_states !! idx) as [b|] eqn:Hb; cbn [mbind option_bind]; [|done].
    destruct (_ && _); [|done].
    intros Hrec. apply IH in Hrec as (added & -> & Hall).
    unfold push_back. rewrite <- app_assoc. eexists. split; [reflexivity|].
    constructor; [|done].
    assert (ImuState.timestamp a < timestamp) as Hat by (apply (Hsplit _ _ Ha); lia).
    assert (timestamp <= ImuState.timestamp b) as Htb.
    { apply Qcnot_lt_le. rewrite (Hsplit _ _ Hb). lia. }
    exists (idx - 1)%nat, a, b. split; [done|].
    split; [by replace (S (idx - 1)) with idx by lia|].
    cbn [SampleState.timestamp SampleState.rot SampleState.pos].
    split; [done|]. split; [done|]. cbv zeta.
    destruct (factor_range _ _ _ Hat Htb) as [Hpos Hle]. by repeat split.
  - intros [= <-]. exists []. by rewrite app_nil_r.
Qed.

(** X24.  Whenever [PredictImuStatesAndSampleStates] returns with an imu
    deque whose stamps do not decrease, every sample state it has appended
    after the initialisation step carries the pose interpolated between the
    two consecutive imu states that bracket its stamp: [slerp] for the
    rotation, a weighted mean for the position, with a weight in (0, 1]. *)
Theorem Predictor_interpolates_samples (config : Config) (end_time : double)
    (st st' : LidarOdometry) :
  PredictImuStatesAndSampleStates config end_time st = Some st' →
  nondecreasing (map ImuState.timestamp (imu_states_sld_win_ st')) →
  ∃ st1 added,
    Predict_init config (1 / imu_rate config) st = Some st1
    ∧ sample_states_sld_win_ st' = sample_states_sld_win_ st1 ++ added
    ∧ Forall (sample_interpolated (imu_states_sld_win_ st')) added.
Proof.
  unfold PredictImuStatesAndSampleStates. case_decide; [|done]. cbv zeta.
  destruct (Predict_init config _ st) as [st1|] eqn:Hinit; cbn [mbind option_bind]; [|done].
  destruct (back (sample_states_sld_win_ st1)) as [latest|] eqn:Hl;
    cbn [mbind option_bind]; [|done].
  destruct (Predict_imu _ _ _ _ _ _ _) as [[buf imus]|]; cbn [mbind option_bind]; [|done].
  destruct (Predict_samples _ _ _ _ _ _ _ _ _) as [samples|] eqn:Hs;
    cbn [mbind option_bind]; [|done].
  intros [= <-]. cbn [sample_states_sld_win_ imu_states_sld_win_]. intros Hsorted.
  apply (Predict_samples_interpolated _ _ _ _ _ _ _ Hsorted) in Hs as (added & -> & Hall).
  by exists st1, added.
Qed.

(** X16.  The test on which [AddLidarScan] waits does not protect the
    first check of the predictor: with points that cover the sweep and a
    single buffered imu message stamped at or after the end of the sweep,
    [AddLidarScan] goes on to the predictor, whose check of two buffered
    messages aborts. *)
Theorem AddLidarScan_sweep_single_imu (config : Config) (st : LidarOdometry)
    (point_front point_back : Point.t) (imu_msg : ImuData.t) :
  front (points_buff_ st) = Some point_front →
  back (points_buff_ st) = Some point_back →
  Point.time point_front + sweep_duration config <= Point.time point_back →
  imu_buff_ st = [imu_msg] →
  Point.time point_front + sweep_duration config <= ImuData.timestamp imu_msg →
  AddLidarScan_sweep config st = None.
Proof.
  intros Hf Hb Hpoints Hbuf Himu. unfold AddLidarScan_sweep.
  rewrite Hf, Hb, Hbuf. cbn [mbind option_bind back list.last]. cbv zeta.
  rewrite (proj2 (Qcltb_false _ _) Hpoints), (proj2 (Qcltb_false _ _) Himu).
  cbn [orb]. unfold PredictImuStatesAndSampleStates. rewrite Hbuf.
  by rewrite decide_False by (simpl; lia).
Qed.

End PredictorProperties.

Lemma Predictor_returns_witness :
  ∃ st',
    PredictImuStatesAndSampleStates (E := RefExternals) Demo.config_dense (lit 0.1)
      Demo.scanning = Some st'
    ∧ init_sld_win st' = true
    ∧ (2 <= length (imu_states_sld_win_ st'))%nat
    ∧ map ImuState.timestamp (imu_states_sld_win_ st')
      ++ map ImuData.timestamp (imu_buff_ st')
      = map ImuState.timestamp (imu_states_sld_win_ Demo.scanning)
        ++ map ImuData.timestamp (imu_buff_ Demo.scanning)
    ∧ (∃ b, back (imu_states_sld_win_ st') = Some b
            ∧ lit 0.1 <= ImuState.timestamp b)
    ∧ (∃ f latest,
         front (imu_states_sld_win_ st') = Some f
         ∧ back (sample_states_sld_win_ st') = Some latest
         ∧ ImuState.timestamp f <= SampleState.timestamp latest).
Proof.
  apply (Predictor_returns (E := RefExternals) Demo.config_dense (lit 0.1) Demo.scanning).
  - reflexivity.
  - split; [simpl; lia|]. split.
    + exists (Demo.imu 0.11). split; [reflexivity|]. vm_compute. discriminate.
    + split; [repeat constructor; vm_compute; discriminate|]. left. by repeat split.
Defined.

Lemma Predictor_extends_samples_witness :
  ∃ st1 latest added,
    Predict_init (E := RefExternals) Demo.config_dense (1 / imu_rate Demo.config_dense)
      Demo.scanning = Some st1
    ∧ back (sample_states_sld_win_ st1) = Some latest
    ∧ sample_states_sld_win_ Cases.predicted = sample_states_sld_win_ st1 ++ added
    ∧ (∀ k prev s, (latest :: added) !! k = Some prev → added !! k = Some s →
                   extends_samples Demo.config_dense (lit 0.1) latest prev s)
    ∧ (∀ b, back (latest :: added) = Some b →
            lit 0.1 <= SampleState.timestamp b + sample_dt Demo.config_dense).
Proof.
  apply (Predictor_extends_samples (E := RefExternals) Demo.config_dense (lit 0.1)
           Demo.scanning Cases.predicted).
  vm_compute. reflexivity.
Defined.

Lemma AddLidarScan_sweep_single_imu_witness :
  AddLidarScan_sweep (E := RefExternals) Demo.config Cases.single_imu = None.
Proof.
  apply (AddLidarScan_sweep_single_imu (E := RefExternals) Demo.config Cases.single_imu
           (Demo.point 0) (Demo.point 0.11) (Demo.imu 0.2)).
  - reflexivity.
  - reflexivity.
  - vm_compute. discriminate.
  - reflexivity.
  - vm_compute. discriminate.
Defined.

Lemma Predictor_interpolates_samples_witness :
  ∃ st1 added,
    Predict_init (E := RefExternals) Demo.config_dense (1 / imu_rate Demo.config_dense)
      Demo.scanning = Some st1
    ∧ sample_states_sld_win_ Cases.predicted = sample_states_sld_win_ st1 ++ added
    ∧ Forall (sample_interpolated (E := RefExternals)
                (imu_states_sld_win_ Cases.predicted)) added.
Proof.
  apply (Predictor_interpolates_samples (E := RefExternals) Demo.config_dense (lit 0.1)
           Demo.scanning Cases.predicted).
  - vm_compute. reflexivity.
  - evaluated. repeat constructor; vm_compute; discriminate.
Defined.

(** ** Imu residual assembly *)

Lemma nondecreasing_lookup {A} (key : A → double) (l : list A) (a b : nat) x y :
  nondecreasing (map key l) →
  l !! a = Some x → l !! b = Some y → (a <= b)%nat → key x <= key y.
Proof.
  intros Hs. apply nondecreasing_strong in Hs. revert a b.
  induction l as [|z l IH]; intros a b Ha Hb Hab; [by rewrite lookup_nil in Ha|].
  simpl in Hs. apply StronglySorted_inv in Hs as [Hs Hz].
  destruct a as [|a], b as [|b]; simpl in Ha, Hb; try lia.
  - injection Ha as <-. injection Hb as <-. apply Qcle_refl.
  - injection Ha as <-. rewrite Forall_map in Hz.
    exact (Forall_lookup_1 _ _ _ _ Hz Hb).
  - apply (IH Hs a b); [done..|lia].
Qed.

Section ImuBlocks.
Context `{E : Externals}.
Variable config : Config.
Variable weights : ImuCostWeights.
Variable sample_states : list SampleState.t.
Variable imu_states : list ImuState.t.

(** The bound on the rounds is never reached: a larger one gives the same
    result. *)
Lemma BuildImuResiduals_loop_fuel (fuel : nat) :
  ∀ fuel' i blocks,
    (0 <= i)%Z →
    (Z.of_nat (length imu_states) - i < Z.of_nat fuel)%Z → (1 <= fuel)%nat →
    (Z.of_nat (length imu_states) - i < Z.of_nat fuel')%Z → (1 <= fuel')%nat →
    BuildImuResiduals_loop fuel' config weights sample_states imu_states i blocks
    = BuildImuResiduals_loop fuel config weights sample_states imu_states i blocks.
Proof.
  induction fuel as [|fuel IH]; intros fuel' i blocks Hi Hf H1 Hf' H1'; [lia|].
  destruct fuel' as [|fuel']; [lia|]. cbn [BuildImuResiduals_loop].
  destruct (_ <? _)%Z; [|done].
  rewrite !at_nat by lia.
  destruct (imu_states !! Z.to_nat i) as [i1|]; cbn [mbind option_bind]; [|done].
  destruct (imu_states !! Z.to_nat (i + 1)) as [i2|]; cbn [mbind option_bind]; [|done].
  destruct (imu_states !! Z.to_nat (i + 2)) as [i3|] eqn:H3; cbn [mbind option_bind]; [|done].
  apply lookup_lt_Some in H3.
  destruct (front sample_states) as [sf|]; cbn [mbind option_bind]; [|done].
  destruct (_ <? _); [apply IH; lia|].
  destruct (back sample_states) as [sb|]; cbn [mbind option_bind]; [|done].
  destruct (_ <? _); [done|]. cbv zeta.
  set (k := upper_bound SampleState.timestamp sample_states (ImuState.timestamp i1)).
  case_decide; [done|].
  destruct (sample_states !! (k - 1)%nat) as [sp1|]; cbn [mbind option_bind]; [|done].
  destruct (sample_states !! k) as [sp2|]; cbn [mbind option_bind]; [|done].
  case_decide; [apply IH; lia|].
  destruct (sample_states !! (k + 1)%nat) as [sp3|]; cbn [mbind option_bind]; [|done].
  apply IH; lia.
Qed.

Lemma BuildImuResiduals_loop_blocks (fuel : nat) :
  ∀ i blocks0 blocks,
    (0 <= i)%Z →
    BuildImuResiduals_loop fuel config weights sample_states imu_states i blocks0
    = Some blocks →
    ∃ idxs added,
      blocks = blocks0 ++ added
      ∧ Forall2 (imu_block_at config weights sample_states imu_states) idxs added
      ∧ Forall (λ j, (Z.to_nat i <= j)%nat) idxs
      ∧ StronglySorted lt idxs
      ∧ (nondecreasing (map ImuState.timestamp imu_states) →
         (Z.of_nat (length imu_states) < 2 ^ 31)%Z →
         ∀ j, (Z.to_nat i <= j)%nat → (j + 2 < length imu_states)%nat →
              j ∈ idxs ↔ triple_in_window sample_states imu_states j).
Proof.
  induction fuel as [|fuel IH]; intros i blocks0 blocks Hi; [done|].
  cbn [BuildImuResiduals_loop].
  destruct (Z.ltb_spec i ((Z.of_nat (length imu_states) - 2) `mod` 2 ^ 64)) as [Hlt|Hge].
  2:{ intros [= <-]. exists [], []. rewrite app_nil_r.
      split; [done|]. split; [constructor|]. split; [constructor|].
      split; [constructor|]. intros _ Hsmall j Hj Hj2. exfalso.
      assert (2 ^ 31 < 2 ^ 64)%Z as Hpow by reflexivity.
      rewrite Z.mod_small in Hge by lia. lia. }
  rewrite !at_nat by lia.
  destruct (imu_states !! Z.to_nat i) as [i1|] eqn:H1; cbn [mbind option_bind]; [|done].
  destruct (imu_states !! Z.to_nat (i + 1)) as [i2|] eqn:H2; cbn [mbind option_bind]; [|done].
  destruct (imu_states !! Z.to_nat (i + 2)) as [i3|] eqn:H3; cbn [mbind option_bind]; [|done].
  replace (Z.to_nat (i + 1)) with (S (Z.to_nat i)) in H2 by lia.
  replace (Z.to_nat (i + 2)) with (S (S (Z.to_nat i))) in H3 by lia.
  destruct (front sample_states) as [sf|] eqn:Hsf; cbn [mbind option_bind]; [|done].
  destruct (ImuState.timestamp i1 <? SampleState.timestamp sf) eqn:Hskip.
  { apply Qcltb_true in Hskip. intros H.
    apply IH in H as (idxs & added & -> & Hall & Hfrom & Hsorted & Hcover); [|lia].
    exists idxs, added. split; [done|]. split; [done|].
    split; [eapply list.Forall_impl; [exact Hfrom|]; simpl; intros; lia|].
    split; [done|]. intros Hs Hsmall j Hj Hj2.
    destruct (decide (j = Z.to_nat i)) as [->|Hne].
    - split.
      + intros Hin. exfalso.
        pose proof (proj1 (list.Forall_forall _ _) Hfrom _ Hin) as Hle. simpl in Hle. lia.
      + intros (i1' & i3' & f & b & H1' & _ & Hf & _ & Hle & _). exfalso.
        rewrite H1 in H1'. injection H1' as <-. rewrite Hsf in Hf. injection Hf as <-.
        exact (Qcle_not_lt _ _ Hle Hskip).
    - apply Hcover; [done|done|lia|done]. }
  apply Qcltb_false in Hskip.
  destruct (back sample_states) as [sb|] eqn:Hsb; cbn [mbind option_bind]; [|done].
  destruct (SampleState.timestamp sb <? ImuState.timestamp i3) eqn:Hbreak.
  { apply Qcltb_true in Hbreak. intros [= <-]. exists [], []. rewrite app_nil_r.
    split; [done|]. split; [constructor|]. split; [constructor|].
    split; [constructor|]. intros Hs Hsmall j Hj Hj2. split; [by rewrite elem_of_nil|].
    intros (i1' & i3' & f & b & _ & H3' & _ & Hb & _ & Hle). exfalso.
    rewrite Hsb in Hb. injection Hb as <-.
    pose proof (nondecreasing_lookup ImuState.timestamp imu_states _ _ _ _ Hs H3 H3'
                  ltac:(lia)) as Hmono.
    apply (Qcle_not_lt _ _ Hle). by eapply Qclt_le_trans. }
  apply Qcltb_false in Hbreak. cbv zeta.
  set (k := upper_bound SampleState.timestamp sample_states (ImuState.timestamp i1)).
  destruct (decide (k = 0%nat)) as [|Hk0]; [done|].
  destruct (sample_states !! (k - 1)%nat) as [sp1|] eqn:Hsp1; cbn [mbind option_bind]; [|done].
  destruct (sample_states !! k) as [sp2|] eqn:Hsp2; cbn [mbind option_bind]; [|done].
  assert (∀ b added' idxs',
            imu_block_at config weights sample_states imu_states (Z.to_nat i) b →
            Forall2 (imu_block_at config weights sample_states imu_states) idxs' added' →
            Forall (λ j, (Z.to_nat (i + 1) <= j)%nat) idxs' →
            StronglySorted lt idxs' →
            (nondecreasing (map ImuState.timestamp imu_states) →
             (Z.of_nat (length imu_states) < 2 ^ 31)%Z →
             ∀ j, (Z.to_nat (i + 1) <= j)%nat → (j + 2 < length imu_states)%nat →
                  j ∈ idxs' ↔ triple_in_window sample_states imu_states j) →
            ∃ idxs added,
              (blocks0 ++ [b]) ++ added' = blocks0 ++ added
              ∧ Forall2 (imu_block_at config weights sample_states imu_states) idxs added
              ∧ Forall (λ j, (Z.to_nat i <= j)%nat) idxs
              ∧ StronglySorted lt idxs
              ∧ (nondecreasing (map ImuState.timestamp imu_states) →
                 (Z.of_nat (length imu_states) < 2 ^ 31)%Z →
                 ∀ j, (Z.to_nat i <= j)%nat → (j + 2 < length imu_states)%nat →
                      j ∈ idxs ↔ triple_in_window sample_states imu_states j)) as Hadd.
  { intros b added' idxs' Hb Hall Hfrom Hsorted Hcover.
    exists (Z.to_nat i :: idxs'), (b :: added'). rewrite <- app_assoc.
    split; [done|]. split; [by constructor|]. split.
    { constructor; [lia|]. eapply list.Forall_impl; [exact Hfrom|]. simpl. intros. lia. }
    split.
    { constructor; [done|]. eapply list.Forall_impl; [exact Hfrom|]. simpl. intros. lia. }
    intros Hs Hsmall j Hj Hj2. rewrite elem_of_cons.
    destruct (decide (j = Z.to_nat i)) as [->|Hne].
    - split; [|by left]. intros _. by exists i1, i3, sf, sb.
    - rewrite <- (Hcover Hs Hsmall j) by lia. split; [by intros [?|?]|by right]. }
  destruct (decide (k = (length sample_states - 1)%nat)) as [Hlast|Hlast].
  - intros H. apply IH in H as (idxs' & added' & -> & Hall & Hfrom & Hsorted & Hcover);
      [|lia].
    apply (Hadd _ added' idxs'); [|done..].
    exists i1, i2, i3, sp1, sp2, sb. fold k. cbn [imu_loss_function imu_cost_function
                                                    imu_parameter_blocks].
    split; [done|]. split; [done|]. split; [done|]. split; [lia|].
    split; [done|]. split; [done|]. split; [done|]. split; [done|]. by left.
  - destruct (sample_states !! (k + 1)%nat) as [sp3|] eqn:Hsp3; cbn [mbind option_bind]; [|done].
    intros H. apply IH in H as (idxs' & added' & -> & Hall & Hfrom & Hsorted & Hcover);
      [|lia].
    apply (Hadd _ added' idxs'); [|done..].
    exists i1, i2, i3, sp1, sp2, sb. fold k. cbn [imu_loss_function imu_cost_function
                                                    imu_parameter_blocks].
    split; [done|]. split; [done|]. split; [done|]. split; [lia|].
    split; [done|]. split; [done|]. split; [done|]. split; [done|].
    right. by exists sp3.
Qed.

(** X17.  When [BuildImuResiduals] returns (on a deque of fewer than 2^31
    states, the range of the loop counter), the blocks it has added are
    imu factors, with trivial loss, on triples of consecutive imu states
    taken at increasing positions of the imu deque.  The parameter blocks
    of each are the two sample states on the two sides of the stamp of the
    first state of the triple, found by [upper_bound], which are positions
    of the window; the factor is [ImuFactor<1>], with [DBL_MAX] for its
    third stamp, exactly when the right-hand one is the latest sample
    state, and otherwise [ImuFactor<0>] with the next sample state as third
    parameter block. *)
Theorem BuildImuResiduals_blocks (blocks : list ImuResidualBlock) :
  (Z.of_nat (length imu_states) < 2 ^ 31)%Z →
  BuildImuResiduals config weights sample_states imu_states = Some blocks →
  ∃ idxs,
    Forall2 (imu_block_at config weights sample_states imu_states) idxs blocks
    ∧ StronglySorted lt idxs.
Proof.
  intros _ H. apply BuildImuResiduals_loop_blocks in H as (idxs & added & -> & Hall & _ & Hs & _);
    [|done].
  by exists idxs.
Qed.

(** X18.  On an imu deque whose stamps do not decrease (and of fewer than
    2^31 states, the range of the loop counter), when [BuildImuResiduals]
    returns it has added one block for each triple of consecutive imu
    states that lies in the sample window, the first state not before the
    first sample state and the third not after the latest, and for no
    other triple. *)
Theorem BuildImuResiduals_covers_window (blocks : list ImuResidualBlock) :
  nondecreasing (map ImuState.timestamp imu_states) →
  (Z.of_nat (length imu_states) < 2 ^ 31)%Z →
  BuildImuResiduals config weights sample_states imu_states = Some blocks →
  ∃ idxs,
    Forall2 (imu_block_at config weights sample_states imu_states) idxs blocks
    ∧ ∀ j, (j + 2 < length imu_states)%nat →
           j ∈ idxs ↔ triple_in_window sample_states imu_states j.
Proof.
  intros Hs Hsmall H.
  apply BuildImuResiduals_loop_blocks in H as (idxs & added & -> & Hall & _ & _ & Hcover);
    [|done].
  exists idxs. split; [done|]. intros j Hj. apply Hcover; [done|done|simpl; lia|done].
Qed.

(** X19.  The bound of the loop of [BuildImuResiduals] wraps around: on an
    imu deque of fewer than two states the loop is entered and its first
    subscript out of range aborts; on a deque of exactly two states it adds
    nothing. *)
Theorem BuildImuResiduals_short_deque :
  (length imu_states <= 2)%nat →
  BuildImuResiduals config weights sample_states imu_states
  = if decide (length imu_states = 2%nat) then Some [] else None.
Proof.
  intros Hlen. unfold BuildImuResiduals.
  destruct imu_states as [|a [|b [|c rest]]]; simpl in Hlen; [done..|lia].
Qed.

End ImuBlocks.

Lemma BuildImuResiduals_blocks_witness :
  ∃ idxs,
    Forall2 (imu_block_at (E := RefExternals) Demo.config Cases.weights
               Demo.window_samples Cases.crossing_imus) idxs Cases.imu_blocks
    ∧ StronglySorted lt idxs.
Proof.
  apply (BuildImuResiduals_blocks (E := RefExternals)).
  - reflexivity.
  - vm_compute. reflexivity.
Defined.

Lemma BuildImuResiduals_covers_window_witness :
  ∃ idxs,
    Forall2 (imu_block_at (E := RefExternals) Demo.config Cases.weights
               Demo.window_samples Cases.crossing_imus) idxs Cases.imu_blocks
    ∧ ∀ j, (j + 2 < length Cases.crossing_imus)%nat →
           j ∈ idxs ↔ triple_in_window Demo.window_samples Cases.crossing_imus j.
Proof.
  apply (BuildImuResiduals_covers_window (E := RefExternals)).
  - repeat constructor; vm_compute; discriminate.
  - reflexivity.
  - vm_compute. reflexivity.
Defined.

Lemma BuildImuResiduals_short_deque_witness :
  BuildImuResiduals (E := RefExternals) Demo.config Cases.weights Demo.window_samples
    [Demo.imu_state 0]
  = if decide (length [Demo.imu_state 0] = 2%nat) then Some [] else None.
Proof.
  apply (BuildImuResiduals_short_deque (E := RefExternals)). simpl. lia.
Defined.

(** The trajectory of the example crosses the window: the triple that
    starts before the window is skipped, the next three get a factor on
    three sample states, the triple whose right-hand sample state is the
    latest gets one on two, and the loop stops at the triple that ends
    after the window. *)
Example BuildImuResiduals_demo :
  map imu_parameter_blocks Cases.imu_blocks
  = [[0; 1; 2]; [1; 2; 3]; [2; 3; 4]; [3; 4]]%nat.
Proof. vm_compute. reflexivity. Qed.

(** ** Corrector: a second pass *)

Section CorrectorTwice.
Context `{E : Externals}.

Lemma UpdateSamplePose_idempotent (s : SampleState.t) :
  Exp_zero → UpdateSamplePose (UpdateSamplePose s) = UpdateSamplePose s.
Proof.
  intros HExp. unfold UpdateSamplePose. cbv zeta.
  cbn [SampleState.data_cor SampleState.rot SampleState.pos SampleState.timestamp
       SampleState.ba SampleState.bg SampleState.grav rot_cor pos_cor ba_cor bg_cor].
  rewrite HExp. by rewrite vadd_Zero_l, qmul_Identity_l.
Qed.


End CorrectorTwice.


(** ** [AddLidarScan] up to the undistorted sweep *)

Section UndistortedSweep.
Context `{E : Externals}.

(** The head synchronisation touches the two buffers and its flag only,
    and pops fronts only. *)
Lemma SyncHeadingMsgs_frame (st st' : LidarOdometry) (synced : bool) :
  SyncHeadingMsgs st = Some (synced, st') →
  imu_states_sld_win_ st' = imu_states_sld_win_ st
  ∧ sample_states_sld_win_ st' = sample_states_sld_win_ st
  ∧ surfels_sld_win_ st' = surfels_sld_win_ st
  ∧ init_sld_win st' = init_sld_win st
  ∧ (∃ dropped, imu_buff_ st = dropped ++ imu_buff_ st')
  ∧ (∃ dropped, points_buff_ st = dropped ++ points_buff_ st').
Proof.
  assert (∀ b, Some (b, st) = Some (synced, st') →
               imu_states_sld_win_ st' = imu_states_sld_win_ st
               ∧ sample_states_sld_win_ st' = sample_states_sld_win_ st
               ∧ surfels_sld_win_ st' = surfels_sld_win_ st
               ∧ init_sld_win st' = init_sld_win st
               ∧ (∃ dropped, imu_buff_ st = dropped ++ imu_buff_ st')
               ∧ (∃ dropped, points_buff_ st = dropped ++ points_buff_ st')) as Hsame.
  { intros b [= _ <-]. repeat split; by exists []. }
  unfold SyncHeadingMsgs. destruct (sync_done st); [apply Hsame|].
  destruct (back (imu_buff_ st)) as [ib|]; [|apply Hsame].
  destruct (front (points_buff_ st)) as [pf|]; [|apply Hsame].
  destruct (_ <? _); [apply Hsame|].
  pose proof (pop_front_before_cases ImuData.timestamp (Point.time pf) (imu_buff_ st)) as Hi.
  destruct (pop_front_before ImuData.timestamp _ (imu_buff_ st)) as [imus|];
    cbn [mbind option_bind]; [|done].
  destruct Hi as (di & m & Hdi & _ & Hm & _). rewrite Hm. cbn [mbind option_bind].
  pose proof (pop_front_before_cases Point.time (ImuData.timestamp m) (points_buff_ st)) as Hp.
  destruct (pop_front_before Point.time _ (points_buff_ st)) as [pts|];
    cbn [mbind option_bind]; [|done].
  destruct Hp as (dp & q & Hdp & _).
  intros [= _ <-]. cbn [set_buffers imu_states_sld_win_ sample_states_sld_win_
                         surfels_sld_win_ init_sld_win imu_buff_ points_buff_].
  repeat split; by eexists.
Qed.

(** X21.  A call of [AddLidarScan] that returns early (the heads are not
    synchronised yet, or points or imu messages do not cover a sweep yet)
    has ingested the scan and may have popped fronts of the two buffers to
    synchronise them, and nothing else: the window (imu states, sample
    states, surfels) and the initialisation flag are untouched. *)
Theorem AddLidarScan_undistort_early_return (config : Config) (msg : list Point.t)
    (st st' : LidarOdometry) :
  AddLidarScan_undistort config msg st = Some (st', None) →
  imu_states_sld_win_ st' = imu_states_sld_win_ st
  ∧ sample_states_sld_win_ st' = sample_states_sld_win_ st
  ∧ surfels_sld_win_ st' = surfels_sld_win_ st
  ∧ init_sld_win st' = init_sld_win st
  ∧ (∃ dropped, imu_buff_ st = dropped ++ imu_buff_ st')
  ∧ (∃ points_buff dropped,
       AddLidarScan_ingest config msg (points_buff_ st) = Some points_buff
       ∧ points_buff = dropped ++ points_buff_ st').
Proof.
  unfold AddLidarScan_undistort.
  destruct (AddLidarScan_ingest config msg (points_buff_ st)) as [points_buff|];
    cbn [mbind option_bind]; [|done]. cbv zeta.
  destruct (SyncHeadingMsgs _) as [[synced st1]|] eqn:Hsync; cbn [mbind option_bind]; [|done].
  apply SyncHeadingMsgs_frame in Hsync
    as (Himus & Hsamples & Hsurfels & Hinit & Hibuf & Hpbuf).
  cbn [set_buffers imu_states_sld_win_ sample_states_sld_win_ surfels_sld_win_
       init_sld_win imu_buff_ points_buff_] in *.
  assert (st' = st1 →
          imu_states_sld_win_ st' = imu_states_sld_win_ st
          ∧ sample_states_sld_win_ st' = sample_states_sld_win_ st
          ∧ surfels_sld_win_ st' = surfels_sld_win_ st
          ∧ init_sld_win st' = init_sld_win st
          ∧ (∃ dropped, imu_buff_ st = dropped ++ imu_buff_ st')
          ∧ (∃ points_buff0 dropped,
               Some points_buff = Some points_buff0
               ∧ points_buff0 = dropped ++ points_buff_ st')) as Hsame.
  { intros ->. do 4 (split; [done|]). split; [done|].
    destruct Hpbuf as [dropped Hd]. by exists points_buff, dropped. }
  destruct synced; cbn [negb]; [|by intros [= <-]; apply Hsame].
  destruct (AddLidarScan_sweep config st1) as [[[sweep st2]|]|];
    cbn [mbind option_bind]; [| |done].
  - destruct (front sweep); cbn [mbind option_bind]; [|done].
    destruct (back sweep); cbn [mbind option_bind]; [|done].
    destruct (UndistortSweep _ _); cbn [mbind option_bind]; done.
  - intros [= <-]. by apply Hsame.
Qed.

(** The sweep that [AddLidarScan] builds is a prefix of the point buffer,
    and comes with the imu deque of the predictor. *)
Lemma AddLidarScan_sweep_prefix (config : Config) (st st' : LidarOdometry)
    (sweep : list Point.t) :
  AddLidarScan_sweep config st = Some (Some (sweep, st')) →
  ∃ end_time st1 rest,
    PredictImuStatesAndSampleStates config end_time st = Some st1
    ∧ imu_states_sld_win_ st' = imu_states_sld_win_ st1
    ∧ points_buff_ st = sweep ++ rest.
Proof.
  unfold AddLidarScan_sweep.
  destruct (front (points_buff_ st)) as [pf|]; cbn [mbind option_bind]; [|done].
  destruct (back (points_buff_ st)) as [pb|]; cbn [mbind option_bind]; [|done].
  cbv zeta. destruct (_ || _); [done|].
  destruct (PredictImuStatesAndSampleStates _ _ st) as [st1|] eqn:Hp;
    cbn [mbind option_bind]; [|done].
  pose proof (PredictImuStatesAndSampleStates_points_buff _ _ _ _ Hp) as Hpts.
  destruct (back (sample_states_sld_win_ st1)) as [latest|];
    cbn [mbind option_bind]; [|done].
  rewrite Hpts. unfold BuildSweep.
  destruct (front (points_buff_ st)); cbn [mbind option_bind]; [|done].
  pose proof (BuildSweep_loop_split (points_buff_ st) (SampleState.timestamp latest)) as Hsplit.
  destruct (BuildSweep_loop _ _ _) as [sw buf]. cbn [mbind option_bind].
  intros [= <- <-]. by eexists _, st1, buf.
Qed.

(** The imu deque that the predictor builds on a fresh estimator from an
    ordered buffer. *)
Lemma Predictor_fresh_states (config : Config) (end_time : double)
    (st st' : LidarOdometry) (m : ImuData.t) :
  init_sld_win st = false →
  imu_states_sld_win_ st = [] →
  sample_states_sld_win_ st = [] →
  nondecreasing (map ImuData.timestamp (imu_buff_ st)) →
  front (imu_buff_ st) = Some m →
  PredictImuStatesAndSampleStates config end_time st = Some st' →
  nondecreasing (map ImuState.timestamp (imu_states_sld_win_ st'))
  ∧ ∃ f, front (imu_states_sld_win_ st') = Some f
         ∧ ImuState.timestamp f = ImuData.timestamp m.
Proof.
  intros Hinit Himus Hsamples Hs Hm. unfold PredictImuStatesAndSampleStates.
  case_decide as Hlen; [|done]. cbv zeta.
  destruct (imu_buff_ st) as [|m0 [|m1 rest]] eqn:Hbuf; simpl in Hlen; [lia..|].
  injection Hm as <-.
  rewrite (Predict_init_fresh config st m0 m1 rest Hinit Himus Hsamples Hbuf).
  cbn [mbind option_bind sample_states_sld_win_ imu_states_sld_win_ imu_buff_
       back list.last].
  set (latest := first_sample_state config m0).
  set (states := [first_imu_state m0; second_imu_state (1 / imu_rate config) m0 m1]).
  destruct (Predict_imu_spec (1 / imu_rate config) (SampleState.ba latest)
              (SampleState.bg latest) (SampleState.grav latest) end_time rest states)
    as (consumed & rest' & appended & -> & Hrest & Hrec & _); [simpl; lia|].
  cbn [mbind option_bind].
  destruct (Predict_samples _ _ _ _ _ _ _ _ _) as [samples|]; cbn [mbind option_bind]; [|done].
  intros [= <-]. cbn [imu_states_sld_win_]. split; [|by exists (first_imu_state m0)].
  apply records_stamps in Hrec.
  cbn [map first_imu_state second_imu_state ImuState.timestamp]. rewrite Hrec.
  apply (nondecreasing_app_l _ (map ImuData.timestamp rest')).
  cbn [app]. rewrite <- map_app, <- Hrest. exact Hs.
Qed.

Lemma AddLidarScan_undistort_aligned (config : Config) (msg : list Point.t)
    (st : LidarOdometry) (points_buff : list Point.t) (p : Point.t) (m : ImuData.t) :
  sync_done st = true →
  init_sld_win st = false →
  imu_states_sld_win_ st = [] →
  sample_states_sld_win_ st = [] →
  nondecreasing (map ImuData.timestamp (imu_buff_ st)) →
  AddLidarScan_ingest config msg (points_buff_ st) = Some points_buff →
  front points_buff = Some p →
  front (imu_buff_ st) = Some m →
  Point.time p <= ImuData.timestamp m →
  ∀ st' out, AddLidarScan_undistort config msg st = Some (st', out) → out = None.
Proof.
  intros Hsync Hinit Himus Hsamples Hs Hingest Hp Hm Hpm st' out.
  unfold AddLidarScan_undistort. rewrite Hingest. cbn [mbind option_bind]. cbv zeta.
  set (st1 := set_buffers st (imu_buff_ st) points_buff (sync_done st)).
  rewrite (SyncHeadingMsgs_latched st1) by done. cbn [mbind option_bind negb].
  destruct (AddLidarScan_sweep config st1) as [[[sweep st2]|]|] eqn:Hsweep;
    cbn [mbind option_bind]; [| |done].
  2:{ by intros [= _ <-]. }
  apply AddLidarScan_sweep_prefix in Hsweep as (end_time & st3 & rest & Hpred & Hstates & Hpts).
  destruct (Predictor_fresh_states config end_time st1 st3 m Hinit Himus Hsamples Hs Hm Hpred)
    as (Hsorted & f & Hf & Hfm).
  destruct sweep as [|q sweep]; [done|]. cbn [front list.head mbind option_bind].
  destruct (back (q :: sweep)); cbn [mbind option_bind]; [|done].
  cbn [points_buff_ st1 set_buffers] in Hpts. rewrite Hpts in Hp. injection Hp as ->.
  assert (UndistortSweep (p :: sweep) (imu_states_sld_win_ st2) = None) as ->; [|done].
  rewrite Hstates. unfold UndistortSweep. apply mapM_None. apply Exists_cons_hd.
  apply eq_None_not_Some. rewrite (UndistortPoint_is_Some _ _ Hsorted).
  intros (f' & b & Hf' & _ & Hlt & _). rewrite Hf in Hf'. injection Hf' as <-.
  rewrite Hfm in Hlt. exact (Qcle_not_lt _ _ Hpm Hlt).
Qed.

(** X22.  On a synchronised estimator that is not initialised yet, with an
    imu buffer whose stamps do not decrease: if, after the ingest, the
    oldest point of the buffer is not stamped after the oldest imu message
    (after the head synchronisation, which leaves the imu front not after
    the point front: if the two fronts carry the same stamp), no call of
    [AddLidarScan] gets past the undistortion of its first sweep.  The call
    returns early or aborts: the first imu state carries the stamp of the
    oldest imu message, and [UndistortSweep] wants every point after the
    first imu state. *)
Theorem AddLidarScan_undistort_aligned_fronts (config : Config) (msg : list Point.t)
    (st : LidarOdometry) (points_buff : list Point.t) (p : Point.t) (m : ImuData.t) :
  sync_done st = true →
  init_sld_win st = false →
  imu_states_sld_win_ st = [] →
  sample_states_sld_win_ st = [] →
  nondecreasing (map ImuData.timestamp (imu_buff_ st)) →
  AddLidarScan_ingest config msg (points_buff_ st) = Some points_buff →
  front points_buff = Some p →
  front (imu_buff_ st) = Some m →
  Point.time p <= ImuData.timestamp m →
  AddLidarScan_undistort config msg st = None
  ∨ ∃ st', AddLidarScan_undistort config msg st = Some (st', None).
Proof.
  intros Hsync Hinit Himus Hsamples Hs Hingest Hp Hm Hpm.
  destruct (AddLidarScan_undistort config msg st) as [[st' out]|] eqn:Hcall; [|by left].
  right. exists st'.
  by rewrite (AddLidarScan_undistort_aligned config msg st points_buff p m Hsync Hinit
                Himus Hsamples Hs Hingest Hp Hm Hpm st' out Hcall).
Qed.

End UndistortedSweep.

Lemma AddLidarScan_undistort_early_return_witness :
  imu_states_sld_win_ Cases.waited = imu_states_sld_win_ Cases.waiting
  ∧ sample_states_sld_win_ Cases.waited = sample_states_sld_win_ Cases.waiting
  ∧ surfels_sld_win_ Cases.waited = surfels_sld_win_ Cases.waiting
  ∧ init_sld_win Cases.waited = init_sld_win Cases.waiting
  ∧ (∃ dropped, imu_buff_ Cases.waiting = dropped ++ imu_buff_ Cases.waited)
  ∧ (∃ points_buff dropped,
       AddLidarScan_ingest (E := RefExternals) Demo.config_dense Cases.next_scan
         (points_buff_ Cases.waiting) = Some points_buff
       ∧ points_buff = dropped ++ points_buff_ Cases.waited).
Proof.
  apply (AddLidarScan_undistort_early_return (E := RefExternals) Demo.config_dense
           Cases.next_scan Cases.waiting Cases.waited).
  vm_compute. reflexivity.
Defined.

Lemma AddLidarScan_undistort_aligned_fronts_witness :
  AddLidarScan_undistort (E := RefExternals) Demo.config_dense Cases.next_scan Cases.aligned
  = None
  ∨ ∃ st', AddLidarScan_undistort (E := RefExternals) Demo.config_dense Cases.next_scan
             Cases.aligned = Some (st', None).
Proof.
  apply (AddLidarScan_undistort_aligned_fronts (E := RefExternals) Demo.config_dense
           Cases.next_scan Cases.aligned
           [Demo.point 0; Demo.point 0.02; Demo.point 0.05; Demo.point 0.09;
            Demo.point 0.11; Demo.point 0.13]
           (Demo.point 0) (Demo.imu 0)).
  - reflexivity.
  - reflexivity.
  - reflexivity.
  - reflexivity.
  - repeat constructor; vm_compute; discriminate.
  - vm_compute. reflexivity.
  - reflexivity.
  - reflexivity.
  - vm_compute. discriminate.
Defined.

(** With the oldest point stamped as the oldest imu message the first
    sweep aborts; with the points starting after it, the same call
    undistorts a sweep of the two points stamped before the latest sample
    state. *)
Example AddLidarScan_undistort_demo :
  AddLidarScan_undistort (E := RefExternals) Demo.config_dense Cases.next_scan Cases.aligned
  = None
  ∧ ∃ st' sweep,
      AddLidarScan_undistort (E := RefExternals) Demo.config_dense Cases.next_scan
        Cases.staggered = Some (st', Some sweep)
      ∧ map Point.time sweep = [lit 0.02; lit 0.05]
      ∧ map Point.time (points_buff_ st') = [lit 0.09; lit 0.11; lit 0.13].
Proof.
  split; [vm_compute; reflexivity|].
  eexists _, _. split; [vm_compute; reflexivity|]. split; reflexivity.
Qed.

(** ** The order of the stamps in the window *)

Lemma nondecreasing_app_r (l1 l2 : list double) :
  nondecreasing (l1 ++ l2) → nondecreasing l2.
Proof.
  unfold nondecreasing. induction l1 as [|x l1 IH]; [done|].
  simpl. intros Hs. apply Sorted_inv in Hs as [Hs _]. by apply IH.
Qed.

Lemma same_readings_stamps (imu_states imu_states' : list ImuState.t) :
  Forall2 same_readings imu_states imu_states' →
  map ImuState.timestamp imu_states' = map ImuState.timestamp imu_states.
Proof.
  induction 1 as [|s s' l l' (Ht & _) _ IH]; [done|]. simpl. by rewrite Ht, IH.
Qed.

Section WindowOrder.
Context `{E : Externals}.

(** X25.  A pass of the Corrector changes no stamp and no buffer: when it
    returns, the imu states and the sample states carry, position by
    position, the stamps they had, the window holds as many surfels as
    before, and the two buffers and the two flags are untouched. *)
Theorem Corrector_keeps_stamps (st st' : LidarOdometry) :
  Corrector st = Some st' →
  map ImuState.timestamp (imu_states_sld_win_ st')
  = map ImuState.timestamp (imu_states_sld_win_ st)
  ∧ map SampleState.timestamp (sample_states_sld_win_ st')
    = map SampleState.timestamp (sample_states_sld_win_ st)
  ∧ length (surfels_sld_win_ st') = length (surfels_sld_win_ st)
  ∧ imu_buff_ st' = imu_buff_ st ∧ points_buff_ st' = points_buff_ st
  ∧ init_sld_win st' = init_sld_win st ∧ sync_done st' = sync_done st.
Proof.
  unfold Corrector.
  destruct (UpdateImuPoses _ _) as [imus|] eqn:Hi; cbn [mbind option_bind]; [|done].
  destruct (UpdateSurfelPoses _ _) as [surfels|] eqn:Hu; cbn [mbind option_bind]; [|done].
  intros [= <-]. cbn [set_window imu_states_sld_win_ sample_states_sld_win_
                       surfels_sld_win_ imu_buff_ points_buff_ init_sld_win sync_done].
  apply UpdateImuPoses_keeps_readings_lemma in Hi.
  split; [by apply same_readings_stamps|]. split.
  - unfold UpdateSamplePoses. rewrite map_map. by apply map_ext.
  - split; [|done]. by apply length_mapM in Hu.
Qed.

(** X26.  [ShrinkToFit] keeps the order of the stamps: on three deques
    whose stamps do not decrease, when it returns the stamps of each still
    do not decrease. *)
Theorem ShrinkToFit_keeps_order (sample_states : list SampleState.t)
    (imu_states : list ImuState.t) (surfels : list Surfel.t)
    (window_duration : double)
    (sample_states' : list SampleState.t) (imu_states' : list ImuState.t)
    (surfels' : list Surfel.t) :
  nondecreasing (map SampleState.timestamp sample_states) →
  nondecreasing (map ImuState.timestamp imu_states) →
  nondecreasing (map Surfel.timestamp surfels) →
  ShrinkToFit sample_states imu_states surfels window_duration
  = Some (sample_states', imu_states', surfels') →
  nondecreasing (map SampleState.timestamp sample_states')
  ∧ nondecreasing (map ImuState.timestamp imu_states')
  ∧ nondecreasing (map Surfel.timestamp surfels').
Proof.
  intros Hs Hi Hu H. apply ShrinkToFit_suffixes in H as (ds & di & du & -> & -> & ->).
  rewrite !map_app in Hs, Hi, Hu.
  repeat split; eapply nondecreasing_app_r; eassumption.
Qed.

Lemma Predict_samples_ordered fuel config end_time ba bg grav imu_states :
  0 < sample_dt config →
  ∀ timestamp sample_states sample_states',
    nondecreasing (map SampleState.timestamp sample_states) →
    (∀ b, back sample_states = Some b → SampleState.timestamp b <= timestamp) →
    Predict_samples fuel config end_time ba bg grav imu_states timestamp sample_states
    = Some sample_states' →
    nondecreasing (map SampleState.timestamp sample_states').
Proof.
  intros Hdt.
  induction fuel as [|fuel IH]; intros timestamp sample_states sample_states' Hs Hb; [done|].
  cbn [Predict_samples]. destruct (timestamp <? end_time); [|by intros [= <-]].
  cbv zeta. set (idx := lower_bound ImuState.timestamp imu_states timestamp).
  repeat case_decide; try done.
  destruct (imu_states !! (idx - 1)%nat) as [a|]; cbn [mbind option_bind]; [|done].
  destruct (imu_states !! idx) as [b|]; cbn [mbind option_bind]; [|done].
  destruct (_ && _); [|done].
  apply IH.
  - unfold push_back. apply nondecreasing_snoc; [done|]. intros b' Hb'. by apply Hb.
  - intros b'. unfold push_back, back. rewrite last_snoc. intros [= <-].
    cbn [SampleState.timestamp]. apply Qcle_minus_iff.
    replace (timestamp + sample_dt config + - timestamp) with (sample_dt config) by ring.
    by apply Qclt_le_weak.
Qed.

(** X27.  With a positive [sample_dt], the predictor keeps the stamps of
    the sample states in nondecreasing order: on an initialised window
    whose sample stamps do not decrease, or on an empty one, when
    [PredictImuStatesAndSampleStates] returns the sample stamps do not
    decrease. *)
Theorem Predictor_keeps_sample_order (config : Config) (end_time : double)
    (st st' : LidarOdometry) :
  0 < sample_dt config →
  init_sld_win st = true ∨ sample_states_sld_win_ st = [] →
  nondecreasing (map SampleState.timestamp (sample_states_sld_win_ st)) →
  PredictImuStatesAndSampleStates config end_time st = Some st' →
  nondecreasing (map SampleState.timestamp (sample_states_sld_win_ st')).
Proof.
  intros Hdt Hwin Hs. unfold PredictImuStatesAndSampleStates.
  case_decide; [|done]. cbv zeta.
  destruct (Predict_init config _ st) as [st1|] eqn:Hinit; cbn [mbind option_bind]; [|done].
  assert (nondecreasing (map SampleState.timestamp (sample_states_sld_win_ st1))) as Hs1.
  { unfold Predict_init in Hinit. destruct (init_sld_win st) eqn:Hflag.
    - by injection Hinit as <-.
    - destruct Hwin as [?|Hempty]; [done|].
      destruct (Predict_init_round _ 0 _ _) as [[buf imus]|];
        cbn [mbind option_bind] in Hinit; [|done].
      destruct (Predict_init_round _ 1 _ _) as [[buf' imus']|];
        cbn [mbind option_bind] in Hinit; [|done].
      destruct (front imus') as [f|]; cbn [mbind option_bind] in Hinit; [|done].
      injection Hinit as <-. cbn [sample_states_sld_win_]. rewrite Hempty.
      simpl. repeat constructor. }
  destruct (back (sample_states_sld_win_ st1)) as [latest|] eqn:Hl;
    cbn [mbind option_bind]; [|done].
  destruct (Predict_imu _ _ _ _ _ _ _) as [[buf imus]|]; cbn [mbind option_bind]; [|done].
  destruct (Predict_samples _ _ _ _ _ _ _ _ _) as [samples|] eqn:Hsamples;
    cbn [mbind option_bind]; [|done].
  intros [= <-]. cbn [sample_states_sld_win_].
  apply (Predict_samples_ordered _ _ _ _ _ _ _ Hdt _ _ _ Hs1) in Hsamples; [done|].
  intros b Hb. rewrite Hl in Hb. injection Hb as <-. apply Qcle_minus_iff.
  replace (SampleState.timestamp latest + sample_dt config
           + - SampleState.timestamp latest) with (sample_dt config) by ring.
  by apply Qclt_le_weak.
Qed.

End WindowOrder.

Lemma Corrector_keeps_stamps_witness :
  map ImuState.timestamp (imu_states_sld_win_ Cases.corrected_once)
  = map ImuState.timestamp (imu_states_sld_win_ Cases.pending_window)
  ∧ map SampleState.timestamp (sample_states_sld_win_ Cases.corrected_once)
    = map SampleState.timestamp (sample_states_sld_win_ Cases.pending_window)
  ∧ length (surfels_sld_win_ Cases.corrected_once)
    = length (surfels_sld_win_ Cases.pending_window)
  ∧ imu_buff_ Cases.corrected_once = imu_buff_ Cases.pending_window
  ∧ points_buff_ Cases.corrected_once = points_buff_ Cases.pending_window
  ∧ init_sld_win Cases.corrected_once = init_sld_win Cases.pending_window
  ∧ sync_done Cases.corrected_once = sync_done Cases.pending_window.
Proof.
  apply (Corrector_keeps_stamps (E := RefExternals)).
  vm_compute. reflexivity.
Defined.

Lemma ShrinkToFit_keeps_order_witness :
  nondecreasing
    (map SampleState.timestamp [Demo.sample 0.5; Demo.sample 1; Demo.sample 1.5])
  ∧ nondecreasing (map ImuState.timestamp [Demo.imu_state 0.8; Demo.imu_state 1.5])
  ∧ nondecreasing (map Surfel.timestamp [Demo.surfel 0.9; Demo.surfel 1.2]).
Proof.
  apply (ShrinkToFit_keeps_order Demo.long_samples Demo.long_imus Demo.long_surfels 1).
  - repeat constructor; vm_compute; discriminate.
  - repeat constructor; vm_compute; discriminate.
  - repeat constructor; vm_compute; discriminate.
  - reflexivity.
Defined.

Lemma Predictor_keeps_sample_order_witness :
  nondecreasing (map SampleState.timestamp (sample_states_sld_win_ Cases.predicted)).
Proof.
  apply (Predictor_keeps_sample_order (E := RefExternals) Demo.config_dense (lit 0.1)
           Demo.scanning).
  - reflexivity.
  - by right.
  - constructor.
  - vm_compute. reflexivity.
Defined.

(** ** Corrector: the imu states under zero corrections *)

Section ZeroCorrections.
Context `{E : Externals}.


End ZeroCorrections.


